(** * swift-walletconnect-service: the job scheduler and the notification
      dispatcher of [src/services/QueueService.ts]

    The two classes of the file are embedded as two modules:
    - [QueueService]: per-type priority queues, the tick-driven dispatch
      loop, and the retry/backoff life cycle of a job;
    - [NotificationService]: the channel registry and the single-flight
      drain loop that fans a notification out to its channels.

    JavaScript objects that are shared and mutated in place (a [Job] is
    referenced from its queue, from [activeJobs] and from the closure of
    [processJob]) live in an explicit store and are named by their
    allocation index.  An [async] method is cut at its [await]s: the part
    before the first [await] is one function, each continuation is another,
    and the runtime's pending continuations are part of the state.  What
    the environment decides (the clock, the generated job id, whether and
    when a processor or a webhook call settles, when a timer fires) is an
    input of the step it belongs to.  Numbers are integers; the logger is
    left out.

    The read-only accessors of the two classes ([getJobStatus] and the two
    [getStats]) are in [QueueQueries] and [NotificationQueries], the
    handler of [src/routes/webhook.ts], which feeds the dispatcher, in
    [WebhookRoute], and the checks of [src/routes/health.ts] in
    [HealthRoute]. *)

From stdpp Require Import gmap strings list fin_maps sorting.
From Stdlib Require Import ZArith Lia.

Open Scope Z_scope.

(** ** JavaScript helpers *)

(** [Array.prototype.sort(cmp)]: a stable sort (ECMAScript 2019); [x] is put
    before the first [y] that the comparator does not order before it. *)
Fixpoint sort_insert {A} (cmp : A → A → Z) (x : A) (l : list A) : list A :=
  match l with
  | [] => [x]
  | y :: l' => if cmp x y <=? 0 then x :: l else y :: sort_insert cmp x l'
  end.

Definition Array_sort {A} (cmp : A → A → Z) (l : list A) : list A :=
  foldr (sort_insert cmp) [] l.

(** [Array.prototype.findIndex], [None] for [-1]. *)
Fixpoint findIndex {A} (p : A → bool) (l : list A) : option nat :=
  match l with
  | [] => None
  | x :: l' => if p x then Some 0%nat else S <$> findIndex p l'
  end.

(** A [Map<string, V>] whose iteration order matters: keys in insertion
    order, [Map.set] on a present key keeps its position. *)
Fixpoint Map_get {V} (k : string) (m : list (string * V)) : option V :=
  match m with
  | [] => None
  | (k', v) :: m' => if decide (k' = k) then Some v else Map_get k m'
  end.

Fixpoint Map_set {V} (k : string) (v : V) (m : list (string * V)) : list (string * V) :=
  match m with
  | [] => [(k, v)]
  | (k', v') :: m' =>
      if decide (k' = k) then (k, v) :: m' else (k', v') :: Map_set k v m'
  end.

Definition Map_has {V} (k : string) (m : list (string * V)) : bool :=
  bool_decide (is_Some (Map_get k m)).

(** [a || d] on an optional number: [undefined] and [0] are falsy. *)
Definition or_default (a : option Z) (d : Z) : Z :=
  match a with
  | Some v => if v =? 0 then d else v
  | None => d
  end.

(** ** The job scheduler *)
Module QueueService.

Inductive JobStatus := PENDING | PROCESSING | COMPLETED | FAILED | RETRYING.

Inductive JobPriority := LOW | NORMAL | HIGH | CRITICAL.

(** The numeric values of the [JobPriority] enum. *)
Definition priority_value (p : JobPriority) : Z :=
  match p with LOW => 0 | NORMAL => 1 | HIGH => 2 | CRITICAL => 3 end.

#[global] Instance JobStatus_eq_dec : EqDecision JobStatus.
Proof. solve_decision. Defined.

#[global] Instance JobPriority_eq_dec : EqDecision JobPriority.
Proof. solve_decision. Defined.

(** [interface Job]; the payload [data] is never inspected by the
    scheduler. *)
Record Job := mkJob {
  id : string;
  type : string;
  data : string;
  priority : JobPriority;
  status : JobStatus;
  attempts : Z;
  maxAttempts : Z;
  createdAt : Z;
  updatedAt : Z;
  processedAt : option Z;
  error : option string
}.

(** [interface QueueConfig]: every field is optional. *)
Record QueueConfig := mkQueueConfig {
  maxConcurrent : option Z;
  retryAttempts : option Z;
  retryDelay : option Z;
  processInterval : option Z
}.

(** [Required<QueueConfig>], the type of [this.config]. *)
Module Required.
Record QueueConfig := mk {
  maxConcurrent : Z;
  retryAttempts : Z;
  retryDelay : Z;
  processInterval : Z
}.
End Required.

(** What a processor's promise was rejected with:
    [error instanceof Error ? error.message : 'Unknown error']. *)
Inductive Thrown := ErrorObject (message : string) | OtherValue.

Definition errorMessage (e : Thrown) : string :=
  match e with
  | ErrorObject m => m
  | OtherValue => "Unknown error"
  end.

(** A reference to a job object: its index in the store [jobs]. *)
Abbreviation JobRef := nat (only parsing).

(** The fields of the class, followed by what the runtime holds for it:
    - [awaiting]: the [processJob] calls suspended at [await processor(job)];
    - [timers]: the pending [setTimeout] callbacks with their delay;
    - [emitted]: the events emitted so far, oldest first, each with the job
      object it carried. *)
Record State := mkState {
  jobs : list Job;
  queues : list (string * list JobRef);
  processors : gmap string nat;
  processing : gset string;
  activeJobs : gmap string JobRef;
  config : Required.QueueConfig;
  awaiting : list JobRef;
  timers : list (JobRef * Z);
  emitted : list (string * JobRef)
}.

(** The constructor: [config.x || default] for each field. *)
Definition mkConfig (c : QueueConfig) : Required.QueueConfig :=
  {| Required.maxConcurrent := or_default (maxConcurrent c) 5;
     Required.retryAttempts := or_default (retryAttempts c) 3;
     Required.retryDelay := or_default (retryDelay c) 1000;
     Required.processInterval := or_default (processInterval c) 100 |}.

Definition new (c : QueueConfig) : State :=
  {| jobs := []; queues := []; processors := ∅; processing := ∅;
     activeJobs := ∅; config := mkConfig c;
     awaiting := []; timers := []; emitted := [] |}.

(** Field updates of the state. *)
Definition set_jobs (f : list Job → list Job) (s : State) : State :=
  mkState (f (jobs s)) (queues s) (processors s) (processing s) (activeJobs s)
          (config s) (awaiting s) (timers s) (emitted s).
Definition set_queues (f : list (string * list JobRef) → list (string * list JobRef))
    (s : State) : State :=
  mkState (jobs s) (f (queues s)) (processors s) (processing s) (activeJobs s)
          (config s) (awaiting s) (timers s) (emitted s).
Definition set_processors (f : gmap string nat → gmap string nat) (s : State) : State :=
  mkState (jobs s) (queues s) (f (processors s)) (processing s) (activeJobs s)
          (config s) (awaiting s) (timers s) (emitted s).
Definition set_processing (f : gset string → gset string) (s : State) : State :=
  mkState (jobs s) (queues s) (processors s) (f (processing s)) (activeJobs s)
          (config s) (awaiting s) (timers s) (emitted s).
Definition set_activeJobs (f : gmap string JobRef → gmap string JobRef) (s : State) : State :=
  mkState (jobs s) (queues s) (processors s) (processing s) (f (activeJobs s))
          (config s) (awaiting s) (timers s) (emitted s).
Definition set_awaiting (f : list JobRef → list JobRef) (s : State) : State :=
  mkState (jobs s) (queues s) (processors s) (processing s) (activeJobs s)
          (config s) (f (awaiting s)) (timers s) (emitted s).
Definition set_timers (f : list (JobRef * Z) → list (JobRef * Z)) (s : State) : State :=
  mkState (jobs s) (queues s) (processors s) (processing s) (activeJobs s)
          (config s) (awaiting s) (f (timers s)) (emitted s).

(** [this.emit(name, job)]. *)
Definition emit (name : string) (r : JobRef) (s : State) : State :=
  mkState (jobs s) (queues s) (processors s) (processing s) (activeJobs s)
          (config s) (awaiting s) (timers s) (emitted s ++ [(name, r)]).

(** Assignment to fields of the job object [r]. *)
Definition update_job (r : JobRef) (f : Job → Job) (s : State) : State :=
  set_jobs (fun h => match h !! r with Some j => <[r := f j]> h | None => h end) s.

Definition set_status (v : JobStatus) (j : Job) : Job :=
  mkJob (id j) (type j) (data j) (priority j) v (attempts j) (maxAttempts j)
        (createdAt j) (updatedAt j) (processedAt j) (error j).
Definition set_attempts (v : Z) (j : Job) : Job :=
  mkJob (id j) (type j) (data j) (priority j) (status j) v (maxAttempts j)
        (createdAt j) (updatedAt j) (processedAt j) (error j).
Definition set_updatedAt (v : Z) (j : Job) : Job :=
  mkJob (id j) (type j) (data j) (priority j) (status j) (attempts j) (maxAttempts j)
        (createdAt j) v (processedAt j) (error j).
Definition set_processedAt (v : Z) (j : Job) : Job :=
  mkJob (id j) (type j) (data j) (priority j) (status j) (attempts j) (maxAttempts j)
        (createdAt j) (updatedAt j) (Some v) (error j).
Definition set_error (v : string) (j : Job) : Job :=
  mkJob (id j) (type j) (data j) (priority j) (status j) (attempts j) (maxAttempts j)
        (createdAt j) (updatedAt j) (processedAt j) (Some v).

(** The priority read through a reference, as the sort comparator and
    [getNextJob] do; every reference held by the scheduler is allocated
    (see [wf]), the [None] branch is never taken. *)
Definition priority_of (h : list Job) (r : JobRef) : Z :=
  match h !! r with
  | Some j => priority_value (priority j)
  | None => 0
  end.

(** [queue.sort((a, b) => b.priority - a.priority)]. *)
Definition sort_queue (h : list Job) (q : list JobRef) : list JobRef :=
  Array_sort (fun a b => priority_of h b - priority_of h a) q.

(** [queue.push(job); queue.sort(...)] on the queue of [ty], when the map
    has one. *)
Definition push_sorted (ty : string) (r : JobRef) (s : State) : State :=
  match Map_get ty (queues s) with
  | Some queue =>
      set_queues (Map_set ty (sort_queue (jobs s) (queue ++ [r]))) s
  | None => s
  end.

(** [addJob(type, data, priority)]; [jobId] is what [generateJobId()]
    returned and [now] what [Date.now()] returned. *)
Definition addJob (ty d : string) (p : JobPriority) (jobId : string) (now : Z)
    (s : State) : State :=
  let job := mkJob jobId ty d p PENDING 0 (Required.retryAttempts (config s))
                   now now None None in
  let r := length (jobs s) in
  let s1 := set_jobs (fun h => h ++ [job]) s in
  let s2 := if Map_has ty (queues s1) then s1
            else set_queues (fun m => Map_set ty [] m) s1 in
  emit "job:added" r (push_sorted ty r s2).

(** [registerProcessor(type, processor)]. *)
Definition registerProcessor (ty : string) (p : nat) (s : State) : State :=
  set_processors (fun m => <[ty := p]> m) s.

(** [getNextJob()]: the loop over [this.queues], with its two locals. *)
Definition getNextJob_step (s : State) (acc : option JobRef * Z)
    (entry : string * list JobRef) : option JobRef * Z :=
  match entry.2 with
  | [] => acc
  | job :: _ =>
      if decide (entry.1 ∈ processing s) then acc
      else if priority_of (jobs s) job >? acc.2
           then (Some job, priority_of (jobs s) job)
           else acc
  end.

Definition getNextJob (s : State) : option JobRef :=
  (foldl (getNextJob_step s) (None, -1) (queues s)).1.

(** [removeJobFromQueue(job)]. *)
Definition removeJobFromQueue (r : JobRef) (s : State) : State :=
  match jobs s !! r with
  | Some job =>
      match Map_get (type job) (queues s) with
      | Some queue =>
          match findIndex (fun r' => bool_decide (id <$> jobs s !! r' = Some (id job))) queue with
          | Some index => set_queues (Map_set (type job) (delete index queue)) s
          | None => s
          end
      | None => s
      end
  | None => s
  end.

(** [processJob(job, processor)] up to [await processor(job)]. *)
Definition processJob_begin (r : JobRef) (now : Z) (s : State) : State :=
  match jobs s !! r with
  | Some job =>
      let s1 := set_processing (fun p => p ∪ {[type job]}) s in
      let s2 := removeJobFromQueue r s1 in
      let s3 := set_activeJobs (fun m => <[id job := r]> m) s2 in
      let s4 := update_job r (fun j => set_updatedAt now
                  (set_attempts (attempts j + 1) (set_status PROCESSING j))) s3 in
      set_awaiting (fun l => l ++ [r]) (emit "job:processing" r s4)
  | None => s
  end.

(** [processJobs()], one firing of the interval timer. *)
Definition processJobs (now : Z) (s : State) : State :=
  if Z.of_nat (size (activeJobs s)) >=? Required.maxConcurrent (config s) then s
  else match getNextJob s with
       | None => s
       | Some r =>
           match jobs s !! r with
           | Some job =>
               match processors s !! type job with
               | None => removeJobFromQueue r s
               | Some _ => processJob_begin r now s
               end
           | None => s
           end
       end.

(** Removing one pending continuation. *)
Fixpoint remove_first (r : JobRef) (l : list JobRef) : list JobRef :=
  match l with
  | [] => []
  | x :: l' => if decide (x = r) then l' else x :: remove_first r l'
  end.

Fixpoint remove_timer (r : JobRef) (l : list (JobRef * Z)) : list (JobRef * Z) :=
  match l with
  | [] => []
  | x :: l' => if decide (x.1 = r) then l' else x :: remove_timer r l'
  end.

(** [processJob] after [await processor(job)] returned: the rest of the
    [try] block, then [finally].  The two calls of [Date.now()] return
    [now1] and [now2]. *)
Definition processJob_resolved (r : JobRef) (now1 now2 : Z) (s : State) : State :=
  match jobs s !! r with
  | Some job =>
      let s1 := update_job r (fun j => set_updatedAt now2
                  (set_processedAt now1 (set_status COMPLETED j))) s in
      let s2 := emit "job:completed" r s1 in
      let s3 := set_processing (fun p => p ∖ {[type job]}) s2 in
      set_awaiting (remove_first r) s3
  | None => s
  end.

(** [processJob] after [await processor(job)] threw [e]: the [catch]
    block, then [finally]. *)
Definition processJob_rejected (r : JobRef) (e : Thrown) (now : Z) (s : State) : State :=
  match jobs s !! r with
  | Some job =>
      let s1 := update_job r (fun j => set_updatedAt now (set_error (errorMessage e) j)) s in
      let s2 :=
        if attempts job <? maxAttempts job then
          let s' := emit "job:retrying" r (update_job r (set_status RETRYING) s1) in
          set_timers (fun l => l ++ [(r, Required.retryDelay (config s) * attempts job)]) s'
        else
          let s' := emit "job:failed" r (update_job r (set_status FAILED) s1) in
          set_activeJobs (fun m => delete (id job) m) s' in
      let s3 := set_processing (fun p => p ∖ {[type job]}) s2 in
      set_awaiting (remove_first r) s3
  | None => s
  end.

(** The callback given to [setTimeout] by the retry branch. *)
Definition retry_callback (r : JobRef) (s : State) : State :=
  match jobs s !! r with
  | Some job =>
      let s1 := push_sorted (type job) r s in
      let s2 := set_activeJobs (fun m => delete (id job) m) s1 in
      set_timers (remove_timer r) s2
  | None => s
  end.

(** [clearQueues()]: [queue.length = 0] for every queue. *)
Definition clearQueues (s : State) : State :=
  set_queues (fun m => (fun e : string * list JobRef => (e.1, [])) <$> m) s.

(** ** The scheduler as a transition system

    What can happen to a scheduler: a call of its public interface, a firing
    of the interval timer, the settling of a processor's promise, or the
    firing of a backoff timer. *)
Inductive Event :=
| AddJob (ty d : string) (p : JobPriority) (jobId : string) (now : Z)
| RegisterProcessor (ty : string) (p : nat)
| Tick (now : Z)
| Resolve (r : JobRef) (now1 now2 : Z)
| Reject (r : JobRef) (e : Thrown) (now : Z)
| TimerFires (r : JobRef)
| ClearQueues.

Definition step (s : State) (ev : Event) : State :=
  match ev with
  | AddJob ty d p jobId now => addJob ty d p jobId now s
  | RegisterProcessor ty p => registerProcessor ty p s
  | Tick now => processJobs now s
  | Resolve r now1 now2 => processJob_resolved r now1 now2 s
  | Reject r e now => processJob_rejected r e now s
  | TimerFires r => retry_callback r s
  | ClearQueues => clearQueues s
  end.

(** When an event can happen: a promise settles only if a [processJob] call
    awaits it, a timer fires only if it was set, and [generateJobId()]
    returns an id that no job has yet (its documented contract, "Generate
    unique job ID").  Time is not measured: a timer that was set can fire at
    any later moment, whatever its delay, and ticks come at any moment. *)
Definition enabled (s : State) (ev : Event) : Prop :=
  match ev with
  | AddJob _ _ _ jobId _ => jobId ∉ id <$> jobs s
  | Resolve r _ _ | Reject r _ _ => r ∈ awaiting s
  | TimerFires r => r ∈ (timers s).*1
  | _ => True
  end.

#[global] Instance enabled_dec s ev : Decision (enabled s ev).
Proof. destruct ev; simpl; apply _. Defined.

Definition run (s : State) (evs : list Event) : State := foldl step s evs.

(** The states a scheduler constructed with [c] can be in. *)
Inductive reachable (c : QueueConfig) : State → Prop :=
| reachable_new : reachable c (new c)
| reachable_step s ev :
    reachable c s → enabled s ev → reachable c (step s ev).

(** Every event of [evs] is enabled when its turn comes. *)
Fixpoint all_enabled (s : State) (evs : list Event) : Prop :=
  match evs with
  | [] => True
  | ev :: evs' => enabled s ev ∧ all_enabled (step s ev) evs'
  end.

#[global] Instance all_enabled_dec s evs : Decision (all_enabled s evs).
Proof. revert s; induction evs; simpl; intros; apply _. Defined.

(** ** Vocabulary of the properties *)

(** The job as [processJob] leaves it before the [await]. *)
Definition started (now : Z) (j : Job) : Job :=
  set_updatedAt now (set_attempts (attempts j + 1) (set_status PROCESSING j)).

(** The job as the success path leaves it. *)
Definition completed (now1 now2 : Z) (j : Job) : Job :=
  set_updatedAt now2 (set_processedAt now1 (set_status COMPLETED j)).

(** The job as the [catch] block leaves it. *)
Definition failed_with (e : Thrown) (now : Z) (j : Job) : Job :=
  set_status (if attempts j <? maxAttempts j then RETRYING else FAILED)
    (set_updatedAt now (set_error (errorMessage e) j)).

(** The heads [getNextJob] chooses from: in the iteration order of the map,
    the first job of every non-empty queue whose type is not in
    [processing]. *)
Definition entry_head (s : State) (e : string * list JobRef) : option JobRef :=
  if decide (e.1 ∈ processing s) then None else head e.2.

Definition eligible_heads (s : State) : list JobRef :=
  omap (entry_head s) (queues s).

(** [r] is in no queue, awaited by no [processJob] and has no timer: the
    scheduler holds no reference through which it could reach it again. *)
Definition untracked (r : JobRef) (s : State) : Prop :=
  (∀ e, e ∈ queues s → r ∉ e.2) ∧ (r ∉ awaiting s) ∧ (r ∉ (timers s).*1).


(** Well-formedness: what every reachable scheduler satisfies. *)
Record wf (s : State) : Prop := mk_wf {
  wf_keys : NoDup (queues s).*1;
  wf_queue : ∀ k q, Map_get k (queues s) = Some q →
    NoDup q ∧
    ∀ r, r ∈ q → (r ∉ awaiting s) ∧ (r ∉ (timers s).*1) ∧
      ∃ j, jobs s !! r = Some j ∧ type j = k ∧
           (status j = PENDING ∨ status j = RETRYING);
  wf_awaiting_NoDup : NoDup (awaiting s);
  wf_awaiting : ∀ r, r ∈ awaiting s → (r ∉ (timers s).*1) ∧
      ∃ j, jobs s !! r = Some j ∧ status j = PROCESSING ∧
           activeJobs s !! id j = Some r;
  wf_timers_NoDup : NoDup (timers s).*1;
  wf_timers : ∀ r, r ∈ (timers s).*1 →
      ∃ j, jobs s !! r = Some j ∧ status j = RETRYING ∧
           activeJobs s !! id j = Some r;
  wf_ids : NoDup (id <$> jobs s);
  wf_has_queue : ∀ r j, jobs s !! r = Some j → is_Some (Map_get (type j) (queues s));
  wf_processor : ∀ r j, jobs s !! r = Some j → status j ≠ PENDING →
      is_Some (processors s !! type j);
  wf_emitted : ∀ name r, (name, r) ∈ emitted s →
      name = "job:added" ∨ ∃ j, jobs s !! r = Some j ∧ status j ≠ PENDING
}.







(** ** Scenarios *)

(** The configuration [{}]: every field takes its default. *)
Definition default_config : QueueConfig := mkQueueConfig None None None None.

(** Two jobs of one type; the first is dispatched and its processor
    fails: it is now in its backoff window. *)
Definition backoff_history : list Event :=
  [RegisterProcessor "email" 0%nat;
   AddJob "email" "d1" NORMAL "job_1" 10;
   AddJob "email" "d2" NORMAL "job_2" 11;
   Tick 100;
   Reject 0%nat (ErrorObject "boom") 101].

Definition in_backoff : State := run (new default_config) backoff_history.

(** Scenario A of the specification: a processor for [email], then a job
    of high and a job of low priority. *)
Definition scenario_A : list Event :=
  [RegisterProcessor "email" 0%nat;
   AddJob "email" "d1" HIGH "job_1" 10;
   AddJob "email" "d2" LOW "job_2" 11].

(** Scenario B: the processor of type [x] always throws; with the default
    three attempts and each backoff timer fired before the next tick. *)
Definition scenario_B : list Event :=
  [RegisterProcessor "x" 0%nat;
   AddJob "x" "d" NORMAL "job_1" 10;
   Tick 100; Reject 0%nat (ErrorObject "first") 101; TimerFires 0%nat;
   Tick 1200; Reject 0%nat (ErrorObject "second") 1201; TimerFires 0%nat;
   Tick 3300; Reject 0%nat (ErrorObject "third") 3301].

(** A scheduler limited to one job at a time, two jobs of different types,
    the first of which is dispatched and completes. *)
Definition one_slot : QueueConfig := mkQueueConfig (Some 1) None None None.

Definition one_completed : list Event :=
  [RegisterProcessor "email" 0%nat; RegisterProcessor "sms" 1%nat;
   AddJob "email" "d1" NORMAL "job_1" 10;
   AddJob "sms" "d2" NORMAL "job_2" 11;
   Tick 100;
   Resolve 0%nat 150 150].


(** ** Statements of the specification that do not hold, as they are written *)

(** "During its entire backoff window the type stays marked in-flight and
    the job stays in the active set, so no other job of the type is
    dispatched by any tick until the backoff timer fires." *)
Definition backoff_blocks_type : Prop :=
  ∀ c s r j, reachable c s → r ∈ (timers s).*1 → jobs s !! r = Some j →
    type j ∈ processing s ∧ activeJobs s !! id j = Some r ∧
    ∀ now r' j', r' ∈ awaiting (processJobs now s) → r' ∉ awaiting s →
      jobs s !! r' = Some j' → type j' ≠ type j.


End QueueService.



(** ** The notification dispatcher *)
Module NotificationService.

Inductive NotificationType :=
| session_proposal | session_request | session_update | session_delete
| session_expire | connection_update | error.

Inductive Priority := low | normal | high.

Inductive ChannelType := websocket | webhook | push | email.

#[global] Instance NotificationType_eq_dec : EqDecision NotificationType.
Proof. solve_decision. Defined.

#[global] Instance Priority_eq_dec : EqDecision Priority.
Proof. solve_decision. Defined.

#[global] Instance ChannelType_eq_dec : EqDecision ChannelType.
Proof. solve_decision. Defined.

(** [interface NotificationPayload]. *)
Module Payload.
Record t := mk {
  type : NotificationType;
  topic : string;
  data : string;
  timestamp : option Z;
  priority : option Priority
}.
End Payload.

(** [interface NotificationChannel]. *)
Module Channel.
Record t := mk {
  id : string;
  type : ChannelType;
  endpoint : option string;
  enabled : bool;
  filters : option (list NotificationType)
}.
End Channel.

#[global] Instance Payload_eq_dec : EqDecision Payload.t.
Proof. solve_decision. Defined.

#[global] Instance Channel_eq_dec : EqDecision Channel.t.
Proof. solve_decision. Defined.

(** What an observer of the service sees, in order:
    - [Invoked n p c]: [deliverToChannel(c, p)] was called for the payload of
      the [n]-th call of [sendNotification];
    - [Settled n id ok]: the promise of that delivery settled, fulfilled
      ([ok]) or rejected, and in the latter case the [catch] handler of
      [deliverNotification] logged the failure;
    - [Emitted ev n]: [this.emit(ev, payload)];
    - [Resolved n]: the promise returned by the [n]-th call of
      [sendNotification] resolved. *)
Inductive Obs :=
| Invoked (n : nat) (p : Payload.t) (c : Channel.t)
| Settled (n : nat) (channelId : string) (ok : bool)
| Emitted (ev : string) (n : nat)
| Resolved (n : nat).

#[global] Instance Obs_eq_dec : EqDecision Obs.
Proof. solve_decision. Defined.

(** The suspended [processQueue]: the call of [sendNotification] that awaits
    it, the notification whose delivery it awaits in
    [Promise.allSettled], and the channels (id and type) whose delivery
    promise has not settled yet. *)
Record Drain := mkDrain {
  caller : nat;
  current : nat;
  pending : list (string * ChannelType)
}.

(** The fields of the class ([webhookEndpoints] is never read or written
    after the constructor and is left out), followed by what the runtime
    holds: the number of calls of [sendNotification] so far, which names the
    payload objects in [queue], the suspended drain, and the observations. *)
Record State := mkState {
  channels : list (string * Channel.t);
  queue : list (nat * Payload.t);
  processing : bool;
  calls : nat;
  drain : option Drain;
  log : list Obs
}.

(** [Map.prototype.delete]. *)
Definition Map_delete {V} (k : string) (m : list (string * V)) : list (string * V) :=
  filter (fun e => e.1 ≠ k) m.

(** [addChannel(channel)]. *)
Definition addChannel (c : Channel.t) (s : State) : State :=
  mkState (Map_set (Channel.id c) c (channels s)) (queue s) (processing s)
          (calls s) (drain s) (log s).

(** [removeChannel(channelId)]. *)
Definition removeChannel (channelId : string) (s : State) : State :=
  mkState (Map_delete channelId (channels s)) (queue s) (processing s)
          (calls s) (drain s) (log s).

(** Truthiness of [process.env.WEBHOOK_URL]: an unset variable is
    [undefined], and the empty string is falsy as well. *)
Definition truthy (v : option string) : bool :=
  match v with
  | Some url => negb (String.eqb url "")
  | None => false
  end.

(** [initializeDefaultChannels()], given [process.env.WEBHOOK_URL]. *)
Definition initializeDefaultChannels (WEBHOOK_URL : option string) (s : State) : State :=
  let s1 := addChannel (Channel.mk "websocket" websocket None true None) s in
  if truthy WEBHOOK_URL
  then addChannel (Channel.mk "webhook" webhook WEBHOOK_URL true None) s1
  else s1.

(** The constructor. *)
Definition new (WEBHOOK_URL : option string) : State :=
  initializeDefaultChannels WEBHOOK_URL (mkState [] [] false 0 None []).

(** The two tests of the loop in [deliverNotification]:
    [channel.enabled], and
    [!(channel.filters && !channel.filters.includes(notification.type))]. *)
Definition accepts (c : Channel.t) (p : Payload.t) : bool :=
  Channel.enabled c &&
  match Channel.filters c with
  | Some fs => bool_decide (Payload.type p ∈ fs)
  | None => true
  end.

(** What calling [deliverToChannel(c, p)] does before it first suspends:
    the websocket strategy emits ['websocket'], the webhook strategy calls
    [fetch], the other two only write to the debug log. *)
Definition deliverToChannel (n : nat) (p : Payload.t) (c : Channel.t) : list Obs :=
  Invoked n p c ::
  match Channel.type c with
  | websocket => [Emitted "websocket" n]
  | _ => []
  end.

(** The channels the loop of [deliverNotification] calls
    [deliverToChannel] for, in the iteration order of the map. *)
Definition recipients (p : Payload.t) (m : list (string * Channel.t)) : list (string * Channel.t) :=
  filter (fun e => accepts e.2 p = true) m.

(** [sendNotification] after [await this.processQueue()], or when it skipped
    the drain: it emits ['notification'] and returns. *)
Definition after_drain (caller : nat) (s : State) : State :=
  mkState (channels s) (queue s) (processing s) (calls s) (drain s)
          (log s ++ [Emitted "notification" caller; Resolved caller]).

(** One turn of the [while] loop of [processQueue], run on behalf of the
    call [caller]: with an empty queue the loop ends, [finally] clears the
    flag and the caller goes on; otherwise the head is shifted off and
    [deliverNotification] runs up to [await Promise.allSettled(...)]. *)
Definition processQueue_loop (caller : nat) (s : State) : State :=
  match queue s with
  | [] =>
      after_drain caller
        (mkState (channels s) [] false (calls s) None (log s))
  | (n, p) :: rest =>
      let rs := recipients p (channels s) in
      mkState (channels s) rest (processing s) (calls s)
              (Some (mkDrain caller n ((fun e => (e.1, Channel.type e.2)) <$> rs)))
              (log s ++ concat ((fun e => deliverToChannel n p e.2) <$> rs))
  end.

(** [processQueue()], called by [caller]. *)
Definition processQueue (caller : nat) (s : State) : State :=
  if processing s || bool_decide (queue s = []) then after_drain caller s
  else processQueue_loop caller
         (mkState (channels s) (queue s) true (calls s) (drain s) (log s)).

(** The defaults [sendNotification] stamps on the payload. *)
Definition stamp (now : Z) (p : Payload.t) : Payload.t :=
  Payload.mk (Payload.type p) (Payload.topic p) (Payload.data p)
    (Some (or_default (Payload.timestamp p) now))
    (Some (default normal (Payload.priority p))).

(** [sendNotification(payload)]; [now] is what [Date.now()] returns. *)
Definition sendNotification (p : Payload.t) (now : Z) (s : State) : State :=
  let n := calls s in
  let s1 := mkState (channels s) (queue s ++ [(n, stamp now p)]) (processing s)
                    (S n) (drain s) (log s) in
  if processing s1 then after_drain n s1 else processQueue n s1.

(** Removing one pending delivery. *)
Fixpoint remove_pending (channelId : string) (l : list (string * ChannelType))
    : list (string * ChannelType) :=
  match l with
  | [] => []
  | x :: l' => if decide (x.1 = channelId) then l' else x :: remove_pending channelId l'
  end.

(** The promise of the delivery to [channelId] settles.  A rejection is
    caught by the [catch] handler attached in [deliverNotification], so the
    promise handed to [Promise.allSettled] is fulfilled either way. *)
Definition settle (channelId : string) (ok : bool) (s : State) : State :=
  match drain s with
  | Some d =>
      mkState (channels s) (queue s) (processing s) (calls s)
              (Some (mkDrain (caller d) (current d) (remove_pending channelId (pending d))))
              (log s ++ [Settled (current d) channelId ok])
  | None => s
  end.

(** [Promise.allSettled] resolves and the loop of [processQueue] goes on. *)
Definition allSettled (s : State) : State :=
  match drain s with
  | Some d => processQueue_loop (caller d) s
  | None => s
  end.

(** [clearQueue()]. *)
Definition clearQueue (s : State) : State :=
  mkState (channels s) [] (processing s) (calls s) (drain s) (log s).

(** ** The dispatcher as a transition system *)
Inductive Event :=
| AddChannel (c : Channel.t)
| RemoveChannel (channelId : string)
| SendNotification (p : Payload.t) (now : Z)
| Settle (channelId : string) (ok : bool)
| AllSettled
| ClearQueue.

Definition step (s : State) (ev : Event) : State :=
  match ev with
  | AddChannel c => addChannel c s
  | RemoveChannel channelId => removeChannel channelId s
  | SendNotification p now => sendNotification p now s
  | Settle channelId ok => settle channelId ok s
  | AllSettled => allSettled s
  | ClearQueue => clearQueue s
  end.

(** A delivery settles only while it is pending, and only the webhook
    strategy can fail: the other three have nothing that throws.
    [Promise.allSettled] resolves only once no delivery is pending. *)
Definition enabled (s : State) (ev : Event) : Prop :=
  match ev with
  | Settle channelId ok =>
      ∃ d ty, drain s = Some d ∧ (channelId, ty) ∈ pending d ∧
              (ok = false → ty = webhook)
  | AllSettled => ∃ d, drain s = Some d ∧ pending d = []
  | _ => True
  end.

Definition run (s : State) (evs : list Event) : State := foldl step s evs.

Fixpoint all_enabled (s : State) (evs : list Event) : Prop :=
  match evs with
  | [] => True
  | ev :: evs' => enabled s ev ∧ all_enabled (step s ev) evs'
  end.

Inductive reachable (WEBHOOK_URL : option string) : State → Prop :=
| reachable_new : reachable WEBHOOK_URL (new WEBHOOK_URL)
| reachable_step s ev :
    reachable WEBHOOK_URL s → enabled s ev → reachable WEBHOOK_URL (step s ev).

(** ** Vocabulary of the properties *)

(** The channel the constructor always registers. *)
Definition websocket_channel : Channel.t :=
  Channel.mk "websocket" websocket None true None.

(** What every reachable dispatcher satisfies. *)
Record wf (s : State) : Prop := mk_wf {
  wf_idle : processing s = false → queue s = [];
  wf_drain : is_Some (drain s) → processing s = true;
  wf_caller : ∀ d, drain s = Some d → (caller d < calls s)%nat;
  wf_resolved : ∀ n, Resolved n ∈ log s → (n < calls s)%nat;
  wf_invoked : ∀ n p c, Invoked n p c ∈ log s → accepts c p = true
}.

(** After a call of [sendNotification] that started the drain: either the
    caller still awaits [processQueue] and every recipient of its payload
    is pending in the delivery under way or has settled, or its promise has
    resolved and every recipient settled before that. *)
Definition awaits_delivery (n : nat) (M : list (string * Channel.t)) (s : State) : Prop :=
  (n < calls s)%nat ∧
  ((∃ d, drain s = Some d ∧ caller d = n ∧ (Resolved n ∉ log s) ∧
      ∀ e, e ∈ M → (current d = n ∧ e.1 ∈ (pending d).*1) ∨
                   ∃ ok, Settled n e.1 ok ∈ log s) ∨
   (∃ l1 l2, log s = l1 ++ Resolved n :: l2 ∧ (Resolved n ∉ l1) ∧
      ∀ e, e ∈ M → ∃ ok, Settled n e.1 ok ∈ l1)).



(** ** Scenarios *)

(** A session request. *)
Definition request : Payload.t :=
  Payload.mk session_request "topic" "data" None None.

(** A dispatcher with a webhook channel; the first notification is being
    delivered and the webhook has not answered yet. *)
Definition webhook_pending : State :=
  run (new (Some "https://example.org/hook")) [SendNotification request 10].

(** Scenario C: a channel that only takes [session_delete]. *)
Definition audit : Channel.t :=
  Channel.mk "audit" webhook (Some "https://example.org/audit") true
             (Some [session_delete]).

(** ** Statements of the specification that do not hold, as they are written *)

(** "The promise returned by [sendNotification(p)] resolves only after
    delivery to every enabled channel whose filters include [p.type] has
    settled." *)
Definition resolves_after_settled : Prop :=
  ∀ url s p now evs, reachable url s →
    all_enabled (sendNotification p now s) evs →
    Resolved (calls s) ∈ log (run (sendNotification p now s) evs) →
    ∀ e, e ∈ recipients (stamp now p) (channels s) →
      ∃ ok, Settled (calls s) e.1 ok ∈ log (run (sendNotification p now s) evs).


End NotificationService.

(** ** The read-only interface of the scheduler *)
Module QueueQueries.
Import QueueService.

(** [Array.prototype.find]. *)
Fixpoint Array_find {A} (p : A → bool) (l : list A) : option A :=
  match l with
  | [] => None
  | x :: l' => if p x then Some x else Array_find p l'
  end.

(** The loop of [getJobStatus] over [this.queues.values()]. *)
Fixpoint find_in_queues (h : list Job) (jobId : string)
    (m : list (string * list JobRef)) : option JobRef :=
  match m with
  | [] => None
  | e :: m' =>
      match Array_find (fun r => bool_decide (id <$> h !! r = Some jobId)) e.2 with
      | Some r => Some r
      | None => find_in_queues h jobId m'
      end
  end.

(** [getJobStatus(jobId)]: the job object, [None] for [undefined]. *)
Definition getJobStatus (jobId : string) (s : State) : option JobRef :=
  match activeJobs s !! jobId with
  | Some r => Some r
  | None => find_in_queues (jobs s) jobId (queues s)
  end.

(** One entry of [getStats().queues]. *)
Module QueueStat.
Record t := mk {
  type : string;
  pending : nat;
  processing : nat
}.
End QueueStat.

(** The object [getStats()] returns. *)
Module Stats.
Record t := mk {
  queues : list QueueStat.t;
  activeJobs : nat;
  totalPending : nat;
  config : Required.QueueConfig
}.
End Stats.

(** [getStats()]. *)
Definition getStats (s : State) : Stats.t :=
  Stats.mk
    ((fun e : string * list JobRef =>
        QueueStat.mk e.1 (length e.2) (if decide (e.1 ∈ processing s) then 1 else 0)%nat)
       <$> queues s)
    (size (activeJobs s))
    (foldl (fun sum (queue : list JobRef) => (sum + length queue)%nat) 0%nat (queues s).*2)
    (config s).

(** *** Further invariants of the scheduler *)

(** The in-flight marks are the types of the jobs whose processor is
    running, and no two such jobs have the same type. *)
Record one_per_type (s : State) : Prop := mk_one_per_type {
  opt_marked : ∀ r j, r ∈ awaiting s → jobs s !! r = Some j → type j ∈ processing s;
  opt_running : ∀ k, k ∈ processing s →
      ∃ r j, r ∈ awaiting s ∧ jobs s !! r = Some j ∧ type j = k;
  opt_unique : ∀ r1 r2 j1 j2, r1 ∈ awaiting s → r2 ∈ awaiting s →
      jobs s !! r1 = Some j1 → jobs s !! r2 = Some j2 → type j1 = type j2 → r1 = r2
}.

(** Every entry of the active set is a job stored under its own id, and
    the active set never outgrows the concurrency limit. *)
Record active_ok (s : State) : Prop := mk_active_ok {
  act_id : ∀ k r, activeJobs s !! k = Some r → ∃ j, jobs s !! r = Some j ∧ id j = k;
  act_bound : Z.of_nat (size (activeJobs s)) <= Z.max 0 (Required.maxConcurrent (config s))
}.

(** Which jobs the active set holds, by status: a completed job is still
    in it, a pending or failed job is not. *)
Record status_active (s : State) : Prop := mk_status_active {
  sa_completed : ∀ r j, jobs s !! r = Some j → status j = COMPLETED →
      activeJobs s !! id j = Some r;
  sa_failed : ∀ r j, jobs s !! r = Some j → status j = FAILED →
      activeJobs s !! id j = None;
  sa_pending : ∀ r j, jobs s !! r = Some j → status j = PENDING →
      activeJobs s !! id j = None
}.


(** The statuses a job can go through in one step. *)
Definition transition (a b : JobStatus) : Prop :=
  match a, b with
  | PENDING, PROCESSING | RETRYING, PROCESSING
  | PROCESSING, COMPLETED | PROCESSING, RETRYING | PROCESSING, FAILED => True
  | _, _ => False
  end.

(** Where the scheduler holds a reference to job [r]. *)
Definition in_queue (r : JobRef) (s : State) : Prop :=
  ∃ k q, Map_get k (queues s) = Some q ∧ r ∈ q.

(** A job whose status is PROCESSING is awaited by its [processJob] call. *)
Definition running_awaited (s : State) : Prop :=
  ∀ r j, jobs s !! r = Some j → status j = PROCESSING → r ∈ awaiting s.

(** A job in one of its two final statuses. *)
Definition terminal (j : Job) : Prop := status j = COMPLETED ∨ status j = FAILED.

(** The names of the events emitted for job [r] so far, oldest first. *)
Definition events_of (r : JobRef) (s : State) : list string :=
  (filter (fun e : string * JobRef => e.2 = r) (emitted s)).*1.

(** The status an event announces. *)
Definition announced (name : string) : option JobStatus :=
  if decide (name = "job:added") then Some PENDING
  else if decide (name = "job:processing") then Some PROCESSING
  else if decide (name = "job:completed") then Some COMPLETED
  else if decide (name = "job:retrying") then Some RETRYING
  else if decide (name = "job:failed") then Some FAILED
  else None.

(** How often [name] occurs in a list of event names. *)
Definition occurrences (name : string) (l : list string) : Z :=
  Z.of_nat (length (filter (fun x => x = name) l)).

(** The events of a job tell its status and its attempts: the last one
    announces the status the job has, and it was dispatched as often as
    ['job:processing'] was emitted for it. *)
Record events_ok (s : State) : Prop := mk_events_ok {
  ev_allocated : ∀ name r, (name, r) ∈ emitted s → (r < length (jobs s))%nat;
  ev_job : ∀ r j, jobs s !! r = Some j →
    (∃ name, last (events_of r s) = Some name ∧ announced name = Some (status j)) ∧
    head (events_of r s) = Some "job:added" ∧
    attempts j = occurrences "job:processing" (events_of r s) ∧
    occurrences "job:added" (events_of r s) = 1
}.

End QueueQueries.

(** ** The read-only interface of the dispatcher *)
Module NotificationQueries.
Import NotificationService.

(** One entry of [getStats().channels]. *)
Module ChannelStat.
Record t := mk {
  id : string;
  type : ChannelType;
  enabled : bool
}.
End ChannelStat.

(** The object [getStats()] returns. *)
Module Stats.
Record t := mk {
  queueSize : nat;
  channels : list ChannelStat.t;
  processing : bool
}.
End Stats.

(** [getStats()]. *)
Definition getStats (s : State) : Stats.t :=
  Stats.mk
    (length (queue s))
    ((fun e : string * Channel.t =>
        ChannelStat.mk (Channel.id e.2) (Channel.type e.2) (Channel.enabled e.2))
       <$> channels s)
    (processing s).

(** *** Further invariants of the dispatcher *)

(** The registry holds every channel under its own id, once. *)
Record registry_ok (s : State) : Prop := mk_registry_ok {
  reg_keys : NoDup (channels s).*1;
  reg_id : ∀ e, e ∈ channels s → Channel.id e.2 = e.1
}.

(** The call number of a delivery. *)
Definition invoked (o : Obs) : option nat :=
  match o with
  | Invoked n _ _ => Some n
  | _ => None
  end.

(** A payload that went through [sendNotification] has its time stamp and
    its priority. *)
Definition stamped (p : Payload.t) : Prop :=
  is_Some (Payload.timestamp p) ∧ is_Some (Payload.priority p).

(** The queue, the drain and the log of a reachable dispatcher:
    - while the flag is set a [processQueue] call is suspended;
    - a delivery that was started has settled or is pending in the
      delivery under way;
    - a notification in the queue comes from a call that has returned
      already, and no delivery of it or of a later call was started;
    - the queue is in the order of the calls. *)
Record dispatch_ok (s : State) : Prop := mk_dispatch_ok {
  d_busy : processing s = true → is_Some (drain s);
  d_invoked : ∀ n p c, Invoked n p c ∈ log s →
      stamped p ∧ (n < calls s)%nat ∧
      ((∃ ok, Settled n (Channel.id c) ok ∈ log s) ∨
       (∃ d, drain s = Some d ∧ current d = n ∧
             (Channel.id c, Channel.type c) ∈ pending d));
  d_queue : ∀ n p, (n, p) ∈ queue s →
      stamped p ∧ (n < calls s)%nat ∧
      Emitted "notification" n ∈ log s ∧ Resolved n ∈ log s ∧
      ∀ m, m ∈ omap invoked (log s) → (m < n)%nat;
  d_sorted : StronglySorted lt (queue s).*1;
  d_fifo : StronglySorted le (omap invoked (log s))
}.

(** The call [n] returned, its notification is not in the queue and no
    delivery of it was started. *)
Definition dropped (n : nat) (s : State) : Prop :=
  (n < calls s)%nat ∧ (n ∉ (queue s).*1) ∧ (n ∉ omap invoked (log s)).




(** Whether an event can happen is decidable. *)
#[global] Instance dispatcher_enabled_dec s ev : Decision (enabled s ev).
Proof.
  destruct ev as [c|channelId|p now|channelId ok| |]; simpl; try apply _.
  - destruct (drain s) as [d|].
    + refine (cast_if (decide (Exists
        (fun x : string * ChannelType => x.1 = channelId ∧ (ok = false → x.2 = webhook))
        (pending d)))).
      * apply Exists_exists in e as ([k ty] & Hin & Hk & Hok). simpl in *. subst.
        eauto 10.
      * intros (d' & ty & [= <-] & Hin & Hok). apply n, Exists_exists.
        exists (channelId, ty). eauto.
    + right. intros (d & ty & Hd & _). discriminate.
  - destruct (drain s) as [d|].
    + refine (cast_if (decide (pending d = []))).
      * eauto.
      * intros (d' & [= <-] & H). done.
    + right. intros (d & Hd & _). discriminate.
Defined.

#[global] Instance dispatcher_all_enabled_dec s evs : Decision (all_enabled s evs).
Proof. revert s; induction evs; simpl; intros; apply _. Defined.

End NotificationQueries.

(** ** The webhook route of [src/routes/webhook.ts]

    The handler of [POST /] is a sequence of awaited calls into the session
    manager and the dispatcher, inside one [try]/[catch].  What the
    environment decides is an input: what [validateWebhook] answers, and
    whether the promise of an awaited call is rejected.  The handler is
    written in a small monad that records the calls made and stops at the
    first exception. *)
Module WebhookRoute.
Import NotificationService.

(** [webhookData.params], as far as the handlers read it: whether
    [params.request] is there (neither [null] nor [undefined]); the rest is
    passed on unread. *)
Record Params := mkParams {
  content : string;
  has_request : bool
}.

(** [req.body]: [type] is [None] when the field is missing or is not a
    string, and [params] is [None] for [null] and [undefined]. *)
Record Body := mkBody {
  type : option string;
  topic : string;
  params : option Params
}.

(** The [data] of a notification: [params] as received, or the literal
    [{}]. *)
Inductive Data := FromParams (p : option Params) | EmptyObject.

(** The awaited calls. *)
Inductive Call :=
| DeleteSession (topic : string)
| UpdateSession (topic : string) (params : option Params)
| UpdateLastActivity (topic : string)
| SendNotification (ty : NotificationType) (topic : string) (data : Data).

#[global] Instance Params_eq_dec : EqDecision Params.
Proof. solve_decision. Defined.

#[global] Instance Data_eq_dec : EqDecision Data.
Proof. solve_decision. Defined.

#[global] Instance Call_eq_dec : EqDecision Call.
Proof. solve_decision. Defined.

(** The request, as far as the handler reads it: the header
    [x-walletconnect-signature] and the body ([None] for [undefined]). *)
Record Request := mkRequest {
  signature : option string;
  body : option Body
}.

(** The environment: the answer of [validateWebhook(body, signature)]
    ([None] when it throws), and whether an awaited call is rejected. *)
Record Env := mkEnv {
  validateWebhook : option Body → string → option bool;
  rejects : Call → bool
}.

(** Computations that make calls and may throw. *)
Definition M (A : Type) : Type := Env → list Call * option A.

Definition ret {A} (a : A) : M A := fun _ => ([], Some a).

Definition throw {A} : M A := fun _ => ([], None).

Definition bind {A B} (m : M A) (f : A → M B) : M B := fun env =>
  match m env with
  | (t, Some a) => let r := f a env in (t ++ r.1, r.2)
  | (t, None) => (t, None)
  end.

(** [await c]. *)
Definition await (c : Call) : M unit := fun env =>
  ([c], if rejects env c then None else Some tt).

Notation "m ;; k" := (bind m (fun _ => k)) (at level 100, right associativity).

(** [handleSessionProposal(data)]. *)
Definition handleSessionProposal (data : Body) : M unit :=
  await (SendNotification session_proposal (topic data) (FromParams (params data))).

(** [handleSessionRequest(data)]: the log entry reads
    [params.request.method], which throws when [params] or
    [params.request] is missing. *)
Definition handleSessionRequest (data : Body) : M unit :=
  match params data with
  | Some p => if has_request p then ret tt else throw
  | None => throw
  end ;;
  await (SendNotification session_request (topic data) (FromParams (params data))).

(** [handleSessionDelete(data)]. *)
Definition handleSessionDelete (data : Body) : M unit :=
  await (DeleteSession (topic data)) ;;
  await (SendNotification session_delete (topic data) EmptyObject).

(** [handleSessionUpdate(data)]. *)
Definition handleSessionUpdate (data : Body) : M unit :=
  await (UpdateSession (topic data) (params data)) ;;
  await (SendNotification session_update (topic data) (FromParams (params data))).

(** [handleSessionPing(data)]. *)
Definition handleSessionPing (data : Body) : M unit :=
  await (UpdateLastActivity (topic data)).

(** The [switch] on [webhookData.type]. *)
Definition dispatch (data : Body) : M unit :=
  if decide (type data = Some "session_proposal") then handleSessionProposal data
  else if decide (type data = Some "session_request") then handleSessionRequest data
  else if decide (type data = Some "session_delete") then handleSessionDelete data
  else if decide (type data = Some "session_update") then handleSessionUpdate data
  else if decide (type data = Some "session_ping") then handleSessionPing data
  else ret tt.

(** The handler of [POST /]: the calls it makes and the status of its
    response. *)
Definition post (req : Request) (env : Env) : list Call * Z :=
  match signature req with
  | None => ([], 401)
  | Some sig =>
      if decide (sig = "") then ([], 401)
      else match validateWebhook env (body req) sig with
           | None => ([], 500)
           | Some false => ([], 401)
           | Some true =>
               match body req with
               | None => ([], 500)
               | Some data =>
                   let r := dispatch data env in
                   (r.1, match r.2 with Some _ => 200 | None => 500 end)
               end
           end
  end.

(** The handler of [POST /test], given [process.env.NODE_ENV]. *)
Definition post_test (NODE_ENV : option string) : Z :=
  if decide (NODE_ENV = Some "production") then 404 else 200.

(** *** Vocabulary of the properties *)

(** The string of a notification type. *)
Definition type_name (ty : NotificationType) : string :=
  match ty with
  | session_proposal => "session_proposal"
  | session_request => "session_request"
  | session_update => "session_update"
  | session_delete => "session_delete"
  | session_expire => "session_expire"
  | connection_update => "connection_update"
  | error => "error"
  end.

Definition is_notification (c : Call) : bool :=
  match c with
  | SendNotification _ _ _ => true
  | _ => false
  end.

(** The request passed the signature check. *)
Definition authentic (req : Request) (env : Env) : Prop :=
  ∃ sig, signature req = Some sig ∧ sig ≠ "" ∧
         validateWebhook env (body req) sig = Some true.

(** An environment in which the validator accepts and nothing fails. *)
Definition all_fine : Env := mkEnv (fun _ _ => Some true) (fun _ => false).

End WebhookRoute.

(** ** The health route of [src/routes/health.ts]

    What the cache, the session manager and the process report is an
    input. *)
Module HealthRoute.

(** What [sessionManager.getAllSessions()] does: it throws, or returns an
    array (of some length), [null] or [undefined], or something else. *)
Inductive Sessions :=
| SessionsThrow
| SessionsArray (length : nat)
| SessionsNullish
| SessionsOther.

(** What the cache does in one run of [checkCacheHealth]: whether [set]
    throws, what [get] returns ([None] when it throws, [Some None] for
    [null]), and whether [delete] throws. *)
Record Cache := mkCache {
  set_throws : bool;
  get_result : option (option string);
  delete_throws : bool
}.

(** The environment of one request: [testValue] is
    [Date.now().toString()], [sessions1] and [sessions2] are the first and
    the second call of [getAllSessions], and [memory] is the outcome of the
    comparison [heapUsedPercent < 90]. *)
Record Env := mkEnv {
  cache : Cache;
  testValue : string;
  sessions1 : Sessions;
  sessions2 : Sessions;
  memory : bool
}.

Inductive Status := healthy | degraded | unhealthy.

#[global] Instance Status_eq_dec : EqDecision Status.
Proof. solve_decision. Defined.

(** [checkCacheHealth()]. *)
Definition checkCacheHealth (env : Env) : bool :=
  if set_throws (cache env) then false
  else match get_result (cache env) with
       | None => false
       | Some retrieved =>
           if delete_throws (cache env) then false
           else bool_decide (retrieved = Some (testValue env))
       end.

(** [checkSessionsHealth()]: [Array.isArray(sessions)], [false] on an
    exception. *)
Definition checkSessionsHealth (o : Sessions) : bool :=
  match o with
  | SessionsArray _ => true
  | _ => false
  end.

(** [gatherMetrics()]: [None] when it throws; [activeSessions] is
    [sessions.length], [undefined] when the value has no length. *)
Definition gatherMetrics (o : Sessions) : option (option nat) :=
  match o with
  | SessionsThrow => None
  | SessionsArray n => Some (Some n)
  | SessionsNullish => None
  | SessionsOther => Some None
  end.

Record Checks := mkChecks {
  cache_ok : bool;
  sessions_ok : bool;
  memory_ok : bool
}.

(** [performHealthChecks()]: [None] when it throws. *)
Definition performHealthChecks (env : Env) : option (Status * Checks * option nat) :=
  let checks := mkChecks (checkCacheHealth env) (checkSessionsHealth (sessions1 env))
                         (memory env) in
  let values := [cache_ok checks; sessions_ok checks; memory_ok checks] in
  let allHealthy := forallb (fun check => bool_decide (check = true)) values in
  let someHealthy := existsb (fun check => bool_decide (check = true)) values in
  let status := if allHealthy then healthy else if someHealthy then degraded else unhealthy in
  match gatherMetrics (sessions2 env) with
  | Some activeSessions => Some (status, checks, activeSessions)
  | None => None
  end.

(** [GET /detailed]: the status code. *)
Definition detailed (env : Env) : Z :=
  match performHealthChecks env with
  | Some (status, _, _) =>
      if decide (status = healthy) then 200
      else if decide (status = degraded) then 200 else 503
  | None => 503
  end.

(** [GET /ready]: the status code. *)
Definition ready (env : Env) : Z :=
  let cacheReady := checkCacheHealth env in
  let sessionsReady := checkSessionsHealth (sessions1 env) in
  if cacheReady && sessionsReady then 200 else 503.

End HealthRoute.

(** *** Facts about the helpers *)
Section helpers.
Context {A V : Type}.
Implicit Types (m : list (string * V)) (k : string) (v : V).

Lemma Map_get_set k k' v m :
  Map_get k' (Map_set k v m) = if decide (k = k') then Some v else Map_get k' m.
Proof.
  induction m as [|[k0 v0] m IH]; simpl.
  - repeat case_decide; congruence.
  - destruct (decide (k0 = k)) as [->|Hne]; simpl.
    + destruct (decide (k = k')); reflexivity.
    + rewrite IH. destruct (decide (k0 = k')) as [->|]; [|reflexivity].
      destruct (decide (k = k')); congruence.
Qed.

Lemma Map_get_set_eq k v m : Map_get k (Map_set k v m) = Some v.
Proof. rewrite Map_get_set. case_decide; congruence. Qed.

Lemma Map_get_set_ne k k' v m : k ≠ k' → Map_get k' (Map_set k v m) = Map_get k' m.
Proof. intros. rewrite Map_get_set. case_decide; congruence. Qed.

Lemma Map_get_Some_elem k v m : Map_get k m = Some v → (k, v) ∈ m.
Proof.
  induction m as [|[k0 v0] m IH]; simpl; [discriminate|].
  destruct (decide (k0 = k)); intros Hv; simplify_eq; [left | right; auto].
Qed.

Lemma Map_get_None k m : Map_get k m = None ↔ k ∉ m.*1.
Proof.
  induction m as [|[k0 v0] m IH]; simpl.
  - split; [intros _; apply not_elem_of_nil | reflexivity].
  - rewrite not_elem_of_cons. destruct (decide (k0 = k)) as [->|Hne].
    + split; [discriminate | intros [Hk _]; by destruct Hk].
    + rewrite IH. split; [intros; split; [congruence | assumption] | intros []; assumption].
Qed.

Lemma Map_get_elem k v m : NoDup m.*1 → (k, v) ∈ m → Map_get k m = Some v.
Proof.
  induction m as [|[k0 v0] m IH]; simpl; intros Hnd Hin.
  - inversion Hin.
  - apply NoDup_cons in Hnd as [Hk0 Hnd].
    apply elem_of_cons in Hin as [Heq|Hin].
    + simplify_eq. case_decide; congruence.
    + case_decide; [|auto]. subst. exfalso. apply Hk0.
      apply (list_elem_of_fmap_2 fst) in Hin. exact Hin.
Qed.

Lemma Map_set_keys_present k v m :
  is_Some (Map_get k m) → (Map_set k v m).*1 = m.*1.
Proof.
  induction m as [|[k0 v0] m IH]; simpl; intros [x Hx]; [discriminate|].
  case_decide; subst; simpl; [reflexivity|]. f_equal. eauto.
Qed.

Lemma Map_set_keys_absent k v m :
  Map_get k m = None → (Map_set k v m).*1 = m.*1 ++ [k].
Proof.
  induction m as [|[k0 v0] m IH]; simpl; intros Hx; [reflexivity|].
  case_decide; [discriminate|]. simpl. f_equal. auto.
Qed.

Lemma Map_set_NoDup k v m : NoDup m.*1 → NoDup (Map_set k v m).*1.
Proof.
  intros Hnd. destruct (Map_get k m) as [x|] eqn:E.
  - rewrite Map_set_keys_present; eauto.
  - rewrite Map_set_keys_absent by assumption.
    apply NoDup_app. split_and!; [assumption| |apply NoDup_singleton].
    intros y Hy ->%list_elem_of_singleton. by apply Map_get_None in E.
Qed.

Lemma Map_has_true k m : Map_has k m = true ↔ is_Some (Map_get k m).
Proof. unfold Map_has. apply bool_decide_eq_true. Qed.

Lemma Map_has_false k m : Map_has k m = false ↔ Map_get k m = None.
Proof.
  unfold Map_has. rewrite bool_decide_eq_false, eq_None_not_Some. reflexivity.
Qed.

Lemma findIndex_head (p : A → bool) x l : p x = true → findIndex p (x :: l) = Some 0%nat.
Proof. simpl. intros ->. reflexivity. Qed.

(** Sorting by a key, greatest first. *)
Variable key : A → Z.
Let cmp (a b : A) : Z := key b - key a.
Let ge (a b : A) : Prop := key b <= key a.

Lemma sort_insert_Permutation x (l : list A) : sort_insert cmp x l ≡ₚ x :: l.
Proof.
  induction l as [|y l IH]; simpl; [reflexivity|].
  destruct (cmp x y <=? 0); [reflexivity|].
  rewrite IH. apply Permutation_swap.
Qed.

Lemma Array_sort_Permutation (l : list A) : Array_sort cmp l ≡ₚ l.
Proof.
  induction l as [|y l IH]; simpl; [reflexivity|].
  fold (Array_sort cmp l). rewrite sort_insert_Permutation, IH. reflexivity.
Qed.



(** A sorted array is left as it is: the sort is stable. *)
Lemma sort_insert_head x (l : list A) :
  Forall (fun y => key y <= key x) l → sort_insert cmp x l = x :: l.
Proof.
  destruct 1 as [|y l Hy Hl]; simpl; [reflexivity|].
  unfold cmp. destruct (Z.leb_spec (key y - key x) 0); [reflexivity | lia].
Qed.

Lemma Array_sort_id (l : list A) : StronglySorted ge l → Array_sort cmp l = l.
Proof.
  induction 1 as [|y l Hl IH Hy]; simpl; [reflexivity|].
  fold (Array_sort cmp l). rewrite IH. apply sort_insert_head, Hy.
Qed.

End helpers.

(** ** What each operation does, in closed form *)
Module QueueFacts.
Import QueueService.

Lemma Map_set_set {V} k (v v' : V) m : Map_set k v (Map_set k v' m) = Map_set k v m.
Proof.
  induction m as [|[k0 v0] m IH]; simpl.
  - case_decide; congruence.
  - destruct (decide (k0 = k)) as [->|Hne]; simpl.
    + case_decide; congruence.
    + destruct (decide (k0 = k)); [congruence|]. by rewrite IH.
Qed.

Lemma addJob_eq ty d p jobId now s :
  addJob ty d p jobId now s =
  let job := mkJob jobId ty d p PENDING 0 (Required.retryAttempts (config s))
                   now now None None in
  mkState (jobs s ++ [job])
    (Map_set ty (sort_queue (jobs s ++ [job])
                   (default [] (Map_get ty (queues s)) ++ [length (jobs s)]))
             (queues s))
    (processors s) (processing s) (activeJobs s) (config s)
    (awaiting s) (timers s) (emitted s ++ [("job:added", length (jobs s))]).
Proof.
  unfold addJob, push_sorted. simpl.
  destruct (Map_has ty (queues s)) eqn:E.
  - apply Map_has_true in E as [q Hq]. simpl. rewrite Hq. reflexivity.
  - apply Map_has_false in E. simpl. rewrite Map_get_set_eq, E. simpl.
    unfold set_queues, emit; simpl. by rewrite Map_set_set.
Qed.

Lemma removeJobFromQueue_head r j q s :
  jobs s !! r = Some j → Map_get (type j) (queues s) = Some (r :: q) →
  removeJobFromQueue r s = set_queues (Map_set (type j) q) s.
Proof.
  intros Hj Hq. unfold removeJobFromQueue. rewrite Hj, Hq.
  rewrite findIndex_head; [reflexivity|].
  apply bool_decide_eq_true. by rewrite Hj.
Qed.

Lemma processJob_begin_eq r j q now s :
  jobs s !! r = Some j → Map_get (type j) (queues s) = Some (r :: q) →
  processJob_begin r now s =
  mkState (<[r := started now j]> (jobs s)) (Map_set (type j) q (queues s))
    (processors s) (processing s ∪ {[type j]}) (<[id j := r]> (activeJobs s))
    (config s) (awaiting s ++ [r]) (timers s)
    (emitted s ++ [("job:processing", r)]).
Proof.
  intros Hj Hq. unfold processJob_begin. rewrite Hj.
  rewrite (removeJobFromQueue_head r j q) by assumption.
  unfold update_job, set_awaiting, emit, set_jobs, set_activeJobs, set_queues,
    set_processing; simpl. by rewrite Hj.
Qed.

Lemma processJob_resolved_eq r j now1 now2 s :
  jobs s !! r = Some j →
  processJob_resolved r now1 now2 s =
  mkState (<[r := completed now1 now2 j]> (jobs s)) (queues s)
    (processors s) (processing s ∖ {[type j]}) (activeJobs s)
    (config s) (remove_first r (awaiting s)) (timers s)
    (emitted s ++ [("job:completed", r)]).
Proof.
  intros Hj. unfold processJob_resolved. rewrite Hj.
  unfold update_job, set_awaiting, emit, set_jobs, set_processing; simpl.
  by rewrite Hj.
Qed.

Lemma processJob_rejected_eq r j e now s :
  jobs s !! r = Some j →
  processJob_rejected r e now s =
  mkState (<[r := failed_with e now j]> (jobs s)) (queues s)
    (processors s) (processing s ∖ {[type j]})
    (if attempts j <? maxAttempts j then activeJobs s else delete (id j) (activeJobs s))
    (config s) (remove_first r (awaiting s))
    (if attempts j <? maxAttempts j
     then timers s ++ [(r, Required.retryDelay (config s) * attempts j)]
     else timers s)
    (emitted s ++ [(if attempts j <? maxAttempts j then "job:retrying" else "job:failed", r)]).
Proof.
  intros Hj. unfold processJob_rejected, failed_with. rewrite Hj.
  assert (Hlt : (r < length (jobs s))%nat) by (eapply lookup_lt_Some; eauto).
  destruct (attempts j <? maxAttempts j);
    unfold update_job, set_awaiting, emit, set_jobs, set_processing, set_timers,
      set_activeJobs; simpl;
    rewrite Hj; simpl; rewrite list_lookup_insert_eq by assumption;
    by rewrite list_insert_insert_eq.
Qed.

Lemma retry_callback_eq r j q s :
  jobs s !! r = Some j → Map_get (type j) (queues s) = Some q →
  retry_callback r s =
  mkState (jobs s) (Map_set (type j) (sort_queue (jobs s) (q ++ [r])) (queues s))
    (processors s) (processing s) (delete (id j) (activeJobs s))
    (config s) (awaiting s) (remove_timer r (timers s)) (emitted s).
Proof.
  intros Hj Hq. unfold retry_callback, push_sorted. rewrite Hj, Hq. reflexivity.
Qed.

(** *** Generic facts on the runtime lists *)
Lemma remove_first_subseteq r (l : list JobRef) x : x ∈ remove_first r l → x ∈ l.
Proof.
  induction l as [|y l IH]; simpl; [done|].
  case_decide; rewrite ?elem_of_cons; [auto|]. intros [->|Hx]; auto.
Qed.

Lemma remove_first_NoDup r (l : list JobRef) : NoDup l → NoDup (remove_first r l).
Proof.
  induction 1 as [|x l Hx Hl IH]; simpl; [constructor|].
  case_decide; [assumption|]. constructor; [|assumption].
  intros Hin. apply Hx. by apply remove_first_subseteq in Hin.
Qed.

Lemma remove_first_not_elem r (l : list JobRef) : NoDup l → r ∉ remove_first r l.
Proof.
  induction 1 as [|x l Hx Hl IH]; simpl; [apply not_elem_of_nil|].
  case_decide; [by subst|]. rewrite not_elem_of_cons. split; [congruence | assumption].
Qed.

Lemma remove_timer_subseteq r (l : list (JobRef * Z)) x :
  x ∈ (remove_timer r l).*1 → x ∈ l.*1.
Proof.
  induction l as [|y l IH]; csimpl; [done|].
  case_decide; csimpl; rewrite ?elem_of_cons; [auto|]. intros [->|Hx]; auto.
Qed.

Lemma remove_timer_NoDup r (l : list (JobRef * Z)) :
  NoDup l.*1 → NoDup (remove_timer r l).*1.
Proof.
  induction l as [|x l IH]; csimpl; [constructor|].
  rewrite NoDup_cons. intros [Hx Hl].
  case_decide; [assumption|]. csimpl. constructor; [|auto].
  intros Hin. apply Hx. by apply remove_timer_subseteq in Hin.
Qed.

Lemma remove_timer_not_elem r (l : list (JobRef * Z)) :
  NoDup l.*1 → r ∉ (remove_timer r l).*1.
Proof.
  induction l as [|x l IH]; csimpl; [intros; apply not_elem_of_nil|].
  rewrite NoDup_cons. intros [Hx Hl].
  case_decide; [by subst|]. csimpl. rewrite not_elem_of_cons.
  split; [congruence | auto].
Qed.

Lemma Map_get_cleared {V} k (m : list (string * list V)) q :
  Map_get k ((fun e : string * list V => (e.1, @nil V)) <$> m) = Some q → q = [].
Proof.
  induction m as [|[k0 v0] m IH]; simpl; [discriminate|].
  case_decide; [congruence | auto].
Qed.

Lemma Map_get_cleared_is_Some {V} k (m : list (string * list V)) :
  is_Some (Map_get k m) →
  is_Some (Map_get k ((fun e : string * list V => (e.1, @nil V)) <$> m)).
Proof.
  induction m as [|[k0 v0] m IH]; simpl; [done|].
  case_decide; [eauto | auto].
Qed.

Lemma Map_set_is_Some {V} k k' (v : V) m :
  is_Some (Map_get k' m) → is_Some (Map_get k' (Map_set k v m)).
Proof. rewrite Map_get_set. case_decide; eauto. Qed.

(** Two references with the same id are the same reference. *)
Lemma ids_inj (h : list Job) r r' j j' :
  NoDup (id <$> h) → h !! r = Some j → h !! r' = Some j' → id j = id j' → r = r'.
Proof.
  intros Hnd Hr Hr' Hid.
  eapply NoDup_lookup; [exact Hnd| |].
  - rewrite list_lookup_fmap, Hr. reflexivity.
  - rewrite list_lookup_fmap, Hr', Hid. reflexivity.
Qed.

Lemma ids_insert (h : list Job) r j j' :
  h !! r = Some j → id j' = id j → id <$> <[r := j']> h = id <$> h.
Proof.
  intros Hr Hid. rewrite list_fmap_insert, Hid.
  apply list_insert_id. by rewrite list_lookup_fmap, Hr.
Qed.

(** *** The choice of [getNextJob] *)
Lemma priority_of_nonneg h r : 0 <= priority_of h r.
Proof.
  unfold priority_of. destruct (h !! r) as [j|]; [destruct (priority j)|]; simpl; lia.
Qed.

Lemma getNextJob_step_head s acc e :
  getNextJob_step s acc e =
  match entry_head s e with
  | Some r => if priority_of (jobs s) r >? acc.2
              then (Some r, priority_of (jobs s) r) else acc
  | None => acc
  end.
Proof.
  unfold getNextJob_step, entry_head. destruct e as [k [|r q]]; simpl;
    destruct (decide (k ∈ processing s)); reflexivity.
Qed.

Lemma omap_cons_match {A B} (f : A → option B) x l :
  omap f (x :: l) = match f x with Some y => y :: omap f l | None => omap f l end.
Proof. reflexivity. Qed.

Lemma getNextJob_fold s l best bp :
  (foldl (getNextJob_step s) (best, bp) l = (best, bp) ∧
   Forall (fun x => priority_of (jobs s) x <= bp) (omap (entry_head s) l)) ∨
  (∃ l1 r l2, omap (entry_head s) l = l1 ++ r :: l2 ∧
     foldl (getNextJob_step s) (best, bp) l = (Some r, priority_of (jobs s) r) ∧
     bp < priority_of (jobs s) r ∧
     Forall (fun x => priority_of (jobs s) x < priority_of (jobs s) r) l1 ∧
     Forall (fun x => priority_of (jobs s) x <= priority_of (jobs s) r) l2).
Proof.
  revert best bp.
  induction l as [|e l IH]; intros best bp.
  - left. split; [reflexivity | constructor].
  - cbn [foldl]. rewrite omap_cons_match, getNextJob_step_head.
    destruct (entry_head s e) as [x|] eqn:Ex; [|apply IH].
    cbn [snd]. destruct (Z.gtb_spec (priority_of (jobs s) x) bp) as [Hgt|Hle].
    + destruct (IH (Some x) (priority_of (jobs s) x))
        as [[Hres Hall]|(l1 & r & l2 & HE & Hres & Hlt & H1 & H2)].
      * right. exists [], x, (omap (entry_head s) l).
        split_and!; [reflexivity|assumption|lia|constructor|assumption].
      * right. exists (x :: l1), r, l2. rewrite HE.
        split_and!; [reflexivity|assumption|lia| |assumption].
        constructor; [lia | assumption].
    + destruct (IH best bp) as [[Hres Hall]|(l1 & r & l2 & HE & Hres & Hlt & H1 & H2)].
      * left. split; [assumption|]. constructor; assumption.
      * right. exists (x :: l1), r, l2. rewrite HE.
        split_and!; [reflexivity|assumption|lia| |assumption].
        constructor; [lia | assumption].
Qed.

Lemma eligible_heads_omap s : eligible_heads s = omap (entry_head s) (queues s).
Proof. reflexivity. Qed.

(** The job [getNextJob] returns is the first of the eligible heads that
    has the greatest priority among them. *)
Lemma getNextJob_Some s r :
  getNextJob s = Some r →
  ∃ l1 l2, eligible_heads s = l1 ++ r :: l2 ∧
    Forall (fun x => priority_of (jobs s) x < priority_of (jobs s) r) l1 ∧
    Forall (fun x => priority_of (jobs s) x <= priority_of (jobs s) r) l2.
Proof.
  unfold getNextJob. intros Hres.
  destruct (getNextJob_fold s (queues s) None (-1))
    as [[Heq _]|(l1 & r' & l2 & HE & Heq & _ & H1 & H2)];
    rewrite Heq in Hres; simpl in Hres; [discriminate|].
  simplify_eq. eauto.
Qed.

Lemma getNextJob_None s : getNextJob s = None ↔ eligible_heads s = [].
Proof.
  unfold getNextJob.
  destruct (getNextJob_fold s (queues s) None (-1))
    as [[Heq Hall]|(l1 & r' & l2 & HE & Heq & _ & H1 & H2)]; rewrite Heq; simpl.
  - split; [intros _|reflexivity]. rewrite eligible_heads_omap.
    destruct (omap (entry_head s) (queues s)) as [|x E]; [reflexivity|].
    apply Forall_cons in Hall as [Hx _].
    pose proof (priority_of_nonneg (jobs s) x). lia.
  - rewrite eligible_heads_omap, HE. split; [discriminate|].
    intros Hnil. by destruct l1.
Qed.

(** An eligible head is the first element of a queue of the map whose type
    is not in [processing]. *)
Lemma elem_of_eligible_heads s r :
  r ∈ eligible_heads s ↔
  ∃ k q, (k, r :: q) ∈ queues s ∧ k ∉ processing s.
Proof.
  unfold eligible_heads. rewrite list_elem_of_omap. split.
  - intros ([k q] & Hin & Hhead). unfold entry_head in Hhead. simpl in Hhead.
    destruct (decide (k ∈ processing s)); [discriminate|].
    destruct q as [|r' q]; simpl in Hhead; [discriminate|]. simplify_eq. eauto.
  - intros (k & q & Hin & Hk). exists (k, r :: q). split; [assumption|].
    unfold entry_head. simpl. destruct (decide (k ∈ processing s)); [contradiction | reflexivity].
Qed.

Lemma getNextJob_head s r :
  getNextJob s = Some r → ∃ k q, (k, r :: q) ∈ queues s ∧ k ∉ processing s.
Proof.
  intros (l1 & l2 & HE & _)%getNextJob_Some.
  apply elem_of_eligible_heads. rewrite HE, elem_of_app, elem_of_cons. auto.
Qed.

(** Projections of an explicit state. *)
Ltac fields :=
  cbn [jobs queues processors processing activeJobs config awaiting timers emitted].

(** *** Well-formedness is kept by every step *)
Lemma not_elem_of_snoc {A} (l : list A) x y : x ∉ l → x ≠ y → x ∉ l ++ [y].
Proof.
  intros Hl Hne [Hin|Hin%list_elem_of_singleton]%elem_of_app; contradiction.
Qed.

Lemma getNextJob_wf s r :
  wf s → getNextJob s = Some r →
  ∃ j q, jobs s !! r = Some j ∧ Map_get (type j) (queues s) = Some (r :: q) ∧
         (status j = PENDING ∨ status j = RETRYING) ∧ type j ∉ processing s.
Proof.
  intros Hwf (k & q & Hin & Hk)%getNextJob_head.
  apply Map_get_elem in Hin; [|apply Hwf].
  destruct (wf_queue s Hwf k _ Hin) as [_ Hq].
  destruct (Hq r) as (_ & _ & j & Hj & <- & Hst); [left|].
  exists j, q. auto.
Qed.

Lemma wf_new c : wf (new c).
Proof.
  split; simpl; try (by constructor); try done.
  all: intros; try (by exfalso; eapply not_elem_of_nil; eauto).

Qed.

Lemma wf_valid_queue s k q r :
  wf s → Map_get k (queues s) = Some q → r ∈ q → (r < length (jobs s))%nat.
Proof.
  intros Hwf Hq Hr. destruct (wf_queue s Hwf k q Hq) as [_ H].
  destruct (H r Hr) as (_ & _ & j & Hj & _). eapply lookup_lt_Some, Hj.
Qed.

Lemma wf_addJob ty d p jobId now s :
  wf s → jobId ∉ id <$> jobs s → wf (addJob ty d p jobId now s).
Proof.
  intros Hwf Hfresh. rewrite addJob_eq. cbn zeta.
  set (job := mkJob jobId ty d p PENDING 0 _ now now None None).
  assert (Hold : ∀ r j, jobs s !! r = Some j → (jobs s ++ [job]) !! r = Some j).
  { intros r j Hj. by apply lookup_app_l_Some. }
  assert (Hq0 : ∀ r, r ∈ default [] (Map_get ty (queues s)) →
                 Map_get ty (queues s) = Some (default [] (Map_get ty (queues s)))).
  { intros r. destruct (Map_get ty (queues s)); simpl; [done|]. inversion 1. }
  split; simpl.
  - apply Map_set_NoDup, Hwf.
  - intros k q. rewrite Map_get_set. case_decide as Hk.
    + intros [= <-]. subst k. unfold sort_queue. split.
      * rewrite Array_sort_Permutation. apply NoDup_app. split_and!.
        -- destruct (Map_get ty (queues s)) as [q0|] eqn:E; simpl; [|constructor].
           apply (wf_queue s Hwf ty q0 E).
        -- intros r Hr ->%list_elem_of_singleton.
           pose proof (wf_valid_queue s ty _ (length (jobs s)) Hwf (Hq0 _ Hr) Hr). lia.
        -- apply NoDup_singleton.
      * intros r. rewrite Array_sort_Permutation, elem_of_app, list_elem_of_singleton.
        intros [Hr| ->].
        -- destruct (wf_queue s Hwf ty _ (Hq0 _ Hr)) as [_ H].
           destruct (H r Hr) as (? & ? & j & Hj & ? & ?). split_and!; eauto.
        -- split_and!.
           ++ intros Hin. destruct (wf_awaiting s Hwf _ Hin) as (_ & j & Hj & _).
              apply lookup_lt_Some in Hj. lia.
           ++ intros Hin. destruct (wf_timers s Hwf _ Hin) as (j & Hj & _).
              apply lookup_lt_Some in Hj. lia.
           ++ exists job. rewrite lookup_app_r, Nat.sub_diag by lia. auto.
    + intros Hq. destruct (wf_queue s Hwf k q Hq) as [Hnd H]. split; [assumption|].
      intros r Hr. destruct (H r Hr) as (? & ? & j & Hj & ? & ?). split_and!; eauto.
  - apply Hwf.
  - intros r Hr. destruct (wf_awaiting s Hwf r Hr) as (? & j & Hj & ? & ?). eauto 10.
  - apply Hwf.
  - intros r Hr. destruct (wf_timers s Hwf r Hr) as (j & Hj & ? & ?). eauto 10.
  - rewrite fmap_app. apply NoDup_app. split_and!; [apply Hwf| |apply NoDup_singleton].
    intros x Hx ->%list_elem_of_singleton. contradiction.
  - intros r j [[_ Hj]|[_ <-]]%lookup_snoc_Some.
    + apply Map_set_is_Some. eapply wf_has_queue; eauto.
    + simpl. rewrite Map_get_set_eq. eauto.
  - intros r j [[_ Hj]|[_ <-]]%lookup_snoc_Some; [|done].
    eapply wf_processor; eauto.
  - intros name r [Hin|[= -> ->]%list_elem_of_singleton]%elem_of_app; [|by left].
    destruct (wf_emitted s Hwf _ _ Hin) as [?|(j & Hj & ?)]; [by left|]. right. eauto.
Qed.

Lemma wf_registerProcessor ty p s : wf s → wf (registerProcessor ty p s).
Proof.
  intros Hwf. destruct Hwf. split; simpl; try assumption.
  intros r j Hj Hst. destruct (decide (ty = type j)) as [->|Hne].
  - rewrite lookup_insert_eq. eauto.
  - rewrite lookup_insert_ne by assumption. eauto.
Qed.

Lemma wf_clearQueues s : wf s → wf (clearQueues s).
Proof.
  intros Hwf. destruct Hwf. split; simpl; try assumption.
  - rewrite <- list_fmap_compose. assumption.
  - intros k q ->%Map_get_cleared. split; [constructor|]. intros r Hr. inversion Hr.
  - intros r j Hj. apply Map_get_cleared_is_Some. eauto.
Qed.

(** The job [r] is dropped from the head of its queue. *)
Lemma wf_drop_head r j q s :
  wf s → jobs s !! r = Some j → Map_get (type j) (queues s) = Some (r :: q) →
  wf (set_queues (Map_set (type j) q) s).
Proof.
  intros Hwf Hj Hq. pose proof Hwf as Hwf'. destruct Hwf'.
  split; simpl; try assumption.
  - by apply Map_set_NoDup.
  - intros k q'. rewrite Map_get_set. case_decide as Hk.
    + subst k. intros [= <-]. destruct (wf_queue0 _ _ Hq) as [Hnd H].
      apply NoDup_cons in Hnd as [_ Hnd]. split; [assumption|].
      intros r' Hr'. apply H. by right.
    + apply wf_queue0.
  - intros r' j' Hj'. apply Map_set_is_Some. eauto.
Qed.

Lemma wf_processJob_begin r j q now s :
  wf s → jobs s !! r = Some j → Map_get (type j) (queues s) = Some (r :: q) →
  is_Some (processors s !! type j) →
  wf (processJob_begin r now s).
Proof.
  intros Hwf Hj Hq Hproc. rewrite (processJob_begin_eq r j q) by assumption.
  pose proof Hwf as Hwf'. destruct Hwf'.
  destruct (wf_queue0 _ _ Hq) as [Hnd Hhead].
  apply NoDup_cons in Hnd as [Hrq Hnd].
  destruct (Hhead r) as (Hra & Hrt & _); [left|].
  assert (Hother : ∀ r' j', r' ≠ r → jobs s !! r' = Some j' →
            <[r := started now j]> (jobs s) !! r' = Some j' ∧
            <[id j := r]> (activeJobs s) !! id j' = activeJobs s !! id j').
  { intros r' j' Hne Hj'. split; [by rewrite list_lookup_insert_ne|].
    apply lookup_insert_ne. intros Hid. apply Hne. symmetry. eapply ids_inj; eauto. }
  assert (Hself : <[r := started now j]> (jobs s) !! r = Some (started now j)).
  { apply list_lookup_insert_eq. eapply lookup_lt_Some, Hj. }
  split; fields.
  - by apply Map_set_NoDup.
  - intros k q'. rewrite Map_get_set. case_decide as Hk.
    + subst k. intros [= <-]. split; [assumption|]. intros r' Hr'.
      assert (r' ≠ r) by (intros ->; contradiction).
      destruct (Hhead r') as (? & ? & j' & Hj' & ? & ?); [by right|].
      destruct (Hother r' j') as [? _]; [done..|].
      split_and!; [by apply not_elem_of_snoc|done|eauto].
    + intros Hq'. destruct (wf_queue0 _ _ Hq') as [Hnd' H]. split; [assumption|].
      intros r' Hr'. destruct (H r' Hr') as (? & ? & j' & Hj' & Hty & ?).
      assert (r' ≠ r) by (intros ->; simplify_eq; contradiction).
      destruct (Hother r' j') as [? _]; [done..|].
      split_and!; [by apply not_elem_of_snoc|done|eauto].
  - apply NoDup_app. split_and!; [assumption| |apply NoDup_singleton].
    intros x Hx ->%list_elem_of_singleton. contradiction.
  - intros r' [Hr'| ->%list_elem_of_singleton]%elem_of_app.
    + assert (r' ≠ r) by (intros ->; contradiction).
      destruct (wf_awaiting0 r' Hr') as (? & j' & Hj' & ? & ?).
      destruct (Hother r' j') as [? Hact]; [done..|].
      split; [assumption|]. exists j'. rewrite Hact. auto.
    + split; [assumption|]. exists (started now j). simpl.
      rewrite lookup_insert_eq. auto.
  - assumption.
  - intros r' Hr'. assert (r' ≠ r) by (intros ->; contradiction).
    destruct (wf_timers0 r' Hr') as (j' & Hj' & ? & ?).
    destruct (Hother r' j') as [? Hact]; [done..|].
    exists j'. rewrite Hact. auto.
  - by rewrite (ids_insert _ _ j).
  - intros r' j'. destruct (decide (r' = r)) as [->|Hne].
    + rewrite Hself. intros [= <-]. simpl. rewrite Map_get_set_eq. eauto.
    + rewrite list_lookup_insert_ne by done. intros Hj'.
      apply Map_set_is_Some. eauto.
  - intros r' j'. destruct (decide (r' = r)) as [->|Hne].
    + rewrite Hself. intros [= <-] _. assumption.
    + rewrite list_lookup_insert_ne by done. eauto.
  - intros name r' Hin.
    assert (Hnow : ∀ r0, (∃ j0, jobs s !! r0 = Some j0 ∧ status j0 ≠ PENDING) ∨ r0 = r →
              ∃ j0, <[r := started now j]> (jobs s) !! r0 = Some j0 ∧ status j0 ≠ PENDING).
    { intros r0 Hr0. destruct (decide (r0 = r)) as [->|Hne].
      - exists (started now j). by rewrite Hself.
      - destruct Hr0 as [(j0 & Hj0 & ?)|?]; [|done].
        exists j0. by rewrite list_lookup_insert_ne. }
    apply elem_of_app in Hin as [Hin|[= -> ->]%list_elem_of_singleton].
    + destruct (wf_emitted0 _ _ Hin) as [?|?]; [by left|]. right. apply Hnow. by left.
    + right. apply Hnow. by right.
Qed.

Lemma wf_processJobs now s : wf s → wf (processJobs now s).
Proof.
  intros Hwf. unfold processJobs.
  destruct (_ >=? _); [assumption|].
  destruct (getNextJob s) as [r|] eqn:Hnext; [|assumption].
  destruct (getNextJob_wf s r Hwf Hnext) as (j & q & Hj & Hq & _).
  rewrite Hj. destruct (processors s !! type j) eqn:Hp.
  - eapply wf_processJob_begin; eauto.
  - rewrite (removeJobFromQueue_head r j q) by assumption.
    by apply (wf_drop_head r).
Qed.

(** A job that settles: it is awaited, so it is in no queue and has no
    timer, and every other tracked job is a different object with a
    different id. *)
Lemma wf_settle_frame r j j1 s :
  wf s → r ∈ awaiting s → jobs s !! r = Some j → id j1 = id j →
  ∀ r' j', r' ≠ r → jobs s !! r' = Some j' →
    <[r := j1]> (jobs s) !! r' = Some j' ∧
    delete (id j) (activeJobs s) !! id j' = activeJobs s !! id j'.
Proof.
  intros Hwf Hr Hj Hid r' j' Hne Hj'. split; [by rewrite list_lookup_insert_ne|].
  apply lookup_delete_ne. intros Heq. apply Hne. symmetry.
  eapply ids_inj; eauto. apply Hwf.
Qed.

Lemma wf_processJob_resolved r now1 now2 s :
  wf s → r ∈ awaiting s → wf (processJob_resolved r now1 now2 s).
Proof.
  intros Hwf Hr. pose proof Hwf as Hwf'. destruct Hwf'.
  destruct (wf_awaiting0 r Hr) as (Hrt & j & Hj & Hst & Hact).
  rewrite (processJob_resolved_eq r j) by assumption.
  assert (Hother : ∀ r' j', r' ≠ r → jobs s !! r' = Some j' →
            <[r := completed now1 now2 j]> (jobs s) !! r' = Some j').
  { intros r' j' Hne Hj'. by rewrite list_lookup_insert_ne. }
  assert (Hself : <[r := completed now1 now2 j]> (jobs s) !! r
                  = Some (completed now1 now2 j)).
  { apply list_lookup_insert_eq. eapply lookup_lt_Some, Hj. }
  split; fields.
  - assumption.
  - intros k q Hq. destruct (wf_queue0 _ _ Hq) as [Hnd H]. split; [assumption|].
    intros r' Hr'. destruct (H r' Hr') as (Hra & ? & j' & Hj' & ? & ?).
    assert (r' ≠ r) by (intros ->; contradiction).
    split_and!; [|done|eauto]. intros Hin. by apply remove_first_subseteq in Hin.
  - by apply remove_first_NoDup.
  - intros r' Hr'. assert (r' ≠ r).
    { intros ->. by apply remove_first_not_elem in Hr'. }
    apply remove_first_subseteq in Hr'.
    destruct (wf_awaiting0 r' Hr') as (? & j' & Hj' & ? & ?). eauto 10.
  - assumption.
  - intros r' Hr'. assert (r' ≠ r) by (intros ->; contradiction).
    destruct (wf_timers0 r' Hr') as (j' & Hj' & ? & ?). eauto 10.
  - by rewrite (ids_insert _ _ j).
  - intros r' j'. destruct (decide (r' = r)) as [->|Hne].
    + rewrite Hself. intros [= <-]. simpl. eauto.
    + rewrite list_lookup_insert_ne by done. eauto.
  - intros r' j'. destruct (decide (r' = r)) as [->|Hne].
    + rewrite Hself. intros [= <-] _. simpl. eapply wf_processor0; eauto. congruence.
    + rewrite list_lookup_insert_ne by done. eauto.
  - intros name r' Hin.
    assert (Hnow : ∀ r0, (∃ j0, jobs s !! r0 = Some j0 ∧ status j0 ≠ PENDING) →
              ∃ j0, <[r := completed now1 now2 j]> (jobs s) !! r0 = Some j0
                    ∧ status j0 ≠ PENDING).
    { intros r0 (j0 & Hj0 & ?). destruct (decide (r0 = r)) as [->|Hne].
      - exists (completed now1 now2 j). by rewrite Hself.
      - exists j0. by rewrite list_lookup_insert_ne. }
    apply elem_of_app in Hin as [Hin|[= -> ->]%list_elem_of_singleton].
    + destruct (wf_emitted0 _ _ Hin) as [?|?]; [by left|]. right. by apply Hnow.
    + right. apply Hnow. exists j. split; [done|congruence].
Qed.

Lemma failed_with_status e now j :
  status (failed_with e now j) = if attempts j <? maxAttempts j then RETRYING else FAILED.
Proof. reflexivity. Qed.

Lemma wf_processJob_rejected r e now s :
  wf s → r ∈ awaiting s → wf (processJob_rejected r e now s).
Proof.
  intros Hwf Hr. pose proof Hwf as Hwf'. destruct Hwf'.
  destruct (wf_awaiting0 r Hr) as (Hrt & j & Hj & Hst & Hact).
  rewrite (processJob_rejected_eq r j) by assumption.
  pose proof (wf_settle_frame r j (failed_with e now j) s Hwf Hr Hj eq_refl) as Hother.
  assert (Hself : <[r := failed_with e now j]> (jobs s) !! r
                  = Some (failed_with e now j)).
  { apply list_lookup_insert_eq. eapply lookup_lt_Some, Hj. }
  assert (Hact' : ∀ r' j', r' ≠ r → jobs s !! r' = Some j' →
            (if attempts j <? maxAttempts j then activeJobs s
             else delete (id j) (activeJobs s)) !! id j' = activeJobs s !! id j').
  { intros r' j' Hne Hj'. destruct (_ <? _); [done|]. by apply (Hother r' j'). }
  assert (Htim : ∀ r', r' ≠ r → r' ∉ (timers s).*1 →
            r' ∉ (if attempts j <? maxAttempts j
                  then timers s ++ [(r, Required.retryDelay (config s) * attempts j)]
                  else timers s).*1).
  { intros r' Hne Hr'. destruct (_ <? _); [|done].
    rewrite fmap_app. by apply not_elem_of_snoc. }
  split; fields.
  - assumption.
  - intros k q Hq. destruct (wf_queue0 _ _ Hq) as [Hnd H]. split; [assumption|].
    intros r' Hr'. destruct (H r' Hr') as (Hra & ? & j' & Hj' & ? & ?).
    assert (r' ≠ r) by (intros ->; contradiction).
    destruct (Hother r' j') as [? _]; [done..|].
    split_and!; [|by apply Htim|eauto]. intros Hin. by apply remove_first_subseteq in Hin.
  - by apply remove_first_NoDup.
  - intros r' Hr'. assert (r' ≠ r).
    { intros ->. by apply remove_first_not_elem in Hr'. }
    apply remove_first_subseteq in Hr'.
    destruct (wf_awaiting0 r' Hr') as (? & j' & Hj' & ? & ?).
    destruct (Hother r' j') as [? _]; [done..|].
    split; [by apply Htim|]. exists j'. rewrite (Hact' r') by done. auto.
  - destruct (_ <? _); [|assumption]. rewrite fmap_app. apply NoDup_app.
    split_and!; [assumption| |apply NoDup_singleton].
    intros x Hx ->%list_elem_of_singleton. contradiction.
  - intros r' Hr'. destruct (decide (r' = r)) as [->|Hne].
    + exists (failed_with e now j). rewrite Hself, failed_with_status.
      destruct (attempts j <? maxAttempts j); [auto|]. contradiction.
    + assert (r' ∈ (timers s).*1) as Hin.
      { destruct (_ <? _); [|done]. rewrite fmap_app in Hr'.
        apply elem_of_app in Hr' as [?|?%list_elem_of_singleton]; [done|]. by simplify_eq. }
      destruct (wf_timers0 r' Hin) as (j' & Hj' & ? & ?).
      destruct (Hother r' j') as [? _]; [done..|].
      exists j'. rewrite (Hact' r') by done. auto.
  - by rewrite (ids_insert _ _ j).
  - intros r' j'. destruct (decide (r' = r)) as [->|Hne].
    + rewrite Hself. intros [= <-]. simpl. eauto.
    + rewrite list_lookup_insert_ne by done. eauto.
  - intros r' j'. destruct (decide (r' = r)) as [->|Hne].
    + rewrite Hself. intros [= <-] _. simpl. eapply wf_processor0; eauto. congruence.
    + rewrite list_lookup_insert_ne by done. eauto.
  - intros name r' Hin.
    assert (Hnow : ∀ r0, (∃ j0, jobs s !! r0 = Some j0 ∧ status j0 ≠ PENDING) →
              ∃ j0, <[r := failed_with e now j]> (jobs s) !! r0 = Some j0
                    ∧ status j0 ≠ PENDING).
    { intros r0 (j0 & Hj0 & ?). destruct (decide (r0 = r)) as [->|Hne].
      - exists (failed_with e now j). rewrite Hself, failed_with_status.
        split; [done|]. by destruct (_ <? _).
      - exists j0. by rewrite list_lookup_insert_ne. }
    apply elem_of_app in Hin as [Hin|[= -> ->]%list_elem_of_singleton].
    + destruct (wf_emitted0 _ _ Hin) as [?|?]; [by left|]. right. by apply Hnow.
    + right. apply Hnow. exists j. split; [done|congruence].
Qed.

Lemma wf_retry_callback r s :
  wf s → r ∈ (timers s).*1 → wf (retry_callback r s).
Proof.
  intros Hwf Hr. pose proof Hwf as Hwf'. destruct Hwf'.
  destruct (wf_timers0 r Hr) as (j & Hj & Hst & Hact).
  destruct (wf_has_queue0 r j Hj) as [q Hq].
  rewrite (retry_callback_eq r j q) by assumption.
  assert (Hra : r ∉ awaiting s).
  { intros Hin. by destruct (wf_awaiting0 r Hin) as [? _]. }
  assert (Hact' : ∀ r' j', r' ≠ r → jobs s !! r' = Some j' →
            delete (id j) (activeJobs s) !! id j' = activeJobs s !! id j').
  { intros r' j' Hne Hj'. apply lookup_delete_ne. intros Heq. apply Hne. symmetry.
    eapply ids_inj; eauto. }
  destruct (wf_queue0 _ _ Hq) as [Hnd Hmem].
  assert (Hrq : r ∉ q).
  { intros Hin. by destruct (Hmem r Hin) as (_ & ? & _). }
  split; fields.
  - by apply Map_set_NoDup.
  - intros k q'. rewrite Map_get_set. case_decide as Hk.
    + subst k. intros [= <-]. unfold sort_queue. split.
      * rewrite Array_sort_Permutation. apply NoDup_app.
        split_and!; [assumption| |apply NoDup_singleton].
        intros x Hx ->%list_elem_of_singleton. contradiction.
      * intros r'. rewrite Array_sort_Permutation.
        intros [Hr'| ->%list_elem_of_singleton]%elem_of_app.
        -- destruct (Hmem r' Hr') as (? & ? & j' & Hj' & ? & ?).
           split_and!; [done| |eauto]. intros Hin. by apply remove_timer_subseteq in Hin.
        -- split_and!; [done|by apply remove_timer_not_elem|eauto 10].
    + intros Hq'. destruct (wf_queue0 _ _ Hq') as [Hnd' H]. split; [assumption|].
      intros r' Hr'. destruct (H r' Hr') as (? & ? & j' & Hj' & ? & ?).
      split_and!; [done| |eauto]. intros Hin. by apply remove_timer_subseteq in Hin.
  - assumption.
  - intros r' Hr'. assert (r' ≠ r) by (intros ->; contradiction).
    destruct (wf_awaiting0 r' Hr') as (? & j' & Hj' & ? & ?).
    split; [intros Hin; by apply remove_timer_subseteq in Hin|].
    exists j'. rewrite (Hact' r') by done. auto.
  - by apply remove_timer_NoDup.
  - intros r' Hr'. assert (r' ≠ r).
    { intros ->. by apply remove_timer_not_elem in Hr'. }
    apply remove_timer_subseteq in Hr'.
    destruct (wf_timers0 r' Hr') as (j' & Hj' & ? & ?).
    exists j'. rewrite (Hact' r') by done. auto.
  - assumption.
  - intros r' j' Hj'. apply Map_set_is_Some. eauto.
  - assumption.
  - assumption.
Qed.

Theorem wf_step s ev : wf s → enabled s ev → wf (step s ev).
Proof.
  intros Hwf Hen. destruct ev; simpl in *.
  - by apply wf_addJob.
  - by apply wf_registerProcessor.
  - by apply wf_processJobs.
  - by apply wf_processJob_resolved.
  - by apply wf_processJob_rejected.
  - by apply wf_retry_callback.
  - by apply wf_clearQueues.
Qed.

Theorem wf_reachable c s : reachable c s → wf s.
Proof. induction 1; [apply wf_new | by apply wf_step]. Qed.

Lemma reachable_run c s evs :
  reachable c s → all_enabled s evs → reachable c (run s evs).
Proof.
  revert s. induction evs as [|ev evs IH]; intros s Hs Hen; [assumption|].
  destruct Hen as [Hev Hen]. apply IH; [|assumption]. by constructor.
Qed.



(** *** What one step does to one job *)
Lemma jobs_retry_callback r s : jobs (retry_callback r s) = jobs s.
Proof.
  unfold retry_callback, push_sorted.
  destruct (jobs s !! r) as [j|]; [|reflexivity].
  destruct (Map_get (type j) (queues s)); reflexivity.
Qed.

Lemma config_removeJobFromQueue r s : config (removeJobFromQueue r s) = config s.
Proof.
  unfold removeJobFromQueue. destruct (jobs s !! r) as [j|]; [|reflexivity].
  destruct (Map_get _ _); [|reflexivity]. by destruct (findIndex _ _).
Qed.

Lemma config_step s ev : config (step s ev) = config s.
Proof.
  destruct ev; cbn [step]; try reflexivity.
  - by rewrite addJob_eq.
  - unfold processJobs. destruct (_ >=? _); [reflexivity|].
    destruct (getNextJob s) as [r|]; [|reflexivity].
    destruct (jobs s !! r) as [j|] eqn:Hj; [|reflexivity].
    destruct (processors s !! type j).
    + unfold processJob_begin. rewrite Hj.
      cbn [config set_awaiting emit update_job set_jobs set_activeJobs].
      by rewrite config_removeJobFromQueue.
    + apply config_removeJobFromQueue.
  - unfold processJob_resolved. by destruct (jobs s !! r).
  - unfold processJob_rejected. destruct (jobs s !! r) as [j|]; [|reflexivity].
    by destruct (_ <? _).
  - unfold retry_callback, push_sorted. destruct (jobs s !! r) as [j|]; [|reflexivity].
    by destruct (Map_get _ _).
Qed.

Lemma config_reachable c s : reachable c s → config s = mkConfig c.
Proof. induction 1; [reflexivity|]. by rewrite config_step. Qed.

(** The life cycle of a job object, one step at a time.  A step leaves an
    existing job as it is, except:
    - a tick may start it, if it is pending or waits for its retry;
    - the settling of its own processor completes it or makes it fail. *)
Lemma step_job s ev r j :
  wf s → enabled s ev → jobs s !! r = Some j →
  ∃ j', jobs (step s ev) !! r = Some j' ∧
    match ev with
    | Tick now =>
        j' = j ∨ (getNextJob s = Some r ∧ is_Some (processors s !! type j) ∧
                  (status j = PENDING ∨ status j = RETRYING) ∧ j' = started now j)
    | Resolve r' now1 now2 =>
        if decide (r' = r) then status j = PROCESSING ∧ j' = completed now1 now2 j
        else j' = j
    | Reject r' e now =>
        if decide (r' = r) then status j = PROCESSING ∧ j' = failed_with e now j
        else j' = j
    | _ => j' = j
    end.
Proof.
  intros Hwf Hen Hj.
  assert (Hlt : (r < length (jobs s))%nat) by (eapply lookup_lt_Some; eauto).
  destruct ev as [ty d p jobId now|ty p|now|r' now1 now2|r' e now|r'|];
    cbn [step enabled] in *.
  - rewrite addJob_eq. fields. exists j. split; [by apply lookup_app_l_Some | done].
  - eauto.
  - unfold processJobs. destruct (_ >=? _); [eauto|].
    destruct (getNextJob s) as [r0|] eqn:Hnext; [|eauto].
    destruct (getNextJob_wf s r0 Hwf Hnext) as (j0 & q & Hj0 & Hq & Hst & _).
    rewrite Hj0. destruct (processors s !! type j0) eqn:Hp.
    + rewrite (processJob_begin_eq r0 j0 q) by assumption. fields.
      destruct (decide (r0 = r)) as [->|Hne].
      * simplify_eq. rewrite list_lookup_insert_eq by assumption.
        exists (started now j). split; [done|]. right. rewrite Hp. eauto.
      * rewrite list_lookup_insert_ne by assumption. eauto.
    + rewrite (removeJobFromQueue_head r0 j0 q) by assumption. eauto.
  - destruct (wf_awaiting s Hwf r' Hen) as (_ & j0 & Hj0 & Hst & _).
    rewrite (processJob_resolved_eq r' j0) by assumption. fields.
    destruct (decide (r' = r)) as [->|Hne].
    + simplify_eq. rewrite list_lookup_insert_eq by assumption. eauto.
    + rewrite list_lookup_insert_ne by assumption. eauto.
  - destruct (wf_awaiting s Hwf r' Hen) as (_ & j0 & Hj0 & Hst & _).
    rewrite (processJob_rejected_eq r' j0) by assumption. fields.
    destruct (decide (r' = r)) as [->|Hne].
    + simplify_eq. rewrite list_lookup_insert_eq by assumption. eauto.
    + rewrite list_lookup_insert_ne by assumption. eauto.
  - rewrite jobs_retry_callback. eauto.
  - eauto.
Qed.


(** The fields of a job that no step assigns. *)
Lemma step_job_immutable s ev r j :
  wf s → enabled s ev → jobs s !! r = Some j →
  ∃ j', jobs (step s ev) !! r = Some j' ∧
    id j' = id j ∧ type j' = type j ∧ data j' = data j ∧ priority j' = priority j ∧
    maxAttempts j' = maxAttempts j ∧ createdAt j' = createdAt j.
Proof.
  intros Hwf Hen Hj. destruct (step_job s ev r j Hwf Hen Hj) as (j' & Hj' & Hcase).
  exists j'. split; [assumption|].
  destruct ev; try (subst j'; done).
  - destruct Hcase as [->|(_ & _ & _ & ->)]; done.
  - case_decide; [destruct Hcase as [_ ->]|subst j']; done.
  - case_decide; [destruct Hcase as [_ ->]|subst j']; done.
Qed.













(** *** A job the scheduler holds no reference to is never touched again *)
Lemma untracked_Map_get r s :
  wf s →
  untracked r s ↔
  (∀ k q, Map_get k (queues s) = Some q → r ∉ q) ∧ (r ∉ awaiting s) ∧ (r ∉ (timers s).*1).
Proof.
  intros Hwf. unfold untracked. split; intros (Hq & Ha & Ht); split_and!; try done.
  - intros k q Hkq. apply (Hq (k, q)). by apply Map_get_Some_elem.
  - intros [k q] Hin. apply (Hq k q). apply Map_get_elem; [apply Hwf|done].
Qed.

Lemma step_untracked s ev r j :
  wf s → enabled s ev → jobs s !! r = Some j → untracked r s →
  untracked r (step s ev) ∧ jobs (step s ev) !! r = Some j ∧
  (∀ name, (name, r) ∈ emitted (step s ev) → (name, r) ∈ emitted s).
Proof.
  intros Hwf Hen Hj Hun.
  pose proof (wf_step s ev Hwf Hen) as Hwf'.
  rewrite untracked_Map_get by assumption.
  apply untracked_Map_get in Hun as (Hq & Ha & Ht); [|assumption].
  assert (Hlt : (r < length (jobs s))%nat) by (eapply lookup_lt_Some; eauto).
  clear Hwf'.
  destruct ev as [ty d p jobId now|ty p|now|r' now1 now2|r' e now|r'|];
    cbn [step enabled] in *.
  - rewrite addJob_eq. fields. split_and!; try done.
    + intros k q'. rewrite Map_get_set. case_decide as Hk; [|by apply Hq].
      intros [= <-]. unfold sort_queue. rewrite Array_sort_Permutation.
      apply not_elem_of_snoc; [|lia].
      destruct (Map_get ty (queues s)) as [q0|] eqn:E; simpl; [by eapply Hq|].
      apply not_elem_of_nil.
    + by apply lookup_app_l_Some.
    + intros name [Hin|[= _ ->]%list_elem_of_singleton]%elem_of_app; [done|lia].
  - done.
  - unfold processJobs. destruct (_ >=? _); [done|].
    destruct (getNextJob s) as [r0|] eqn:Hnext; [|done].
    destruct (getNextJob_wf s r0 Hwf Hnext) as (j0 & q & Hj0 & Hq0 & Hst & _).
    assert (r0 ≠ r).
    { intros ->. apply (Hq _ _ Hq0). by left. }
    rewrite Hj0. destruct (processors s !! type j0) eqn:Hp.
    + rewrite (processJob_begin_eq r0 j0 q) by assumption. fields.
      split_and!.
      * intros k q'. rewrite Map_get_set. case_decide as Hk; [|by apply Hq].
        intros [= <-] Hin. apply (Hq _ _ Hq0). by right.
      * by apply not_elem_of_snoc.
      * done.
      * by rewrite list_lookup_insert_ne.
      * intros name [Hin|[= _ ->]%list_elem_of_singleton]%elem_of_app; done.
    + rewrite (removeJobFromQueue_head r0 j0 q) by assumption.
      unfold set_queues. fields. split_and!; try done.
      intros k q'. rewrite Map_get_set. case_decide as Hk; [|by apply Hq].
      intros [= <-] Hin. apply (Hq _ _ Hq0). by right.
  - destruct (wf_awaiting s Hwf r' Hen) as (_ & j0 & Hj0 & Hst & _).
    assert (r' ≠ r) by (intros ->; contradiction).
    rewrite (processJob_resolved_eq r' j0) by assumption. fields.
    split_and!; try done.
    + intros Hin. by apply remove_first_subseteq in Hin.
    + by rewrite list_lookup_insert_ne.
    + intros name [Hin|[= _ ->]%list_elem_of_singleton]%elem_of_app; done.
  - destruct (wf_awaiting s Hwf r' Hen) as (_ & j0 & Hj0 & Hst & _).
    assert (r' ≠ r) by (intros ->; contradiction).
    rewrite (processJob_rejected_eq r' j0) by assumption. fields.
    split_and!; try done.
    + intros Hin. by apply remove_first_subseteq in Hin.
    + destruct (_ <? _); [|done]. rewrite fmap_app. by apply not_elem_of_snoc.
    + by rewrite list_lookup_insert_ne.
    + intros name [Hin|[= _ ->]%list_elem_of_singleton]%elem_of_app; done.
  - destruct (wf_timers s Hwf r' Hen) as (j0 & Hj0 & _).
    assert (r' ≠ r) by (intros ->; contradiction).
    destruct (wf_has_queue s Hwf r' j0 Hj0) as [q Hq0].
    rewrite (retry_callback_eq r' j0 q) by assumption. fields.
    split_and!; try done.
    + intros k q'. rewrite Map_get_set. case_decide as Hk; [|by apply Hq].
      intros [= <-]. unfold sort_queue. rewrite Array_sort_Permutation.
      apply not_elem_of_snoc; [by eapply Hq|done].
    + intros Hin. by apply remove_timer_subseteq in Hin.
  - unfold clearQueues, set_queues. fields. split_and!; try done.
    intros k q' ->%Map_get_cleared. apply not_elem_of_nil.
Qed.

Lemma run_untracked s evs r j :
  wf s → all_enabled s evs → jobs s !! r = Some j → untracked r s →
  untracked r (run s evs) ∧ jobs (run s evs) !! r = Some j ∧
  (∀ name, (name, r) ∈ emitted (run s evs) → (name, r) ∈ emitted s).
Proof.
  revert s. induction evs as [|ev evs IH]; intros s Hwf Hen Hj Hun; [done|].
  destruct Hen as [Hev Hen].
  destruct (step_untracked s ev r j Hwf Hev Hj Hun) as (Hun' & Hj' & Hem).
  destruct (IH (step s ev)) as (? & ? & ?); [by apply wf_step|done..|].
  split_and!; [done..|]. intros name Hin. auto.
Qed.






End QueueFacts.

(** ** The claims about the scheduler *)
Module QueueClaims.
Import QueueService QueueFacts.

(** Concrete histories are checked by evaluation. *)
Lemma reachable_history c evs :
  bool_decide (all_enabled (new c) evs) = true → reachable c (run (new c) evs).
Proof.
  intros H. apply reachable_run; [constructor|]. by apply bool_decide_eq_true in H.
Qed.

(** C1: on processor success the job becomes COMPLETED, [processedAt] is
    stamped and the in-flight mark of its type is released, but the job is
    not removed from the active set: the success path leaves [activeJobs]
    as it is.  With [maxConcurrent = 1], after the only dispatched job has
    completed, the active set still holds it and the next tick dispatches
    nothing although a job of another type is pending. *)
Theorem C1_completed_job_stays_active :
  (∀ s r now1 now2, activeJobs (processJob_resolved r now1 now2 s) = activeJobs s) ∧
  let s := run (new one_slot) one_completed in
  (status <$> jobs s !! 0%nat) = Some COMPLETED ∧
  (processedAt <$> jobs s !! 0%nat) = Some (Some 150) ∧
  processing s = ∅ ∧
  activeJobs s !! "job_1" = Some 0%nat ∧
  queues s = [("email", []); ("sms", [1%nat])] ∧
  processJobs 200 s = s.
Proof.
  split.
  - intros s r now1 now2. unfold processJob_resolved.
    by destruct (jobs s !! r).
  - vm_compute. split_and!; reflexivity.
Qed.

(** C9: a configuration field set to [0] is overridden by its default (5,
    3, 1000 and 100), whatever the other fields are, so no field of the
    configuration of a constructed scheduler is ever zero. *)
Theorem C9_zero_config_takes_defaults (c : QueueConfig) :
  Required.maxConcurrent (config (new
    (mkQueueConfig (Some 0) (retryAttempts c) (retryDelay c) (processInterval c)))) = 5 ∧
  Required.retryAttempts (config (new
    (mkQueueConfig (maxConcurrent c) (Some 0) (retryDelay c) (processInterval c)))) = 3 ∧
  Required.retryDelay (config (new
    (mkQueueConfig (maxConcurrent c) (retryAttempts c) (Some 0) (processInterval c)))) = 1000 ∧
  Required.processInterval (config (new
    (mkQueueConfig (maxConcurrent c) (retryAttempts c) (retryDelay c) (Some 0)))) = 100 ∧
  Required.maxConcurrent (config (new c)) ≠ 0 ∧
  Required.retryAttempts (config (new c)) ≠ 0 ∧
  Required.retryDelay (config (new c)) ≠ 0 ∧
  Required.processInterval (config (new c)) ≠ 0.
Proof.
  assert (Hnz : ∀ a d, d ≠ 0 → or_default a d ≠ 0).
  { intros [v|] d Hd; simpl; [|done]. by destruct (Z.eqb_spec v 0). }
  split_and!; try reflexivity; simpl; by apply Hnz.
Qed.

(** C8: [clearQueues()] empties the queue of every type, keeps the types,
    and changes nothing else: the job objects, the active set, the in-flight
    marks, the processors, the suspended [processJob] calls and the backoff
    timers are as before. *)
Theorem C8_clearQueues_frame (s : State) :
  Forall (fun e : string * list nat => e.2 = []) (queues (clearQueues s)) ∧
  (queues (clearQueues s)).*1 = (queues s).*1 ∧
  jobs (clearQueues s) = jobs s ∧
  activeJobs (clearQueues s) = activeJobs s ∧
  processing (clearQueues s) = processing s ∧
  processors (clearQueues s) = processors s ∧
  config (clearQueues s) = config s ∧
  awaiting (clearQueues s) = awaiting s ∧
  timers (clearQueues s) = timers s ∧
  emitted (clearQueues s) = emitted s.
Proof.
  split_and!; try reflexivity; simpl.
  - apply Forall_fmap, Forall_true. done.
  - by rewrite <- list_fmap_compose.
Qed.

(** C5: a tick of the dispatch loop.  When the active set has at least
    [maxConcurrent] entries the tick changes nothing.  A tick starts at most
    one job, and only the job [getNextJob] returns; below the limit, and with
    a processor registered for its type, it does start that job.
    [getNextJob] returns nothing exactly when there is no eligible head (the
    first job of a non-empty queue whose type is not in-flight, in map
    order), and otherwise the eligible head of greatest priority, the first
    one among those of equal priority. *)
Theorem C5_tick_selects_first_highest_head (s : State) (now : Z) :
  (Required.maxConcurrent (config s) <= Z.of_nat (size (activeJobs s)) →
   processJobs now s = s) ∧
  (awaiting (processJobs now s) = awaiting s ∨
   ∃ r, getNextJob s = Some r ∧ awaiting (processJobs now s) = awaiting s ++ [r]) ∧
  (∀ r j, Z.of_nat (size (activeJobs s)) < Required.maxConcurrent (config s) →
     getNextJob s = Some r → jobs s !! r = Some j →
     is_Some (processors s !! type j) →
     processJobs now s = processJob_begin r now s) ∧
  (getNextJob s = None ↔ eligible_heads s = []) ∧
  (∀ r, getNextJob s = Some r →
     ∃ l1 l2, eligible_heads s = l1 ++ r :: l2 ∧
       Forall (fun x => priority_of (jobs s) x < priority_of (jobs s) r) l1 ∧
       Forall (fun x => priority_of (jobs s) x <= priority_of (jobs s) r) l2).
Proof.
  split_and!.
  - intros Hfull. unfold processJobs.
    destruct (Z.geb_spec (Z.of_nat (size (activeJobs s)))
                (Required.maxConcurrent (config s))); [reflexivity | lia].
  - unfold processJobs. destruct (_ >=? _); [by left|].
    destruct (getNextJob s) as [r|] eqn:Hnext; [|by left].
    destruct (jobs s !! r) as [j|] eqn:Hj; [|by left].
    destruct (processors s !! type j).
    + right. exists r. split; [reflexivity|].
      unfold processJob_begin. rewrite Hj.
      cbn [awaiting set_awaiting emit update_job set_jobs set_activeJobs].
      f_equal. unfold removeJobFromQueue. cbn [jobs set_processing queues].
      rewrite Hj. destruct (Map_get _ _); [|reflexivity]. by destruct (findIndex _ _).
    + left. unfold removeJobFromQueue. rewrite Hj.
      destruct (Map_get _ _); [|reflexivity]. by destruct (findIndex _ _).
  - intros r j Hfree Hnext Hj [p Hp]. unfold processJobs.
    destruct (Z.geb_spec (Z.of_nat (size (activeJobs s)))
                (Required.maxConcurrent (config s))); [lia|].
    by rewrite Hnext, Hj, Hp.
  - apply getNextJob_None.
  - apply getNextJob_Some.
Qed.

(** A full scheduler and a scheduler with two eligible heads. *)
Lemma C5_witness :
  let full := run (new one_slot) one_completed in
  let s := run (new default_config)
             [RegisterProcessor "email" 0%nat; RegisterProcessor "sms" 1%nat;
              AddJob "email" "d1" NORMAL "job_1" 10;
              AddJob "sms" "d2" HIGH "job_2" 11] in
  processJobs 200 full = full ∧
  processJobs 200 s = processJob_begin 1%nat 200 s.
Proof.
  intros full s. split.
  - apply (C5_tick_selects_first_highest_head full 200). vm_compute. discriminate.
  - eapply (C5_tick_selects_first_highest_head s 200).
    + vm_compute. reflexivity.
    + vm_compute. reflexivity.
    + vm_compute. reflexivity.
    + vm_compute. eauto.
Defined.



(** C6: when the job selected by a tick has no registered processor, the
    tick takes it out of its queue and does nothing else: no job object is
    assigned to, nothing is added to the active set, no timer is set and no
    event is emitted.  The job was pending (it was never started), and from
    then on the scheduler holds no reference to it: whatever happens later,
    it keeps its fields, and the only event ever emitted for it is
    ['job:added']. *)
Theorem C6_missing_processor_drops_job c s now r j evs :
  reachable c s →
  Z.of_nat (size (activeJobs s)) < Required.maxConcurrent (config s) →
  getNextJob s = Some r → jobs s !! r = Some j →
  processors s !! type j = None →
  all_enabled (processJobs now s) evs →
  status j = PENDING ∧
  jobs (processJobs now s) = jobs s ∧
  activeJobs (processJobs now s) = activeJobs s ∧
  awaiting (processJobs now s) = awaiting s ∧
  timers (processJobs now s) = timers s ∧
  emitted (processJobs now s) = emitted s ∧
  untracked r (processJobs now s) ∧
  untracked r (run (processJobs now s) evs) ∧
  jobs (run (processJobs now s) evs) !! r = Some j ∧
  (∀ name, (name, r) ∈ emitted (run (processJobs now s) evs) → name = "job:added").
Proof.
  intros Hs Hfree Hnext Hj Hproc Hen.
  pose proof (wf_reachable c s Hs) as Hwf.
  pose proof (wf_processJobs now s Hwf) as Hwf1.
  destruct (getNextJob_wf s r Hwf Hnext) as (j0 & q & Hj0 & Hq & _).
  simplify_eq.
  assert (Hst : status j = PENDING).
  { destruct (decide (status j = PENDING)) as [|Hne]; [done|].
    destruct (wf_processor s Hwf r j Hj Hne) as [p Hp]. congruence. }
  assert (Htick : processJobs now s = set_queues (Map_set (type j) q) s).
  { unfold processJobs.
    destruct (Z.geb_spec (Z.of_nat (size (activeJobs s)))
                (Required.maxConcurrent (config s))); [lia|].
    rewrite Hnext, Hj, Hproc. by apply removeJobFromQueue_head. }
  destruct (wf_queue s Hwf _ _ Hq) as [Hnd Hmem].
  apply NoDup_cons in Hnd as [Hrq _].
  destruct (Hmem r) as (Hra & Hrt & _); [by left|].
  assert (Hun : untracked r (processJobs now s)).
  { apply untracked_Map_get; [done|]. rewrite Htick. unfold set_queues. fields.
    split_and!; [|done..].
    intros k q'. rewrite Map_get_set. case_decide as Hk; [by intros [= <-]|].
    intros Hq' Hin. destruct (wf_queue s Hwf _ _ Hq') as [_ Hmem'].
    destruct (Hmem' r Hin) as (_ & _ & j' & Hj' & Hty & _). congruence. }
  assert (Hj1 : jobs (processJobs now s) !! r = Some j) by (by rewrite Htick).
  destruct (run_untracked (processJobs now s) evs r j Hwf1 Hen Hj1 Hun)
    as (Hun2 & Hj2 & Hem).
  split_and!; try done; try (by rewrite Htick).
  intros name Hin%Hem. rewrite Htick in Hin. unfold set_queues in Hin.
  cbn [emitted] in Hin.
  destruct (wf_emitted s Hwf _ _ Hin) as [?|(j' & Hj' & Hne)]; [done|]. congruence.
Qed.

(** A pending job of a type nobody registered a processor for; after the
    tick that drops it, a processor is registered and more ticks follow. *)
Lemma C6_witness :
  let s := run (new default_config)
             [AddJob "unregistered_type" "d" NORMAL "job_1" 10] in
  let later := run (processJobs 100 s)
                 [RegisterProcessor "unregistered_type" 0%nat; Tick 200; Tick 300] in
  queues (processJobs 100 s) = [("unregistered_type", [])] ∧
  (status <$> jobs later !! 0%nat) = Some PENDING ∧
  (∀ name, (name, 0%nat) ∈ emitted later → name = "job:added").
Proof.
  intros s later.
  unshelve epose proof (C6_missing_processor_drops_job default_config s 100 0%nat
    (mkJob "job_1" "unregistered_type" "d" NORMAL PENDING 0 3 10 10 None None)
    [RegisterProcessor "unregistered_type" 0%nat; Tick 200; Tick 300] _ _ _ _ _ _) as H.
  - apply reachable_history. vm_compute. reflexivity.
  - vm_compute. reflexivity.
  - vm_compute. reflexivity.
  - vm_compute. reflexivity.
  - vm_compute. reflexivity.
  - vm_compute. tauto.
  - destruct H as (_ & _ & _ & _ & _ & _ & _ & _ & Hj & Hem).
    split_and!; [vm_compute; reflexivity| |exact Hem].
    fold s later in Hj. by rewrite Hj.
Defined.

(** C2, as stated, fails: while job 0 of type [email] is in its backoff
    window, [email] is not marked in-flight and a tick dispatches job 1 of
    the same type. *)
Lemma C2_counterexample : ¬ backoff_blocks_type.
Proof.
  intros H.
  destruct (H default_config in_backoff 0%nat
              (mkJob "job_1" "email" "d1" NORMAL RETRYING 1 3 10 101 None (Some "boom")))
    as (_ & _ & Hno).
  - apply reachable_history. vm_compute. reflexivity.
  - vm_compute. by left.
  - vm_compute. reflexivity.
  - apply (Hno 200 1%nat
             (mkJob "job_2" "email" "d2" NORMAL PENDING 0 3 11 11 None None)).
    + vm_compute. by left.
    + vm_compute. inversion 1.
    + vm_compute. reflexivity.
    + reflexivity.
Qed.

(** C2, amended: when a job of type T fails with
    [attempts < maxAttempts], the failure handler makes it RETRYING, sets
    its backoff timer, keeps it in the active set and releases the in-flight
    mark of T at once.  For as long as the timer is pending the job is
    RETRYING, is in the active set and is in no queue.  When the timer fires
    the job is put back into the queue of T and leaves the active set.
    Other jobs of T can be dispatched during the window: with job 0 of type
    [email] in backoff, [email] is not marked and the next tick starts job 1
    of type [email]. *)
Theorem C2_backoff_keeps_job_active_releases_type :
  (∀ c s r j,
     reachable c s → jobs s !! r = Some j →
     (r ∈ awaiting s → attempts j < maxAttempts j → ∀ e now,
        let s' := processJob_rejected r e now s in
        (status <$> jobs s' !! r) = Some RETRYING ∧
        r ∈ (timers s').*1 ∧
        activeJobs s' !! id j = Some r ∧
        type j ∉ processing s') ∧
     (r ∈ (timers s).*1 →
        status j = RETRYING ∧
        activeJobs s !! id j = Some r ∧
        (∀ k q, Map_get k (queues s) = Some q → r ∉ q) ∧
        let s' := retry_callback r s in
        (∃ q, Map_get (type j) (queues s') = Some q ∧ r ∈ q) ∧
        activeJobs s' !! id j = None ∧
        r ∉ (timers s').*1)) ∧
  ((timers in_backoff).*1 = [0%nat] ∧
   processing in_backoff = ∅ ∧
   awaiting in_backoff = [] ∧
   awaiting (processJobs 200 in_backoff) = [1%nat] ∧
   (type <$> jobs in_backoff !! 1%nat) = (type <$> jobs in_backoff !! 0%nat)).
Proof.
  split; [|vm_compute; split_and!; reflexivity].
  intros c s r j Hs Hj. pose proof (wf_reachable c s Hs) as Hwf. split.
  - intros Hr Hlt e now s'. subst s'.
    destruct (wf_awaiting s Hwf r Hr) as (_ & j0 & Hj0 & _ & Hact). simplify_eq.
    rewrite (processJob_rejected_eq r j) by assumption. fields.
    apply Z.ltb_lt in Hlt. rewrite Hlt.
    rewrite list_lookup_insert_eq by (eapply lookup_lt_Some; eauto).
    split_and!.
    + simpl. by rewrite Hlt.
    + rewrite fmap_app, elem_of_app. right. simpl. by left.
    + done.
    + apply not_elem_of_difference. right. by apply elem_of_singleton.
  - intros Hr.
    destruct (wf_timers s Hwf r Hr) as (j0 & Hj0 & Hst & Hact). simplify_eq.
    destruct (wf_has_queue s Hwf r j Hj) as [q Hq].
    split_and!; [done..| |].
    + intros k q' Hq' Hin. destruct (wf_queue s Hwf k q' Hq') as [_ Hmem].
      by destruct (Hmem r Hin) as (_ & ? & _).
    + rewrite (retry_callback_eq r j q) by assumption. fields. split_and!.
      * eexists. rewrite Map_get_set_eq. split; [reflexivity|].
        unfold sort_queue. rewrite Array_sort_Permutation, elem_of_app.
        right. by left.
      * apply lookup_delete_eq.
      * apply remove_timer_not_elem, Hwf.
Qed.

Lemma C2_witness :
  activeJobs in_backoff !! "job_1" = Some 0%nat ∧
  (status <$> jobs in_backoff !! 0%nat) = Some RETRYING.
Proof.
  destruct (proj1 C2_backoff_keeps_job_active_releases_type default_config in_backoff
    0%nat (mkJob "job_1" "email" "d1" NORMAL RETRYING 1 3 10 101 None (Some "boom")))
    as [_ H].
  - apply reachable_history. vm_compute. reflexivity.
  - vm_compute. reflexivity.
  - destruct H as (_ & Hact & _).
    + vm_compute. by left.
    + split; [exact Hact|]. vm_compute. reflexivity.
Defined.





End QueueClaims.

(** ** Facts about the dispatcher *)
Module NotificationFacts.
Import NotificationService.

(** *** Closed forms *)
Lemma sendNotification_idle p now s :
  processing s = false → queue s = [] →
  sendNotification p now s =
  let rs := recipients (stamp now p) (channels s) in
  mkState (channels s) [] true (S (calls s))
    (Some (mkDrain (calls s) (calls s) ((fun e => (e.1, Channel.type e.2)) <$> rs)))
    (log s ++ concat ((fun e => deliverToChannel (calls s) (stamp now p) e.2) <$> rs)).
Proof.
  intros Hp Hq. unfold sendNotification, processQueue. simpl.
  rewrite Hp, Hq. reflexivity.
Qed.

Lemma sendNotification_busy p now s :
  processing s = true →
  sendNotification p now s =
  mkState (channels s) (queue s ++ [(calls s, stamp now p)]) true (S (calls s))
    (drain s) (log s ++ [Emitted "notification" (calls s); Resolved (calls s)]).
Proof.
  intros Hp. unfold sendNotification, after_drain. simpl. rewrite Hp. reflexivity.
Qed.

Lemma processQueue_loop_done caller s :
  queue s = [] →
  processQueue_loop caller s =
  mkState (channels s) [] false (calls s) None
    (log s ++ [Emitted "notification" caller; Resolved caller]).
Proof. intros Hq. unfold processQueue_loop. rewrite Hq. reflexivity. Qed.

Lemma processQueue_loop_next caller n p rest s :
  queue s = (n, p) :: rest →
  processQueue_loop caller s =
  let rs := recipients p (channels s) in
  mkState (channels s) rest (processing s) (calls s)
    (Some (mkDrain caller n ((fun e => (e.1, Channel.type e.2)) <$> rs)))
    (log s ++ concat ((fun e => deliverToChannel n p e.2) <$> rs)).
Proof. intros Hq. unfold processQueue_loop. rewrite Hq. reflexivity. Qed.

(** What one fan-out adds to the log. *)
Lemma elem_of_fanout o n p (rs : list (string * Channel.t)) :
  o ∈ concat ((fun e => deliverToChannel n p e.2) <$> rs) ↔
  ∃ e, e ∈ rs ∧ (o = Invoked n p e.2 ∨
                 (Channel.type e.2 = websocket ∧ o = Emitted "websocket" n)).
Proof.
  induction rs as [|e rs IH].
  - split; [inversion 1|]. intros (e & He & _). inversion He.
  - rewrite fmap_cons. cbn [concat].
    rewrite elem_of_app, IH. unfold deliverToChannel at 1.
    rewrite elem_of_cons. split.
    + intros [[->|Ho]|(e' & He' & Ho)].
      * exists e. split; [by left|by left].
      * exists e. split; [by left|]. right.
        destruct (Channel.type e.2); try by inversion Ho.
        apply list_elem_of_singleton in Ho. done.
      * exists e'. split; [by right|done].
    + intros (e' & [->|He']%elem_of_cons & Ho).
      * left. destruct Ho as [->|[-> ->]]; [by left|]. right. by left.
      * right. eauto.
Qed.

Lemma Resolved_not_in_fanout k n p (rs : list (string * Channel.t)) :
  Resolved k ∉ concat ((fun e => deliverToChannel n p e.2) <$> rs).
Proof. intros (e & _ & [?|[_ ?]])%elem_of_fanout; discriminate. Qed.

Lemma elem_of_recipients e p m :
  e ∈ recipients p m ↔ accepts e.2 p = true ∧ e ∈ m.
Proof. unfold recipients. by rewrite list_elem_of_filter. Qed.

(** *** Well-formedness *)
Lemma dispatcher_wf_new url : wf (new url).
Proof.
  unfold new, initializeDefaultChannels.
  destruct (truthy url); split; simpl; try done.
  all: try (by intros [? ?]).
  all: intros; by exfalso; eapply not_elem_of_nil.
Qed.

Lemma elem_of_after_drain o caller (l : list Obs) :
  o ∈ l ++ [Emitted "notification" caller; Resolved caller] ↔
  o ∈ l ∨ o = Emitted "notification" caller ∨ o = Resolved caller.
Proof.
  rewrite elem_of_app, elem_of_cons, list_elem_of_singleton. tauto.
Qed.

Lemma dispatcher_wf_processQueue_loop caller s :
  wf s → (caller < calls s)%nat → is_Some (drain s) → wf (processQueue_loop caller s).
Proof.
  intros [Hidle Hdrain Hcaller Hres Hinv] Hlt Hd.
  destruct (queue s) as [|[n p] rest] eqn:Hq.
  - rewrite processQueue_loop_done by done. split; simpl.
    + done.
    + by intros [? ?].
    + done.
    + intros n [Hn|[?|?]]%elem_of_after_drain; [auto|discriminate|by simplify_eq].
    + intros n p c [Hn|[?|?]]%elem_of_after_drain; [eauto|discriminate..].
  - rewrite (processQueue_loop_next caller n p rest) by done. split; simpl.
    + intros Hp. rewrite (Hdrain Hd) in Hp. discriminate.
    + auto.
    + intros d [= <-]. done.
    + intros k [Hk|Hk]%elem_of_app; [auto|]. by apply Resolved_not_in_fanout in Hk.
    + intros k p' c [Hk|Hk]%elem_of_app; [eauto|].
      apply elem_of_fanout in Hk as (e & [Hacc _]%elem_of_recipients & [Ho|[_ Ho]]);
        [|discriminate]. by simplify_eq.
Qed.

Lemma dispatcher_wf_step s ev : wf s → enabled s ev → wf (step s ev).
Proof.
  intros Hwf Hen. pose proof Hwf as [Hidle Hdrain Hcaller Hres Hinv].
  destruct ev as [c|channelId|p now|channelId ok| |]; cbn [step enabled] in *.
  - by split.
  - by split.
  - destruct (processing s) eqn:Hp.
    + rewrite sendNotification_busy by done. split; simpl.
      * done.
      * done.
      * intros d Hd. specialize (Hcaller d Hd). lia.
      * intros n [Hn|[?|?]]%elem_of_after_drain;
          [specialize (Hres n Hn); lia|discriminate|simplify_eq; lia].
      * intros n p' c [Hn|[?|?]]%elem_of_after_drain; [eauto|discriminate..].
    + rewrite sendNotification_idle by auto. split; simpl.
      * done.
      * done.
      * intros d [= <-]. simpl. lia.
      * intros n [Hn|Hn]%elem_of_app; [specialize (Hres n Hn); lia|].
        by apply Resolved_not_in_fanout in Hn.
      * intros k p' c [Hk|Hk]%elem_of_app; [eauto|].
        apply elem_of_fanout in Hk as (e & [Hacc _]%elem_of_recipients & [Ho|[_ Ho]]);
          [|discriminate]. by simplify_eq.
  - destruct Hen as (d & ty & Hd & _). unfold settle. rewrite Hd.
    split; simpl.
    + done.
    + intros _. apply Hdrain. by rewrite Hd.
    + intros d' [= <-]. simpl. eauto.
    + intros n [Hn|Hn]%elem_of_app; [auto|].
      apply list_elem_of_singleton in Hn. discriminate.
    + intros n p c [Hn|Hn]%elem_of_app; [eauto|].
      apply list_elem_of_singleton in Hn. discriminate.
  - destruct Hen as (d & Hd & _). unfold allSettled. rewrite Hd.
    apply dispatcher_wf_processQueue_loop; [done|auto|by rewrite Hd].
  - split; simpl; done.
Qed.

Theorem dispatcher_wf_reachable url s : reachable url s → wf s.
Proof. induction 1; [apply dispatcher_wf_new | by apply dispatcher_wf_step]. Qed.

Lemma dispatcher_reachable_run url s evs :
  reachable url s → all_enabled s evs → reachable url (run s evs).
Proof.
  revert s. induction evs as [|ev evs IH]; intros s Hs Hen; [assumption|].
  destruct Hen as [Hev Hen]. apply IH; [|assumption]. by constructor.
Qed.

(** The log only grows. *)
Lemma log_step s ev : ∃ l, log (step s ev) = log s ++ l.
Proof.
  destruct ev as [c|channelId|p now|channelId ok| |]; cbn [step].
  - exists []. simpl. by rewrite app_nil_r.
  - exists []. simpl. by rewrite app_nil_r.
  - unfold sendNotification, processQueue, processQueue_loop, after_drain. simpl.
    destruct (processing s); simpl; [eauto|].
    destruct (bool_decide _); simpl; [eauto|].
    destruct (queue s ++ _) as [|[n q] rest]; simpl; eauto.
  - unfold settle. destruct (drain s); simpl; [eauto|].
    exists []. by rewrite app_nil_r.
  - unfold allSettled, processQueue_loop, after_drain.
    destruct (drain s); simpl; [|exists []; by rewrite app_nil_r].
    destruct (queue s) as [|[n q] rest]; simpl; eauto.
  - exists []. simpl. by rewrite app_nil_r.
Qed.

Lemma log_run s evs : ∃ l, log (run s evs) = log s ++ l.
Proof.
  revert s. induction evs as [|ev evs IH]; intros s.
  - exists []. simpl. by rewrite app_nil_r.
  - destruct (IH (step s ev)) as [l Hl]. destruct (log_step s ev) as [l0 Hl0].
    exists (l0 ++ l). change (run s (ev :: evs)) with (run (step s ev) evs).
    by rewrite Hl, Hl0, app_assoc.
Qed.

(** Projections of an explicit state. *)
Ltac nfields :=
  cbn [channels queue processing calls drain log caller current pending].

(** *** The caller of the drain waits for its own delivery *)
Lemma elem_of_remove_pending x channelId (l : list (string * ChannelType)) :
  x ∈ l.*1 → x ≠ channelId → x ∈ (remove_pending channelId l).*1.
Proof.
  induction l as [|y l IH]; csimpl; [done|].
  intros [->|Hx]%elem_of_cons Hne.
  - destruct (decide (y.1 = channelId)); [done|]. csimpl. by left.
  - destruct (decide (y.1 = channelId)); [done|]. csimpl. right. auto.
Qed.

Lemma awaits_delivery_start p now s :
  wf s → processing s = false →
  awaits_delivery (calls s) (recipients (stamp now p) (channels s))
    (sendNotification p now s).
Proof.
  intros Hwf Hp. rewrite sendNotification_idle by (auto; by apply Hwf).
  cbn zeta. split; [simpl; lia|]. left. eexists. nfields.
  split_and!; [reflexivity..| |].
  - intros [Hin|Hin]%elem_of_app.
    + apply (wf_resolved s Hwf) in Hin. lia.
    + by apply Resolved_not_in_fanout in Hin.
  - intros e He. left. split; [reflexivity|].
    nfields. rewrite <- list_fmap_compose. apply list_elem_of_fmap. by exists e.
Qed.

Lemma awaits_delivery_step n M s ev :
  wf s → enabled s ev → awaits_delivery n M s → awaits_delivery n M (step s ev).
Proof.
  intros Hwf Hen [Hn Hphase].
  destruct Hphase as [(d & Hd & Hc & Hnot & HM)|(l1 & l2 & Hlog & Hl1 & HM)].
  - assert (Hproc : processing s = true) by (apply Hwf; by rewrite Hd).
    destruct ev as [c|channelId|p now|channelId ok| |]; cbn [step enabled] in *.
    + split; [done|]. left. exists d. by nfields.
    + split; [done|]. left. exists d. by nfields.
    + rewrite sendNotification_busy by done. split; [simpl; lia|].
      left. exists d. nfields. split_and!; [done..| |].
      * intros [?|[?|?]]%elem_of_after_drain; [done|discriminate|simplify_eq; lia].
      * intros e He. destruct (HM e He) as [?|[ok Hok]]; [by left|].
        right. exists ok. apply elem_of_app. by left.
    + destruct Hen as (d' & ty & Hd' & Hin & _).
      rewrite Hd in Hd'. injection Hd' as <-.
      unfold settle. rewrite Hd. split; [done|]. left. eexists. nfields.
      split_and!; [reflexivity|done| |].
      * intros [?|?%list_elem_of_singleton]%elem_of_app; [done|discriminate].
      * intros e He. destruct (HM e He) as [[Hcur Hpend]|[ok' Hok]].
        -- destruct (decide (e.1 = channelId)) as [<-|Hne].
           ++ right. exists ok. apply elem_of_app. right.
              rewrite Hcur. by left.
           ++ left. split; [done|]. by apply elem_of_remove_pending.
        -- right. exists ok'. apply elem_of_app. by left.
    + destruct Hen as (d' & Hd' & Hpend).
      rewrite Hd in Hd'. injection Hd' as <-.
      unfold allSettled. rewrite Hd. subst n.
      assert (Hsettled : ∀ e, e ∈ M → ∃ ok, Settled (caller d) e.1 ok ∈ log s).
      { intros e He. destruct (HM e He) as [[_ Hin]|?]; [|done].
        rewrite Hpend in Hin. inversion Hin. }
      destruct (queue s) as [|[m p] rest] eqn:Hq.
      * rewrite processQueue_loop_done by done. split; [done|]. right.
        exists (log s ++ [Emitted "notification" (caller d)]), []. nfields.
        split_and!.
        -- by rewrite <- app_assoc.
        -- intros [?|?%list_elem_of_singleton]%elem_of_app; [done|discriminate].
        -- intros e He. destruct (Hsettled e He) as [ok Hok].
           exists ok. apply elem_of_app. by left.
      * rewrite (processQueue_loop_next (caller d) m p rest) by done.
        split; [done|]. left. eexists. nfields. split_and!; [reflexivity..| |].
        -- intros [?|Hin]%elem_of_app; [done|]. by apply Resolved_not_in_fanout in Hin.
        -- intros e He. right. destruct (Hsettled e He) as [ok Hok].
           exists ok. apply elem_of_app. by left.
    + split; [done|]. left. exists d. by nfields.
  - destruct (log_step s ev) as [l Hl].
    assert (Hcalls : (calls s <= calls (step s ev))%nat).
    { destruct ev as [c|channelId|p now|channelId ok| |]; cbn [step]; simpl; try lia.
      - unfold sendNotification, processQueue, processQueue_loop, after_drain. simpl.
        destruct (processing s); simpl; [lia|].
        destruct (bool_decide _); simpl; [lia|].
        destruct (queue s ++ _) as [|[m q] rest]; simpl; lia.
      - unfold settle. destruct (drain s); simpl; lia.
      - unfold allSettled, processQueue_loop, after_drain.
        destruct (drain s); simpl; [|lia].
        destruct (queue s) as [|[m q] rest]; simpl; lia. }
    split; [lia|]. right. exists l1, (l2 ++ l).
    split_and!; [|done..]. rewrite Hl, Hlog. by rewrite <- app_assoc.
Qed.

Lemma awaits_delivery_run n M s evs :
  wf s → all_enabled s evs → awaits_delivery n M s → awaits_delivery n M (run s evs).
Proof.
  revert s. induction evs as [|ev evs IH]; intros s Hwf Hen Ha; [done|].
  destruct Hen as [Hev Hen].
  apply IH; [by apply dispatcher_wf_step|done|by apply awaits_delivery_step].
Qed.


Lemma channels_new url :
  channels (new url) =
  ("websocket", websocket_channel) ::
  if truthy url then [("webhook", Channel.mk "webhook" webhook url true None)] else [].
Proof.
  unfold new, initializeDefaultChannels. by destruct (truthy url).
Qed.






End NotificationFacts.

(** ** The claims about the dispatcher *)
Module NotificationClaims.
Import NotificationService NotificationFacts.

(** C4, as stated, fails: while the webhook of the first notification has
    not answered, a second call of [sendNotification] finds [processing]
    set, skips the drain and resolves at once; its payload is still in the
    queue and nothing has been delivered to any channel. *)
Lemma C4_counterexample : ¬ resolves_after_settled.
Proof.
  intros H.
  destruct (H (Some "https://example.org/hook") webhook_pending request 20 [])
    with (e := ("websocket", websocket_channel)) as [ok Hin].
  - apply (dispatcher_reachable_run _ _ [SendNotification request 10]); [constructor|].
    simpl. tauto.
  - exact I.
  - vm_compute. do 4 right. left.
  - vm_compute. left.
  - vm_compute in Hin.
    repeat (apply elem_of_cons in Hin as [Hin|Hin]; [discriminate Hin|]).
    inversion Hin.
Qed.

(** C4, amended: when [sendNotification(p)] is called while no drain is in
    progress, [deliverToChannel] is called for every channel that is
    enabled and whose filters, if any, include [p.type], and the promise of
    the call resolves only after the delivery to each of them has settled,
    fulfilled or rejected.  In every history [deliverToChannel] is called
    only with an enabled channel whose filters, if any, include the type of
    the payload.  A delivery that fails leaves the drain exactly as a
    delivery that succeeds: the other pending deliveries stay pending and
    the queue is untouched.  A call made while a drain is in progress
    resolves at once, with its payload still in the queue and the drain as
    it was. *)
Theorem C4_drain_caller_waits_for_all_channels :
  (∀ url s p now evs,
     reachable url s → processing s = false →
     all_enabled (sendNotification p now s) evs →
     (∀ e, e ∈ recipients (stamp now p) (channels s) →
        Invoked (calls s) (stamp now p) e.2 ∈ log (run (sendNotification p now s) evs)) ∧
     (Resolved (calls s) ∈ log (run (sendNotification p now s) evs) →
      ∃ l1 l2, log (run (sendNotification p now s) evs) = l1 ++ Resolved (calls s) :: l2 ∧
        (Resolved (calls s) ∉ l1) ∧
        ∀ e, e ∈ recipients (stamp now p) (channels s) →
          ∃ ok, Settled (calls s) e.1 ok ∈ l1)) ∧
  (∀ url s n p c,
     reachable url s → Invoked n p c ∈ log s →
     Channel.enabled c = true ∧
     ∀ fs, Channel.filters c = Some fs → Payload.type p ∈ fs) ∧
  (∀ s channelId,
     channels (settle channelId false s) = channels (settle channelId true s) ∧
     queue (settle channelId false s) = queue (settle channelId true s) ∧
     processing (settle channelId false s) = processing (settle channelId true s) ∧
     drain (settle channelId false s) = drain (settle channelId true s)) ∧
  (∀ s p now,
     processing s = true →
     Resolved (calls s) ∈ log (sendNotification p now s) ∧
     (calls s, stamp now p) ∈ queue (sendNotification p now s) ∧
     drain (sendNotification p now s) = drain s).
Proof.
  split_and!.
  - intros url s p now evs Hs Hp Hen.
    pose proof (dispatcher_wf_reachable url s Hs) as Hwf.
    assert (Hwf1 : wf (sendNotification p now s)).
    { by apply (dispatcher_wf_step s (SendNotification p now)). }
    split.
    + intros e He. destruct (log_run (sendNotification p now s) evs) as [l ->].
      apply elem_of_app. left.
      rewrite sendNotification_idle by (auto; by apply Hwf). cbn zeta. nfields.
      apply elem_of_app. right. apply elem_of_fanout. exists e. auto.
    + intros Hres.
      pose proof (awaits_delivery_run _ _ _ evs Hwf1 Hen
                    (awaits_delivery_start p now s Hwf Hp)) as [_ Hphase].
      destruct Hphase as [(d & _ & _ & Hnot & _)|Hdone]; [contradiction|done].
  - intros url s n p c Hs Hin.
    apply (wf_invoked s (dispatcher_wf_reachable url s Hs)) in Hin.
    unfold accepts in Hin. apply andb_true_iff in Hin as [Hen Hf].
    split; [done|]. intros fs Hfs. rewrite Hfs in Hf.
    by apply bool_decide_eq_true in Hf.
  - intros s channelId. unfold settle. by destruct (drain s).
  - intros s p now Hp. rewrite sendNotification_busy by done. nfields.
    split_and!; [|by apply elem_of_app; right; left|done].
    apply elem_of_app. right. right. by left.
Qed.

(** Scenario C: with the [audit] channel registered, a session request is
    delivered over the websocket channel and resolves after that delivery
    has settled. *)
Lemma C4_witness :
  let s := run (new None) [AddChannel audit] in
  let s' := run (sendNotification request 10 s) [Settle "websocket" true; AllSettled] in
  recipients (stamp 10 request) (channels s) = [("websocket", websocket_channel)] ∧
  ∃ l1 l2, log s' = l1 ++ Resolved 0 :: l2 ∧
    ∃ ok, Settled 0 "websocket" ok ∈ l1.
Proof.
  intros s s'. split; [vm_compute; reflexivity|].
  destruct (proj1 C4_drain_caller_waits_for_all_channels None s request 10
              [Settle "websocket" true; AllSettled]) as [_ H].
  - apply (dispatcher_reachable_run _ _ [AddChannel audit]); [constructor|]. simpl. tauto.
  - reflexivity.
  - vm_compute. split_and!; try exact I.
    + exists (mkDrain 0 0 [("websocket", websocket)]), websocket.
      split_and!; [reflexivity|by left|discriminate].
    + exists (mkDrain 0 0 []). split; reflexivity.
  - destruct H as (l1 & l2 & Hlog & _ & Hset).
    + vm_compute. do 4 right. left.
    + exists l1, l2. split; [exact Hlog|].
      apply (Hset ("websocket", websocket_channel)). vm_compute. left.
Defined.




End NotificationClaims.

(** ** Further properties of the scheduler *)
Module QueueExtras.
Import QueueService QueueFacts QueueQueries.


Lemma remove_first_elem_ne r x (l : list nat) : x ≠ r → x ∈ l → x ∈ remove_first r l.
Proof.
  intros Hne. induction l as [|y l IH]; simpl; [done|].
  intros [->|Hx]%elem_of_cons.
  - case_decide; [congruence|by left].
  - case_decide; [done|]. right. auto.
Qed.

(** How a step changes the active set: it is left alone, or the job a tick
    starts is entered under its id, or a job that failed for good or whose
    backoff timer fired is removed. *)
Lemma step_activeJobs s ev :
  wf s → enabled s ev →
  activeJobs (step s ev) = activeJobs s ∨
  (∃ r j now, ev = Tick now ∧ getNextJob s = Some r ∧ jobs s !! r = Some j ∧
     Z.of_nat (size (activeJobs s)) < Required.maxConcurrent (config s) ∧
     activeJobs (step s ev) = <[id j := r]> (activeJobs s)) ∨
  (∃ r j, jobs s !! r = Some j ∧ activeJobs s !! id j = Some r ∧
     activeJobs (step s ev) = delete (id j) (activeJobs s) ∧
     ((∃ e now, ev = Reject r e now ∧ ¬ attempts j < maxAttempts j) ∨ ev = TimerFires r)).
Proof.
  intros Hwf Hen.
  destruct ev as [ty d p jobId now|ty p|now|r' now1 now2|r' e now|r'|];
    cbn [step enabled] in *.
  - left. by rewrite addJob_eq.
  - by left.
  - unfold processJobs.
    destruct (Z.geb_spec (Z.of_nat (size (activeJobs s)))
                (Required.maxConcurrent (config s))); [by left|].
    destruct (getNextJob s) as [r0|] eqn:Hnext; [|by left].
    destruct (getNextJob_wf s r0 Hwf Hnext) as (j0 & q & Hj0 & Hq & Hst & _).
    rewrite Hj0. destruct (processors s !! type j0) eqn:Hp.
    + rewrite (processJob_begin_eq r0 j0 q) by assumption. fields.
      right. left. exists r0, j0, now. split_and!; done.
    + rewrite (removeJobFromQueue_head r0 j0 q) by assumption. by left.
  - destruct (wf_awaiting s Hwf r' Hen) as (_ & j0 & Hj0 & Hst & Hact).
    rewrite (processJob_resolved_eq r' j0) by assumption. by left.
  - destruct (wf_awaiting s Hwf r' Hen) as (_ & j0 & Hj0 & Hst & Hact).
    rewrite (processJob_rejected_eq r' j0) by assumption. fields.
    destruct (Z.ltb_spec (attempts j0) (maxAttempts j0)); [by left|].
    right. right. exists r', j0. split_and!; [done..|]. left. exists e, now.
    split; [done|lia].
  - destruct (wf_timers s Hwf r' Hen) as (j0 & Hj0 & Hst & Hact).
    destruct (wf_has_queue s Hwf r' j0 Hj0) as [q Hq].
    rewrite (retry_callback_eq r' j0 q) by assumption. fields.
    right. right. exists r', j0. split_and!; [done..|]. by right.
  - by left.
Qed.

Lemma active_ok_new c : active_ok (new c).
Proof.
  split; simpl.
  - intros k r Hk. by rewrite lookup_empty in Hk.
  - rewrite map_size_empty. lia.
Qed.

Lemma active_ok_step s ev :
  wf s → enabled s ev → active_ok s → active_ok (step s ev).
Proof.
  intros Hwf Hen [Hid Hbound]. split.
  - intros k r Hk.
    assert (Hold : ∃ j, jobs s !! r = Some j ∧ id j = k).
    { destruct (step_activeJobs s ev Hwf Hen)
        as [Heq|[(r0 & j0 & now & _ & _ & Hj0 & _ & Heq)|(r0 & j0 & _ & _ & Heq & _)]];
        rewrite Heq in Hk.
      - eauto.
      - destruct (decide (id j0 = k)) as [<-|Hne].
        + rewrite lookup_insert_eq in Hk. injection Hk as <-. eauto.
        + rewrite lookup_insert_ne in Hk by done. eauto.
      - destruct (decide (id j0 = k)) as [<-|Hne].
        + by rewrite lookup_delete_eq in Hk.
        + rewrite lookup_delete_ne in Hk by done. eauto. }
    destruct Hold as (j & Hj & <-).
    destruct (step_job_immutable s ev r j Hwf Hen Hj) as (j' & Hj' & Hid' & _).
    eauto.
  - rewrite config_step.
    destruct (step_activeJobs s ev Hwf Hen)
      as [Heq|[(r0 & j0 & now & _ & _ & Hj0 & Hfree & Heq)|(r0 & j0 & _ & _ & Heq & _)]];
      rewrite Heq.
    + done.
    + rewrite map_size_insert. destruct (activeJobs s !! id j0); simpl; lia.
    + rewrite map_size_delete. destruct (activeJobs s !! id j0); simpl; lia.
Qed.

Lemma active_ok_reachable c s : reachable c s → active_ok s.
Proof.
  induction 1 as [|s ev Hs IH Hen]; [apply active_ok_new|].
  apply active_ok_step; [by eapply wf_reachable|done..].
Qed.

Lemma status_active_new c : status_active (new c).
Proof. split; simpl; intros r j Hj; by rewrite lookup_nil in Hj. Qed.

Lemma status_active_step s ev :
  wf s → enabled s ev → active_ok s → status_active s → status_active (step s ev).
Proof.
  intros Hwf Hen Hact Hsa.
  assert (Hold : ∀ r j, jobs s !! r = Some j →
            (status j = COMPLETED → activeJobs s !! id j = Some r) ∧
            (status j = FAILED → activeJobs s !! id j = None) ∧
            (status j = PENDING → activeJobs s !! id j = None)).
  { intros r j Hj. destruct Hsa. split_and!; eauto. }
  assert (Hne_id : ∀ r r0 j j0, r ≠ r0 → jobs s !! r = Some j → jobs s !! r0 = Some j0 →
            id j0 ≠ id j).
  { intros r r0 j j0 Hne Hj Hj0 Heq. apply Hne. symmetry.
    eapply ids_inj; eauto. apply Hwf. }
  cut (∀ r j', jobs (step s ev) !! r = Some j' →
            (status j' = COMPLETED → activeJobs (step s ev) !! id j' = Some r) ∧
            (status j' = FAILED → activeJobs (step s ev) !! id j' = None) ∧
            (status j' = PENDING → activeJobs (step s ev) !! id j' = None)).
  { intros Hall. split; intros r j Hj Hst; by destruct (Hall r j Hj) as (? & ? & ?); auto. }
  destruct ev as [ty d p jobId now|ty p|now|r0 now1 now2|r0 e now|r0|];
    cbn [step enabled] in *.
  - rewrite addJob_eq. fields. intros r j' [[_ Hj]|[_ <-]]%lookup_snoc_Some; [auto|].
    simpl. split_and!; try discriminate. intros _.
    destruct (activeJobs s !! jobId) as [r1|] eqn:E; [|done].
    destruct (act_id s Hact _ _ E) as (j1 & Hj1 & Hid1).
    exfalso. apply Hen. apply list_elem_of_fmap. exists j1. split; [done|].
    by eapply list_elem_of_lookup_2.
  - exact Hold.
  - unfold processJobs. destruct (_ >=? _); [exact Hold|].
    destruct (getNextJob s) as [r0|] eqn:Hnext; [|exact Hold].
    destruct (getNextJob_wf s r0 Hwf Hnext) as (j0 & q & Hj0 & Hq & Hst & _).
    rewrite Hj0. destruct (processors s !! type j0) eqn:Hproc.
    + rewrite (processJob_begin_eq r0 j0 q) by assumption. fields.
      intros r j'. destruct (decide (r = r0)) as [->|Hne].
      * rewrite list_lookup_insert_eq by (eapply lookup_lt_Some; eauto).
        intros [= <-]. simpl. split_and!; discriminate.
      * rewrite list_lookup_insert_ne by done. intros Hj.
        rewrite lookup_insert_ne by eauto. auto.
    + rewrite (removeJobFromQueue_head r0 j0 q) by assumption. exact Hold.
  - destruct (wf_awaiting s Hwf r0 Hen) as (_ & j0 & Hj0 & Hst & Ha).
    rewrite (processJob_resolved_eq r0 j0) by assumption. fields.
    intros r j'. destruct (decide (r = r0)) as [->|Hne].
    + rewrite list_lookup_insert_eq by (eapply lookup_lt_Some; eauto).
      intros [= <-]. simpl. split_and!; [done|discriminate..].
    + rewrite list_lookup_insert_ne by done. auto.
  - destruct (wf_awaiting s Hwf r0 Hen) as (_ & j0 & Hj0 & Hst & Ha).
    rewrite (processJob_rejected_eq r0 j0) by assumption. fields.
    intros r j'. destruct (decide (r = r0)) as [->|Hne].
    + rewrite list_lookup_insert_eq by (eapply lookup_lt_Some; eauto).
      intros [= <-]. rewrite failed_with_status.
      destruct (attempts j0 <? maxAttempts j0); [split_and!; discriminate|].
      simpl. rewrite lookup_delete_eq. split_and!; [discriminate|done|discriminate].
    + rewrite list_lookup_insert_ne by done. intros Hj.
      destruct (attempts j0 <? maxAttempts j0); [auto|].
      rewrite lookup_delete_ne by eauto. auto.
  - destruct (wf_timers s Hwf r0 Hen) as (j0 & Hj0 & Hst & Ha).
    destruct (wf_has_queue s Hwf r0 j0 Hj0) as [q Hq].
    rewrite (retry_callback_eq r0 j0 q) by assumption. fields.
    intros r j' Hj. destruct (decide (r = r0)) as [->|Hne].
    + simplify_eq. rewrite Hst. split_and!; discriminate.
    + rewrite lookup_delete_ne by eauto. auto.
  - exact Hold.
Qed.

Lemma status_active_reachable c s : reachable c s → status_active s.
Proof.
  induction 1 as [|s ev Hs IH Hen]; [apply status_active_new|].
  apply status_active_step;
    [by eapply wf_reachable|done|by eapply active_ok_reachable|done].
Qed.

(** *** Looking a job up *)
Lemma Array_find_Some {A} (p : A → bool) l x :
  Array_find p l = Some x → x ∈ l ∧ p x = true.
Proof.
  induction l as [|y l IH]; simpl; [discriminate|].
  destruct (p y) eqn:E.
  - intros [= <-]. split; [by left|done].
  - intros [? ?]%IH. split; [by right|done].
Qed.

Lemma Array_find_None {A} (p : A → bool) l :
  Array_find p l = None → ∀ x, x ∈ l → p x = false.
Proof.
  induction l as [|y l IH]; simpl; [intros _ x Hx; inversion Hx|].
  destruct (p y) eqn:E; [discriminate|].
  intros Hn x [->|Hx]%elem_of_cons; auto.
Qed.

Lemma find_in_queues_Some h jobId m r :
  find_in_queues h jobId m = Some r →
  (∃ e, e ∈ m ∧ r ∈ e.2) ∧ id <$> h !! r = Some jobId.
Proof.
  induction m as [|e m IH]; simpl; [discriminate|].
  destruct (Array_find _ e.2) as [r'|] eqn:E.
  - intros [= <-]. apply Array_find_Some in E as [Hin Hp].
    apply bool_decide_eq_true in Hp. split; [|done]. exists e. split; [by left|done].
  - intros [(e' & He' & Hr) Hp]%IH. split; [|done]. exists e'. split; [by right|done].
Qed.

Lemma find_in_queues_None h jobId m :
  find_in_queues h jobId m = None →
  ∀ e r, e ∈ m → r ∈ e.2 → id <$> h !! r ≠ Some jobId.
Proof.
  induction m as [|e m IH]; simpl; [intros _ e r He; inversion He|].
  destruct (Array_find _ e.2) as [r'|] eqn:E; [discriminate|].
  intros Hn e' r [->|He']%elem_of_cons Hr.
  - apply (Array_find_None _ _ E) in Hr. by apply bool_decide_eq_false in Hr.
  - by eapply IH.
Qed.

Lemma in_queue_elem r s :
  wf s → in_queue r s ↔ ∃ e, e ∈ queues s ∧ r ∈ e.2.
Proof.
  intros Hwf. split.
  - intros (k & q & Hq & Hr). exists (k, q). split; [by apply Map_get_Some_elem|done].
  - intros ([k q] & He & Hr). exists k, q. split; [|done].
    apply Map_get_elem; [apply Hwf|done].
Qed.

(** What [getJobStatus] returns in a well-formed scheduler: the job with
    that id, if the scheduler still holds it in the active set or in a
    queue. *)
Lemma getJobStatus_spec s jobId :
  wf s → active_ok s →
  match getJobStatus jobId s with
  | Some r => ∃ j, jobs s !! r = Some j ∧ id j = jobId ∧
                   (activeJobs s !! jobId = Some r ∨ in_queue r s)
  | None => activeJobs s !! jobId = None ∧
            ∀ r j, jobs s !! r = Some j → id j = jobId → ¬ in_queue r s
  end.
Proof.
  intros Hwf Hact. unfold getJobStatus.
  destruct (activeJobs s !! jobId) as [r|] eqn:Ha.
  - destruct (act_id s Hact _ _ Ha) as (j & Hj & Hid). eauto 10.
  - destruct (find_in_queues (jobs s) jobId (queues s)) as [r|] eqn:Hf.
    + apply find_in_queues_Some in Hf as [He Hid].
      destruct (jobs s !! r) as [j|] eqn:Hj; [|discriminate].
      injection Hid as Hid. exists j. split_and!; [done..|].
      right. by apply in_queue_elem.
    + split; [done|]. intros r j Hj Hid (e & He & Hr)%in_queue_elem; [|done].
      apply (find_in_queues_None _ _ _ Hf e r He Hr). rewrite Hj. simpl. by rewrite Hid.
Qed.

(** *** One running job per type *)
Lemma one_per_type_new c : one_per_type (new c).
Proof.
  split; simpl.
  - intros r j Hr. inversion Hr.
  - intros k Hk. by apply not_elem_of_empty in Hk.
  - intros r1 r2 j1 j2 Hr. inversion Hr.
Qed.

Lemma one_per_type_step s ev :
  wf s → enabled s ev → one_per_type s → one_per_type (step s ev).
Proof.
  intros Hwf Hen [Hm Hr Hu].
  destruct ev as [ty d p jobId now|ty p|now|r0 now1 now2|r0 e now|r0|];
    cbn [step enabled] in *.
  - rewrite addJob_eq. cbn zeta.
    set (job := mkJob jobId ty d p PENDING 0 _ now now None None).
    assert (Hold : ∀ r j, r ∈ awaiting s → (jobs s ++ [job]) !! r = Some j →
              jobs s !! r = Some j).
    { intros r j Hin Hj. destruct (wf_awaiting s Hwf r Hin) as (_ & j0 & Hj0 & _).
      by rewrite (lookup_app_l_Some _ _ _ _ Hj0) in Hj; simplify_eq. }
    split; fields.
    + intros r j Hin Hj. eauto.
    + intros k Hk. destruct (Hr k Hk) as (r & j & Hin & Hj & Hty).
      exists r, j. split_and!; [done| |done]. by apply lookup_app_l_Some.
    + intros r1 r2 j1 j2 H1 H2 Hj1 Hj2. eauto.
  - by split.
  - unfold processJobs. destruct (_ >=? _); [by split|].
    destruct (getNextJob s) as [r0|] eqn:Hnext; [|by split].
    destruct (getNextJob_wf s r0 Hwf Hnext) as (j0 & q & Hj0 & Hq & Hst & Hfree).
    rewrite Hj0. destruct (processors s !! type j0) eqn:Hproc.
    + rewrite (processJob_begin_eq r0 j0 q) by assumption.
      destruct (wf_queue s Hwf _ _ Hq) as [_ Hmem].
      destruct (Hmem r0) as (Hra & _); [by left|].
      assert (Hself : <[r0 := started now j0]> (jobs s) !! r0 = Some (started now j0)).
      { apply list_lookup_insert_eq. eapply lookup_lt_Some; eauto. }
      assert (Hold : ∀ r j, r ∈ awaiting s →
                <[r0 := started now j0]> (jobs s) !! r = Some j → jobs s !! r = Some j).
      { intros r j Hin. rewrite list_lookup_insert_ne; [done|]. by intros ->. }
      split; fields.
      * intros r j [Hin| ->%list_elem_of_singleton]%elem_of_app Hj.
        -- apply elem_of_union. left. eauto.
        -- rewrite Hself in Hj. injection Hj as <-. simpl.
           apply elem_of_union. right. by apply elem_of_singleton.
      * intros k [Hk| ->%elem_of_singleton]%elem_of_union.
        -- destruct (Hr k Hk) as (r & j & Hin & Hj & Hty).
           exists r, j. split_and!; [apply elem_of_app; by left| |done].
           rewrite list_lookup_insert_ne; [done|]. by intros ->.
        -- exists r0, (started now j0). split_and!; [|done..].
           apply elem_of_app. right. by left.
      * intros r1 r2 j1 j2
          [H1| ->%list_elem_of_singleton]%elem_of_app
          [H2| ->%list_elem_of_singleton]%elem_of_app Hj1 Hj2 Hty.
        -- eauto.
        -- rewrite Hself in Hj2. injection Hj2 as <-. simpl in Hty.
           exfalso. apply Hfree. rewrite <- Hty. eauto.
        -- rewrite Hself in Hj1. injection Hj1 as <-. simpl in Hty.
           exfalso. apply Hfree. rewrite Hty. eauto.
        -- done.
    + rewrite (removeJobFromQueue_head r0 j0 q) by assumption. by split.
  - destruct (wf_awaiting s Hwf r0 Hen) as (_ & j0 & Hj0 & Hst & _).
    rewrite (processJob_resolved_eq r0 j0) by assumption.
    assert (Hold : ∀ r j, r ∈ remove_first r0 (awaiting s) →
              <[r0 := completed now1 now2 j0]> (jobs s) !! r = Some j →
              r ≠ r0 ∧ r ∈ awaiting s ∧ jobs s !! r = Some j).
    { intros r j Hin. assert (r ≠ r0).
      { intros ->. by apply remove_first_not_elem in Hin; [|apply Hwf]. }
      rewrite list_lookup_insert_ne by done.
      apply remove_first_subseteq in Hin. done. }
    split; fields.
    + intros r j Hin Hj. destruct (Hold r j Hin Hj) as (Hne & Hin' & Hj').
      apply elem_of_difference. split; [eauto|].
      intros Heq%elem_of_singleton. apply Hne. eapply Hu; eauto.
    + intros k [Hk Hne]%elem_of_difference.
      destruct (Hr k Hk) as (r & j & Hin & Hj & Hty).
      assert (r ≠ r0).
      { intros ->. simplify_eq. apply Hne. by apply elem_of_singleton. }
      exists r, j. split_and!; [by apply remove_first_elem_ne| |done].
      by rewrite list_lookup_insert_ne.
    + intros r1 r2 j1 j2 H1 H2 Hj1 Hj2.
      destruct (Hold r1 j1 H1 Hj1) as (_ & ? & ?).
      destruct (Hold r2 j2 H2 Hj2) as (_ & ? & ?). eauto.
  - destruct (wf_awaiting s Hwf r0 Hen) as (_ & j0 & Hj0 & Hst & _).
    rewrite (processJob_rejected_eq r0 j0) by assumption.
    assert (Hold : ∀ r j, r ∈ remove_first r0 (awaiting s) →
              <[r0 := failed_with e now j0]> (jobs s) !! r = Some j →
              r ≠ r0 ∧ r ∈ awaiting s ∧ jobs s !! r = Some j).
    { intros r j Hin. assert (r ≠ r0).
      { intros ->. by apply remove_first_not_elem in Hin; [|apply Hwf]. }
      rewrite list_lookup_insert_ne by done.
      apply remove_first_subseteq in Hin. done. }
    split; fields.
    + intros r j Hin Hj. destruct (Hold r j Hin Hj) as (Hne & Hin' & Hj').
      apply elem_of_difference. split; [eauto|].
      intros Heq%elem_of_singleton. apply Hne. eapply Hu; eauto.
    + intros k [Hk Hne]%elem_of_difference.
      destruct (Hr k Hk) as (r & j & Hin & Hj & Hty).
      assert (r ≠ r0).
      { intros ->. simplify_eq. apply Hne. by apply elem_of_singleton. }
      exists r, j. split_and!; [by apply remove_first_elem_ne| |done].
      by rewrite list_lookup_insert_ne.
    + intros r1 r2 j1 j2 H1 H2 Hj1 Hj2.
      destruct (Hold r1 j1 H1 Hj1) as (_ & ? & ?).
      destruct (Hold r2 j2 H2 Hj2) as (_ & ? & ?). eauto.
  - destruct (wf_timers s Hwf r0 Hen) as (j0 & Hj0 & _).
    destruct (wf_has_queue s Hwf r0 j0 Hj0) as [q Hq].
    rewrite (retry_callback_eq r0 j0 q) by assumption. by split.
  - by split.
Qed.

Lemma one_per_type_reachable c s : reachable c s → one_per_type s.
Proof.
  induction 1 as [|s ev Hs IH Hen]; [apply one_per_type_new|].
  apply one_per_type_step; [by eapply wf_reachable|done..].
Qed.




(** Closed decidable facts are settled by evaluation. *)
Ltac by_eval := refine (bool_decide_eq_true_1 _ _); vm_compute; reflexivity.

Lemma reachable_eval c evs :
  bool_decide (all_enabled (new c) evs) = true → reachable c (run (new c) evs).
Proof.
  intros H. apply reachable_run; [constructor|]. by apply bool_decide_eq_true in H.
Qed.

(** *** A running job is awaited *)
Lemma running_awaited_new c : running_awaited (new c).
Proof. unfold running_awaited. simpl. intros r j Hj. by rewrite lookup_nil in Hj. Qed.

Lemma running_awaited_step s ev :
  wf s → enabled s ev → running_awaited s → running_awaited (step s ev).
Proof.
  intros Hwf Hen Hrun r j'.
  destruct ev as [ty d p jobId now|ty p|now|r0 now1 now2|r0 e now|r0|];
    cbn [step enabled] in *.
  - rewrite addJob_eq. fields.
    intros [[_ Hj]|[_ <-]]%lookup_snoc_Some Hst; [|discriminate Hst]. eauto.
  - apply Hrun.
  - unfold processJobs. destruct (_ >=? _); [apply Hrun|].
    destruct (getNextJob s) as [r0|] eqn:Hnext; [|apply Hrun].
    destruct (getNextJob_wf s r0 Hwf Hnext) as (j0 & q & Hj0 & Hq & _).
    rewrite Hj0. destruct (processors s !! type j0).
    + rewrite (processJob_begin_eq r0 j0 q) by assumption. fields.
      destruct (decide (r = r0)) as [->|Hne].
      * intros _ _. apply elem_of_app. right. by left.
      * rewrite list_lookup_insert_ne by done. intros Hj Hst.
        apply elem_of_app. left. eauto.
    + rewrite (removeJobFromQueue_head r0 j0 q) by assumption. apply Hrun.
  - destruct (wf_awaiting s Hwf r0 Hen) as (_ & j0 & Hj0 & _).
    rewrite (processJob_resolved_eq r0 j0) by assumption. fields.
    destruct (decide (r = r0)) as [->|Hne].
    + rewrite list_lookup_insert_eq by (eapply lookup_lt_Some; eauto).
      intros [= <-] Hst. discriminate Hst.
    + rewrite list_lookup_insert_ne by done. intros Hj Hst.
      apply remove_first_elem_ne; eauto.
  - destruct (wf_awaiting s Hwf r0 Hen) as (_ & j0 & Hj0 & _).
    rewrite (processJob_rejected_eq r0 j0) by assumption. fields.
    destruct (decide (r = r0)) as [->|Hne].
    + rewrite list_lookup_insert_eq by (eapply lookup_lt_Some; eauto).
      intros [= <-]. rewrite failed_with_status. by destruct (_ <? _).
    + rewrite list_lookup_insert_ne by done. intros Hj Hst.
      apply remove_first_elem_ne; eauto.
  - destruct (wf_timers s Hwf r0 Hen) as (j0 & Hj0 & _).
    destruct (wf_has_queue s Hwf r0 j0 Hj0) as [q Hq].
    rewrite (retry_callback_eq r0 j0 q) by assumption. apply Hrun.
  - apply Hrun.
Qed.

Lemma running_awaited_reachable c s : reachable c s → running_awaited s.
Proof.
  induction 1 as [|s ev Hs IH Hen]; [apply running_awaited_new|].
  apply running_awaited_step; [by eapply wf_reachable|done..].
Qed.

(** *** Looking a job up *)
Lemma untracked_not_in_queue r s : wf s → untracked r s → ¬ in_queue r s.
Proof.
  intros Hwf Hun (k & q & Hq & Hr).
  apply untracked_Map_get in Hun as (H & _); [|done]. exact (H k q Hq Hr).
Qed.

Lemma terminal_untracked s r j :
  wf s → jobs s !! r = Some j → terminal j → untracked r s.
Proof.
  intros Hwf Hj Hterm. apply untracked_Map_get; [done|]. split_and!.
  - intros k q Hq Hr. destruct (wf_queue s Hwf k q Hq) as [_ Hmem].
    destruct (Hmem r Hr) as (_ & _ & j' & Hj' & _ & Hst).
    rewrite Hj in Hj'. injection Hj' as <-. destruct Hterm, Hst; congruence.
  - intros Hr. destruct (wf_awaiting s Hwf r Hr) as (_ & j' & Hj' & Hst & _).
    rewrite Hj in Hj'. injection Hj' as <-. destruct Hterm; congruence.
  - intros Hr. destruct (wf_timers s Hwf r Hr) as (j' & Hj' & Hst & _).
    rewrite Hj in Hj'. injection Hj' as <-. destruct Hterm; congruence.
Qed.

Lemma getJobStatus_found s r j :
  wf s → active_ok s → jobs s !! r = Some j →
  activeJobs s !! id j = Some r ∨ in_queue r s → getJobStatus (id j) s = Some r.
Proof.
  intros Hwf Hact Hj Hheld.
  pose proof (getJobStatus_spec s (id j) Hwf Hact) as Hspec.
  destruct (getJobStatus (id j) s) as [r'|].
  - destruct Hspec as (j' & Hj' & Hid & _). f_equal.
    eapply ids_inj; [apply Hwf|exact Hj'|exact Hj|exact Hid].
  - destruct Hspec as [Hnone Hq]. destruct Hheld as [Ha|Hin]; [congruence|].
    by destruct (Hq r j Hj eq_refl Hin).
Qed.

Lemma getJobStatus_not_found s r j :
  wf s → active_ok s → jobs s !! r = Some j →
  activeJobs s !! id j = None → untracked r s → getJobStatus (id j) s = None.
Proof.
  intros Hwf Hact Hj Hnone Hun.
  pose proof (getJobStatus_spec s (id j) Hwf Hact) as Hspec.
  destruct (getJobStatus (id j) s) as [r'|]; [|done].
  destruct Hspec as (j' & Hj' & Hid & Hheld).
  assert (r' = r) as -> by (eapply ids_inj; [apply Hwf|exact Hj'|exact Hj|exact Hid]).
  destruct Hheld as [Ha|Hin]; [congruence|].
  by destruct (untracked_not_in_queue r s Hwf Hun).
Qed.

(** X1: [getJobStatus] finds a job right after [addJob] created it: in a
    reachable scheduler, after [addJob] with a fresh id, [getJobStatus] of
    that id returns the new job object, which is PENDING with no attempts,
    [maxAttempts] taken from the configuration and both time stamps set
    to the time of the call. *)
Theorem getJobStatus_addJob c s ty d p jobId now :
  reachable c s → jobId ∉ id <$> jobs s →
  getJobStatus jobId (addJob ty d p jobId now s) = Some (length (jobs s)) ∧
  jobs (addJob ty d p jobId now s) !! length (jobs s) =
    Some (mkJob jobId ty d p PENDING 0 (Required.retryAttempts (mkConfig c))
                now now None None).
Proof.
  intros Hs Hfresh.
  assert (Hs' : reachable c (addJob ty d p jobId now s)).
  { apply (reachable_step c s (AddJob ty d p jobId now)); done. }
  pose proof (wf_reachable c _ Hs') as Hwf'.
  pose proof (active_ok_reachable c _ Hs') as Hact'.
  assert (Hj : jobs (addJob ty d p jobId now s) !! length (jobs s) =
    Some (mkJob jobId ty d p PENDING 0 (Required.retryAttempts (mkConfig c))
                now now None None)).
  { rewrite addJob_eq. fields. rewrite (config_reachable c s Hs).
    apply list_lookup_middle. done. }
  split; [|exact Hj].
  apply (getJobStatus_found _ _ _ Hwf' Hact' Hj). right.
  exists ty. eexists. split.
  - rewrite addJob_eq. fields. apply Map_get_set_eq.
  - unfold sort_queue. rewrite Array_sort_Permutation.
    apply elem_of_app. right. by left.
Qed.

Lemma getJobStatus_addJob_witness :
  getJobStatus "job_2"
    (addJob "email" "d2" HIGH "job_2" 11
       (run (new default_config) [AddJob "email" "d1" LOW "job_1" 10])) = Some 1%nat.
Proof.
  apply (getJobStatus_addJob default_config
           (run (new default_config) [AddJob "email" "d1" LOW "job_1" 10])).
  - apply reachable_eval. vm_compute. reflexivity.
  - by_eval.
Defined.

(** X2: what [getJobStatus] finds in a reachable scheduler.  The job it
    returns has the id asked for; a job that sits in a queue, whose
    processor is running, or that waits for its backoff timer is found
    under its id; and an id that no job has gives [undefined]. *)
Theorem getJobStatus_finds_held_jobs c s jobId :
  reachable c s →
  (∀ r, getJobStatus jobId s = Some r → ∃ j, jobs s !! r = Some j ∧ id j = jobId) ∧
  (∀ r j, jobs s !! r = Some j → id j = jobId →
     in_queue r s ∨ r ∈ awaiting s ∨ r ∈ (timers s).*1 →
     getJobStatus jobId s = Some r) ∧
  (jobId ∉ id <$> jobs s → getJobStatus jobId s = None).
Proof.
  intros Hs.
  pose proof (wf_reachable c s Hs) as Hwf.
  pose proof (active_ok_reachable c s Hs) as Hact.
  pose proof (getJobStatus_spec s jobId Hwf Hact) as Hspec.
  split_and!.
  - intros r Hr. rewrite Hr in Hspec. destruct Hspec as (j & Hj & Hid & _). eauto.
  - intros r j Hj <- Hheld. apply (getJobStatus_found s r j Hwf Hact Hj).
    destruct Hheld as [Hq|[Ha|Ht]]; [by right|left..].
    + destruct (wf_awaiting s Hwf r Ha) as (_ & j' & Hj' & _ & Hin). by simplify_eq.
    + destruct (wf_timers s Hwf r Ht) as (j' & Hj' & _ & Hin). by simplify_eq.
  - intros Hfresh. destruct (getJobStatus jobId s) as [r|]; [|done].
    destruct Hspec as (j & Hj & Hid & _). exfalso. apply Hfresh.
    apply list_elem_of_fmap. exists j. split; [done|]. by eapply list_elem_of_lookup_2.
Qed.

Lemma getJobStatus_finds_held_jobs_witness :
  getJobStatus "job_1" in_backoff = Some 0%nat ∧
  getJobStatus "job_9" in_backoff = None.
Proof.
  destruct (getJobStatus_finds_held_jobs default_config in_backoff "job_1")
    as (_ & Hheld & _).
  { apply reachable_eval. vm_compute. reflexivity. }
  destruct (getJobStatus_finds_held_jobs default_config in_backoff "job_9")
    as (_ & _ & Hnone).
  { apply reachable_eval. vm_compute. reflexivity. }
  split.
  - apply (Hheld 0%nat
      (mkJob "job_1" "email" "d1" NORMAL RETRYING 1 3 10 101 None (Some "boom"))).
    + vm_compute. reflexivity.
    + reflexivity.
    + right. right. vm_compute. by left.
  - apply Hnone. by_eval.
Defined.

(** X3: a job that is COMPLETED or FAILED is final: whatever happens to
    the scheduler afterwards, the job object is never modified again, no
    further event is emitted for it, and the scheduler holds it in no
    queue, no running call and no timer. *)
Theorem terminal_job_is_final c s r j evs :
  reachable c s → jobs s !! r = Some j → terminal j → all_enabled s evs →
  jobs (run s evs) !! r = Some j ∧
  untracked r (run s evs) ∧
  (∀ name, (name, r) ∈ emitted (run s evs) → (name, r) ∈ emitted s).
Proof.
  intros Hs Hj Hterm Hen.
  pose proof (wf_reachable c s Hs) as Hwf.
  destruct (run_untracked s evs r j Hwf Hen Hj) as (Hun & Hj' & Hem); [|done].
  by eapply terminal_untracked.
Qed.

Lemma terminal_job_is_final_witness :
  let s := run (new default_config) scenario_B in
  jobs (run s [AddJob "x" "d2" HIGH "job_2" 4000; Tick 4100; Tick 4200]) !! 0%nat
  = Some (mkJob "job_1" "x" "d" NORMAL FAILED 3 3 10 3301 None (Some "third")).
Proof.
  intros s.
  apply (terminal_job_is_final default_config s 0%nat _
           [AddJob "x" "d2" HIGH "job_2" 4000; Tick 4100; Tick 4200]).
  - apply reachable_eval. vm_compute. reflexivity.
  - vm_compute. reflexivity.
  - right. reflexivity.
  - by_eval.
Defined.

(** X4: what [getJobStatus] says about a finished job, from then on: a
    FAILED job is not found any more ([undefined]), since the failure
    branch removes it from the active set and it is in no queue; a
    COMPLETED job is found for ever, since the success path leaves it in
    the active set. *)
Theorem getJobStatus_of_finished_job c s r j evs :
  reachable c s → jobs s !! r = Some j → all_enabled s evs →
  (status j = FAILED → getJobStatus (id j) (run s evs) = None) ∧
  (status j = COMPLETED → getJobStatus (id j) (run s evs) = Some r).
Proof.
  intros Hs Hj Hen.
  pose proof (wf_reachable c s Hs) as Hwf.
  pose proof (reachable_run c s evs Hs Hen) as Hs'.
  pose proof (wf_reachable c _ Hs') as Hwf'.
  pose proof (active_ok_reachable c _ Hs') as Hact'.
  pose proof (status_active_reachable c _ Hs') as Hsa'.
  split; intros Hst.
  - destruct (run_untracked s evs r j Hwf Hen Hj) as (Hun & Hj' & _).
    { eapply terminal_untracked; [done..|by right]. }
    apply (getJobStatus_not_found _ r j Hwf' Hact' Hj'); [|done].
    by apply (sa_failed _ Hsa' r j).
  - destruct (run_untracked s evs r j Hwf Hen Hj) as (Hun & Hj' & _).
    { eapply terminal_untracked; [done..|by left]. }
    apply (getJobStatus_found _ r j Hwf' Hact' Hj'). left.
    by apply (sa_completed _ Hsa' r j).
Qed.

Lemma getJobStatus_of_finished_job_witness :
  getJobStatus "job_1" (run (new default_config) scenario_B) = None ∧
  getJobStatus "job_1" (run (run (new one_slot) one_completed) [Tick 200]) = Some 0%nat.
Proof.
  split.
  - apply (getJobStatus_of_finished_job default_config
             (run (new default_config) scenario_B) 0%nat
             (mkJob "job_1" "x" "d" NORMAL FAILED 3 3 10 3301 None (Some "third")) []).
    + apply reachable_eval. vm_compute. reflexivity.
    + vm_compute. reflexivity.
    + exact I.
    + reflexivity.
  - apply (getJobStatus_of_finished_job one_slot
             (run (new one_slot) one_completed) 0%nat
             (mkJob "job_1" "email" "d1" NORMAL COMPLETED 1 3 10 150 (Some 150) None)
             [Tick 200]).
    + apply reachable_eval. vm_compute. reflexivity.
    + vm_compute. reflexivity.
    + by_eval.
    + reflexivity.
Defined.



(** X6: one job per type.  In a reachable scheduler a type is marked
    in-flight exactly when the processor of a job of that type is running,
    two distinct jobs whose status is PROCESSING never have the same
    type, and a job is PROCESSING exactly when its processor is running. *)
Theorem one_running_job_per_type c s :
  reachable c s →
  (∀ k, k ∈ processing s ↔
        ∃ r j, jobs s !! r = Some j ∧ type j = k ∧ status j = PROCESSING) ∧
  (∀ r1 r2 j1 j2, jobs s !! r1 = Some j1 → jobs s !! r2 = Some j2 →
     status j1 = PROCESSING → status j2 = PROCESSING → type j1 = type j2 → r1 = r2) ∧
  (∀ r j, jobs s !! r = Some j → (status j = PROCESSING ↔ r ∈ awaiting s)).
Proof.
  intros Hs.
  pose proof (wf_reachable c s Hs) as Hwf.
  destruct (one_per_type_reachable c s Hs) as [Hm Hr Hu].
  pose proof (running_awaited_reachable c s Hs) as Hrun.
  assert (Hiff : ∀ r j, jobs s !! r = Some j → (status j = PROCESSING ↔ r ∈ awaiting s)).
  { intros r j Hj. split; [by apply Hrun|].
    intros Ha. destruct (wf_awaiting s Hwf r Ha) as (_ & j' & Hj' & Hst & _).
    by simplify_eq. }
  split_and!; [|
    |done].
  - intros k. split.
    + intros Hk. destruct (Hr k Hk) as (r & j & Ha & Hj & Hty).
      exists r, j. split_and!; [done..|]. by apply (Hiff r j).
    + intros (r & j & Hj & <- & Hst). apply (Hm r j); [|done]. by apply (Hiff r j).
  - intros r1 r2 j1 j2 Hj1 Hj2 Hst1 Hst2 Hty.
    apply (Hu r1 r2 j1 j2); [by apply (Hiff r1 j1)|by apply (Hiff r2 j2)|done..].
Qed.

(** X7: who holds a job.  In a reachable scheduler a job is in at most
    one place: in the queue of its own type, once (PENDING or RETRYING),
    or awaited by one running [processJob] call (PROCESSING, and in the
    active set), or under one backoff timer (RETRYING, and in the active
    set). *)
Theorem job_has_one_holder c s r j :
  reachable c s → jobs s !! r = Some j →
  (∀ k q, Map_get k (queues s) = Some q → r ∈ q →
     k = type j ∧ NoDup q ∧ (status j = PENDING ∨ status j = RETRYING) ∧
     (r ∉ awaiting s) ∧ (r ∉ (timers s).*1)) ∧
  (r ∈ awaiting s →
     status j = PROCESSING ∧ activeJobs s !! id j = Some r ∧ (r ∉ (timers s).*1)) ∧
  (r ∈ (timers s).*1 → status j = RETRYING ∧ activeJobs s !! id j = Some r) ∧
  NoDup (awaiting s) ∧ NoDup (timers s).*1.
Proof.
  intros Hs Hj. pose proof (wf_reachable c s Hs) as Hwf. split_and!.
  - intros k q Hq Hr. destruct (wf_queue s Hwf k q Hq) as [Hnd Hmem].
    destruct (Hmem r Hr) as (Ha & Ht & j' & Hj' & Hty & Hst).
    rewrite Hj in Hj'. injection Hj' as <-. done.
  - intros Ha. destruct (wf_awaiting s Hwf r Ha) as (Ht & j' & Hj' & Hst & Hin).
    rewrite Hj in Hj'. injection Hj' as <-. done.
  - intros Ht. destruct (wf_timers s Hwf r Ht) as (j' & Hj' & Hst & Hin).
    rewrite Hj in Hj'. injection Hj' as <-. done.
  - apply Hwf.
  - apply Hwf.
Qed.

(** X8: the life cycle of a job.  One event of a reachable scheduler
    either leaves a job object as it is or moves its status along
    PENDING/RETRYING -> PROCESSING -> COMPLETED/RETRYING/FAILED; the
    attempts grow by one exactly on the move to PROCESSING, and [id],
    [type], [data], [priority], [maxAttempts] and [createdAt] never
    change. *)
Theorem job_life_cycle c s ev r j :
  reachable c s → enabled s ev → jobs s !! r = Some j →
  ∃ j', jobs (step s ev) !! r = Some j' ∧
    (j' = j ∨
     (transition (status j) (status j') ∧
      attempts j' = attempts j + (if decide (status j' = PROCESSING) then 1 else 0))) ∧
    id j' = id j ∧ type j' = type j ∧ data j' = data j ∧ priority j' = priority j ∧
    maxAttempts j' = maxAttempts j ∧ createdAt j' = createdAt j.
Proof.
  intros Hs Hen Hj. pose proof (wf_reachable c s Hs) as Hwf.
  destruct (step_job s ev r j Hwf Hen Hj) as (j' & Hj' & Hcase).
  destruct (step_job_immutable s ev r j Hwf Hen Hj) as (j'' & Hj'' & Him).
  rewrite Hj' in Hj''. injection Hj'' as <-.
  exists j'. split_and!; [done| |apply Him..].
  destruct ev as [ty d p jobId now|ty p|now|r0 now1 now2|r0 e now|r0|];
    try (by left).
  - destruct Hcase as [->|(_ & _ & Hst & ->)]; [by left|right]. simpl.
    split; [by destruct Hst as [-> | ->]|done].
  - case_decide; [|by left]. destruct Hcase as [Hst ->]. right. simpl.
    rewrite Hst. split; [done|lia].
  - case_decide; [|by left]. destruct Hcase as [Hst ->]. right.
    rewrite failed_with_status, Hst. unfold failed_with. simpl.
    destruct (_ <? _); simpl; split; try done; lia.
Qed.



Lemma one_running_job_per_type_witness :
  let s := run (new default_config)
             [RegisterProcessor "email" 0%nat;
              AddJob "email" "d1" NORMAL "job_1" 10;
              AddJob "email" "d2" NORMAL "job_2" 11; Tick 100] in
  "email" ∈ processing s ∧ 0%nat ∈ awaiting s.
Proof.
  intros s.
  destruct (one_running_job_per_type default_config s) as (Hmark & _ & Hiff).
  - apply reachable_eval. vm_compute. reflexivity.
  - split.
    + apply Hmark.
      exists 0%nat, (mkJob "job_1" "email" "d1" NORMAL PROCESSING 1 3 10 100 None None).
      split_and!; [vm_compute|..]; reflexivity.
    + apply (Hiff 0%nat (mkJob "job_1" "email" "d1" NORMAL PROCESSING 1 3 10 100 None None));
        [vm_compute|]; reflexivity.
Defined.

Lemma job_has_one_holder_witness :
  activeJobs in_backoff !! "job_1" = Some 0%nat ∧ NoDup (awaiting in_backoff).
Proof.
  destruct (job_has_one_holder default_config in_backoff 0%nat
    (mkJob "job_1" "email" "d1" NORMAL RETRYING 1 3 10 101 None (Some "boom")))
    as (_ & _ & Ht & Hnd & _).
  - apply reachable_eval. vm_compute. reflexivity.
  - vm_compute. reflexivity.
  - split; [|exact Hnd]. apply Ht. by_eval.
Defined.

Lemma job_life_cycle_witness :
  ∃ j', jobs (step in_backoff (Tick 200)) !! 1%nat = Some j' ∧
        type j' = "email" ∧ createdAt j' = 11.
Proof.
  destruct (job_life_cycle default_config in_backoff (Tick 200) 1%nat
    (mkJob "job_2" "email" "d2" NORMAL PENDING 0 3 11 11 None None))
    as (j' & Hj' & _ & _ & Hty & _ & _ & _ & Hc).
  - apply reachable_eval. vm_compute. reflexivity.
  - exact I.
  - vm_compute. reflexivity.
  - exists j'. split_and!; [exact Hj'|exact Hty|exact Hc].
Defined.


(** *** Statistics *)
Lemma foldl_add_length {A} (l : list (list A)) (n : nat) :
  foldl (fun sum (queue : list A) => (sum + length queue)%nat) n l
  = (n + sum_list (length <$> l))%nat.
Proof.
  revert n. induction l as [|q l IH]; intros n; csimpl; [lia|].
  rewrite IH. lia.
Qed.

Lemma totalPending_eq s :
  Stats.totalPending (getStats s) = sum_list (length <$> (queues s).*2).
Proof. unfold getStats. simpl. by rewrite foldl_add_length. Qed.

Lemma sum_lengths_Map_set {A} k (v : list A) (m : list (string * list A)) :
  (sum_list (length <$> (Map_set k v m).*2) + length (default [] (Map_get k m))
   = sum_list (length <$> m.*2) + length v)%nat.
Proof.
  induction m as [|[k' v'] m IH]; csimpl; [lia|].
  destruct (decide (k' = k)) as [->|Hne]; csimpl; lia.
Qed.

Lemma getStats_types s :
  QueueStat.type <$> Stats.queues (getStats s) = (queues s).*1.
Proof.
  unfold getStats. simpl. rewrite <- list_fmap_compose. by apply list_fmap_ext.
Qed.

(** X10: the totals of [getStats], on any scheduler state.  The list
    of per-type entries follows the queue map, one entry per type in map
    order; [totalPending] is the sum of the [pending] fields; every
    [processing] field is 0 or 1, and is 1 exactly when the type is
    marked in-flight; [activeJobs] is the size of the active set. *)
Theorem getStats_totals (s : State) :
  QueueStat.type <$> Stats.queues (getStats s) = (queues s).*1 ∧
  QueueStat.pending <$> Stats.queues (getStats s) = length <$> (queues s).*2 ∧
  Stats.totalPending (getStats s)
    = sum_list (QueueStat.pending <$> Stats.queues (getStats s)) ∧
  Forall (fun q => QueueStat.processing q = 1%nat ∧ QueueStat.type q ∈ processing s ∨
                   QueueStat.processing q = 0%nat ∧ QueueStat.type q ∉ processing s)
         (Stats.queues (getStats s)) ∧
  Stats.activeJobs (getStats s) = size (activeJobs s).
Proof.
  assert (Hp : QueueStat.pending <$> Stats.queues (getStats s)
               = length <$> (queues s).*2).
  { unfold getStats. simpl. rewrite <- !list_fmap_compose. by apply list_fmap_ext. }
  split_and!.
  - apply getStats_types.
  - exact Hp.
  - rewrite Hp. apply totalPending_eq.
  - unfold getStats. simpl. apply Forall_fmap, Forall_forall. intros e _. simpl.
    destruct (decide (e.1 ∈ processing s)); [left|right]; done.
  - reflexivity.
Qed.

(** X11: how [addJob] and [clearQueues] show in [getStats], on any
    scheduler state: [addJob] raises [totalPending] by exactly one and
    leaves [activeJobs] as it is; after [clearQueues], [totalPending] is
    zero and every per-type [pending] is zero, while [activeJobs] and the
    [processing] flags are what they were: the jobs in flight are not
    touched. *)
Theorem getStats_addJob_clearQueues (s : State) :
  (∀ ty d p jobId now,
     Stats.totalPending (getStats (addJob ty d p jobId now s))
       = S (Stats.totalPending (getStats s)) ∧
     Stats.activeJobs (getStats (addJob ty d p jobId now s))
       = Stats.activeJobs (getStats s)) ∧
  Stats.totalPending (getStats (clearQueues s)) = 0%nat ∧
  Forall (fun q => QueueStat.pending q = 0%nat) (Stats.queues (getStats (clearQueues s))) ∧
  Stats.activeJobs (getStats (clearQueues s)) = Stats.activeJobs (getStats s) ∧
  QueueStat.processing <$> Stats.queues (getStats (clearQueues s))
    = QueueStat.processing <$> Stats.queues (getStats s).
Proof.
  split_and!.
  - intros ty d p jobId now. split.
    + rewrite !totalPending_eq, addJob_eq. fields.
      pose proof (sum_lengths_Map_set ty
        (sort_queue (jobs s ++ [mkJob jobId ty d p PENDING 0
             (Required.retryAttempts (config s)) now now None None])
           (default [] (Map_get ty (queues s)) ++ [length (jobs s)]))
        (queues s)) as H.
      unfold sort_queue in H at 2.
      rewrite Array_sort_Permutation, length_app in H. simpl in H.
      cbn zeta. lia.
    + by rewrite addJob_eq.
  - rewrite totalPending_eq. unfold clearQueues, set_queues. fields.
    induction (queues s) as [|e m IH]; [done|]. by rewrite !fmap_cons.
  - unfold getStats, clearQueues, set_queues. simpl.
    rewrite <- list_fmap_compose. apply Forall_fmap, Forall_forall. by intros e _.
  - reflexivity.
  - unfold getStats, clearQueues, set_queues. simpl.
    rewrite <- !list_fmap_compose. by apply list_fmap_ext.
Qed.



(** *** The events of a job *)
Lemma events_of_emit s s' name r0 r :
  emitted s' = emitted s ++ [(name, r0)] →
  events_of r s' = events_of r s ++ (if decide (r0 = r) then [name] else []).
Proof.
  intros He. unfold events_of. rewrite He, filter_app, fmap_app. f_equal.
  destruct (decide (r0 = r)) as [->|Hne].
  - by rewrite filter_cons_True.
  - by rewrite filter_cons_False.
Qed.

Lemma events_of_same s s' r : emitted s' = emitted s → events_of r s' = events_of r s.
Proof. intros He. unfold events_of. by rewrite He. Qed.

Lemma occurrences_app name l1 l2 :
  occurrences name (l1 ++ l2) = occurrences name l1 + occurrences name l2.
Proof. unfold occurrences. rewrite filter_app, length_app. lia. Qed.

Lemma head_snoc_Some {A} (l : list A) x y : head l = Some x → head (l ++ [y]) = Some x.
Proof. by destruct l. Qed.

Lemma events_of_unallocated s r :
  (∀ name r', (name, r') ∈ emitted s → (r' < length (jobs s))%nat) →
  (length (jobs s) ≤ r)%nat → events_of r s = [].
Proof.
  intros Hal Hr. unfold events_of.
  destruct (filter _ (emitted s)) as [|[name r'] l] eqn:E; [done|].
  assert (Hin : (name, r') ∈ filter (fun e : string * nat => e.2 = r) (emitted s)).
  { rewrite E. by left. }
  apply list_elem_of_filter in Hin as [Heq Hin]. simpl in Heq. subst r'.
  specialize (Hal name r Hin). lia.
Qed.

Lemma events_ok_new c : events_ok (new c).
Proof.
  split; simpl.
  - intros name r Hin. inversion Hin.
  - intros r j Hj. by rewrite lookup_nil in Hj.
Qed.

(** One job changes and one event is emitted for it. *)
Lemma events_ok_update s s' r0 j0 j0' name st :
  events_ok s → jobs s !! r0 = Some j0 →
  jobs s' = <[r0 := j0']> (jobs s) →
  emitted s' = emitted s ++ [(name, r0)] →
  announced name = Some st → status j0' = st → name ≠ "job:added" →
  attempts j0' = attempts j0 + (if decide (name = "job:processing") then 1 else 0) →
  events_ok s'.
Proof.
  intros [Hal Hev] Hj0 Hjobs Hem Hann Hst Hname Hatt.
  assert (Hlt : (r0 < length (jobs s))%nat) by (eapply lookup_lt_Some; eauto).
  split.
  - rewrite Hjobs, Hem, length_insert.
    intros n r [Hin|[= -> ->]%list_elem_of_singleton]%elem_of_app; eauto.
  - intros r j'. rewrite Hjobs, (events_of_emit s s' name r0 r Hem).
    destruct (decide (r0 = r)) as [<-|Hne].
    + rewrite list_lookup_insert_eq by done. intros [= <-].
      destruct (Hev r0 j0 Hj0) as (_ & Hhead & Hcount & Hadded).
      split_and!.
      * exists name. rewrite last_snoc. by rewrite Hst.
      * by apply head_snoc_Some.
      * rewrite occurrences_app, Hatt, Hcount. f_equal.
        unfold occurrences. destruct (decide (name = "job:processing")) as [->|Hn].
        -- by rewrite filter_cons_True.
        -- by rewrite filter_cons_False.
      * rewrite occurrences_app, Hadded. unfold occurrences.
        by rewrite filter_cons_False.
    + rewrite list_lookup_insert_ne by done. rewrite app_nil_r. apply Hev.
Qed.

Lemma events_ok_frame s s' :
  events_ok s → jobs s' = jobs s → emitted s' = emitted s → events_ok s'.
Proof.
  intros [Hal Hev] Hjobs Hem. split.
  - rewrite Hjobs, Hem. exact Hal.
  - intros r j. rewrite Hjobs, (events_of_same s s' r Hem). apply Hev.
Qed.

Lemma events_ok_step s ev :
  wf s → enabled s ev → events_ok s → events_ok (step s ev).
Proof.
  intros Hwf Hen Hok.
  destruct ev as [ty d p jobId now|ty p|now|r0 now1 now2|r0 e now|r0|];
    cbn [step enabled] in *.
  - destruct Hok as [Hal Hev].
    set (s' := addJob ty d p jobId now s).
    assert (Hjobs : jobs s' = jobs s ++
              [mkJob jobId ty d p PENDING 0 (Required.retryAttempts (config s))
                     now now None None]).
    { unfold s'. by rewrite addJob_eq. }
    assert (Hem : emitted s' = emitted s ++ [("job:added", length (jobs s))]).
    { unfold s'. by rewrite addJob_eq. }
    split.
    + rewrite Hjobs, Hem, length_app. simpl.
      intros n r [Hin|[= -> ->]%list_elem_of_singleton]%elem_of_app;
        [specialize (Hal n r Hin)|]; lia.
    + intros r j'. rewrite Hjobs, (events_of_emit s s' _ _ r Hem).
      intros [[Hlt Hj]|[-> <-]]%lookup_snoc_Some.
      * rewrite decide_False by lia. rewrite app_nil_r. by apply Hev.
      * rewrite decide_True by done.
        rewrite (events_of_unallocated s (length (jobs s)) Hal) by lia.
        simpl. split_and!; try done. by exists "job:added".
  - by apply (events_ok_frame s).
  - unfold processJobs. destruct (_ >=? _); [done|].
    destruct (getNextJob s) as [r0|] eqn:Hnext; [|done].
    destruct (getNextJob_wf s r0 Hwf Hnext) as (j0 & q & Hj0 & Hq & _).
    rewrite Hj0. destruct (processors s !! type j0).
    + apply (events_ok_update s _ r0 j0 (started now j0) "job:processing" PROCESSING);
        try done; by rewrite (processJob_begin_eq r0 j0 q).
    + apply (events_ok_frame s); [done|..];
        by rewrite (removeJobFromQueue_head r0 j0 q).
  - destruct (wf_awaiting s Hwf r0 Hen) as (_ & j0 & Hj0 & _).
    apply (events_ok_update s _ r0 j0 (completed now1 now2 j0) "job:completed" COMPLETED);
      try done; try (by rewrite (processJob_resolved_eq r0 j0)).
    simpl. lia.
  - destruct (wf_awaiting s Hwf r0 Hen) as (_ & j0 & Hj0 & _).
    destruct (attempts j0 <? maxAttempts j0) eqn:Hlt.
    + apply (events_ok_update s _ r0 j0 (failed_with e now j0) "job:retrying" RETRYING);
        try done; try (by rewrite (processJob_rejected_eq r0 j0), ?Hlt).
      * by rewrite failed_with_status, Hlt.
      * simpl. lia.
    + apply (events_ok_update s _ r0 j0 (failed_with e now j0) "job:failed" FAILED);
        try done; try (by rewrite (processJob_rejected_eq r0 j0), ?Hlt).
      * by rewrite failed_with_status, Hlt.
      * simpl. lia.
  - destruct (wf_timers s Hwf r0 Hen) as (j0 & Hj0 & _).
    destruct (wf_has_queue s Hwf r0 j0 Hj0) as [q Hq].
    apply (events_ok_frame s); [done|..]; by rewrite (retry_callback_eq r0 j0 q).
  - by apply (events_ok_frame s).
Qed.

Lemma events_ok_reachable c s : reachable c s → events_ok s.
Proof.
  induction 1 as [|s ev Hs IH Hen]; [apply events_ok_new|].
  apply events_ok_step; [by eapply wf_reachable|done..].
Qed.

(** X26: the events of a job tell its story.  In a reachable scheduler
    the events emitted for a job start with ['job:added'], which is
    emitted once; the event emitted last announces the status the job has
    now (added: PENDING, processing: PROCESSING, completed: COMPLETED,
    retrying: RETRYING, failed: FAILED); and [attempts] is the number of
    ['job:processing'] events of the job.  Events are emitted only for
    jobs that exist. *)
Theorem events_announce_status c s r j :
  reachable c s → jobs s !! r = Some j →
  (∃ name, last (events_of r s) = Some name ∧ announced name = Some (status j)) ∧
  head (events_of r s) = Some "job:added" ∧
  occurrences "job:added" (events_of r s) = 1 ∧
  attempts j = occurrences "job:processing" (events_of r s) ∧
  (∀ name r', (name, r') ∈ emitted s → is_Some (jobs s !! r')).
Proof.
  intros Hs Hj. destruct (events_ok_reachable c s Hs) as [Hal Hev].
  destruct (Hev r j Hj) as (? & ? & ? & ?). split_and!; try done.
  intros name r' Hin. apply lookup_lt_is_Some. eauto.
Qed.

Lemma events_announce_status_witness :
  events_of 0%nat (run (new default_config) scenario_B)
  = ["job:added"; "job:processing"; "job:retrying"; "job:processing"; "job:retrying";
     "job:processing"; "job:failed"] ∧
  3 = occurrences "job:processing" (events_of 0%nat (run (new default_config) scenario_B)).
Proof.
  split; [vm_compute; reflexivity|].
  apply (events_announce_status default_config (run (new default_config) scenario_B)
           0%nat (mkJob "job_1" "x" "d" NORMAL FAILED 3 3 10 3301 None (Some "third"))).
  - apply reachable_eval. vm_compute. reflexivity.
  - vm_compute. reflexivity.
Defined.

(** *** The dispatch order of the types *)

(** X27: the iteration order of the queue map, which breaks ties between
    heads of equal priority.  A type gets its queue at the end of the
    map when the first job of the type is added, and nothing ever
    removes or moves a queue: one event of a reachable scheduler leaves
    the list of types as it is, except that [addJob] of a type that has
    no queue yet appends that type. *)
Theorem queue_order_is_first_use_order c s ev :
  reachable c s → enabled s ev →
  (queues (step s ev)).*1 =
  (queues s).*1 ++
    match ev with
    | AddJob ty _ _ _ _ => if Map_has ty (queues s) then [] else [ty]
    | _ => []
    end.
Proof.
  intros Hs Hen. pose proof (wf_reachable c s Hs) as Hwf.
  destruct ev as [ty d p jobId now|ty p|now|r0 now1 now2|r0 e now|r0|];
    cbn [step enabled] in *.
  - rewrite addJob_eq. fields. destruct (Map_has ty (queues s)) eqn:Hhas.
    + apply Map_has_true in Hhas. rewrite app_nil_r. by apply Map_set_keys_present.
    + apply Map_has_false in Hhas. by apply Map_set_keys_absent.
  - by rewrite app_nil_r.
  - rewrite app_nil_r. unfold processJobs. destruct (_ >=? _); [done|].
    destruct (getNextJob s) as [r0|] eqn:Hnext; [|done].
    destruct (getNextJob_wf s r0 Hwf Hnext) as (j0 & q & Hj0 & Hq & _).
    rewrite Hj0. destruct (processors s !! type j0).
    + rewrite (processJob_begin_eq r0 j0 q) by done. fields.
      apply Map_set_keys_present. by rewrite Hq.
    + rewrite (removeJobFromQueue_head r0 j0 q) by done. unfold set_queues. fields.
      apply Map_set_keys_present. by rewrite Hq.
  - rewrite app_nil_r.
    destruct (wf_awaiting s Hwf r0 Hen) as (_ & j0 & Hj0 & _).
    by rewrite (processJob_resolved_eq r0 j0).
  - rewrite app_nil_r.
    destruct (wf_awaiting s Hwf r0 Hen) as (_ & j0 & Hj0 & _).
    by rewrite (processJob_rejected_eq r0 j0).
  - rewrite app_nil_r.
    destruct (wf_timers s Hwf r0 Hen) as (j0 & Hj0 & _).
    destruct (wf_has_queue s Hwf r0 j0 Hj0) as [q Hq].
    rewrite (retry_callback_eq r0 j0 q) by done. fields.
    apply Map_set_keys_present. by rewrite Hq.
  - rewrite app_nil_r. unfold clearQueues, set_queues. fields.
    rewrite <- list_fmap_compose. by apply list_fmap_ext.
Qed.

Lemma queue_order_is_first_use_order_witness :
  (queues (step in_backoff (AddJob "sms" "d3" CRITICAL "job_3" 300))).*1
  = ["email"; "sms"].
Proof.
  apply (queue_order_is_first_use_order default_config in_backoff
           (AddJob "sms" "d3" CRITICAL "job_3" 300)).
  - apply reachable_eval. vm_compute. reflexivity.
  - by_eval.
Defined.

(** *** Removing a job from its queue *)
Lemma findIndex_middle {A} (p : A → bool) l1 x l2 :
  (∀ y, y ∈ l1 → p y = false) → p x = true →
  findIndex p (l1 ++ x :: l2) = Some (length l1).
Proof.
  intros Hl1 Hx. induction l1 as [|y l1 IH]; simpl.
  - by rewrite Hx.
  - rewrite (Hl1 y) by (by left). rewrite IH; [done|].
    intros z Hz. apply Hl1. by right.
Qed.

Lemma findIndex_None {A} (p : A → bool) l :
  (∀ y, y ∈ l → p y = false) → findIndex p l = None.
Proof.
  intros Hl. induction l as [|y l IH]; simpl; [done|].
  rewrite (Hl y) by (by left). rewrite IH; [done|].
  intros z Hz. apply Hl. by right.
Qed.

(** X28: [removeJobFromQueue], in a reachable scheduler.  It looks the
    job up by its id in the queue of its type and removes that one entry,
    wherever it stands, leaving the order of the others and every other
    queue as they are; when the job is not in the queue of its type
    nothing changes. *)
Theorem removeJobFromQueue_removes_the_job c s r j :
  reachable c s → jobs s !! r = Some j →
  (∀ q1 q2, Map_get (type j) (queues s) = Some (q1 ++ r :: q2) →
     removeJobFromQueue r s = set_queues (Map_set (type j) (q1 ++ q2)) s ∧
     (r ∉ q1 ++ q2) ∧
     ∀ k, k ≠ type j →
       Map_get k (queues (removeJobFromQueue r s)) = Map_get k (queues s)) ∧
  ((∀ q, Map_get (type j) (queues s) = Some q → r ∉ q) →
     removeJobFromQueue r s = s).
Proof.
  intros Hs Hj. pose proof (wf_reachable c s Hs) as Hwf.
  assert (Hother : ∀ q x, Map_get (type j) (queues s) = Some q → x ∈ q → x ≠ r →
            bool_decide (id <$> jobs s !! x = Some (id j)) = false).
  { intros q x Hq Hx Hne. apply bool_decide_eq_false. intros Hid.
    destruct (wf_queue s Hwf _ _ Hq) as [_ Hmem].
    destruct (Hmem x Hx) as (_ & _ & jx & Hjx & _).
    rewrite Hjx in Hid. injection Hid as Hid.
    apply Hne. eapply ids_inj; [apply Hwf|exact Hjx|exact Hj|exact Hid]. }
  split.
  - intros q1 q2 Hq.
    destruct (wf_queue s Hwf _ _ Hq) as [Hnd _].
    apply NoDup_app in Hnd as (_ & Hdisj & Hnd2).
    apply NoDup_cons in Hnd2 as [Hr2 _].
    assert (Heq : removeJobFromQueue r s = set_queues (Map_set (type j) (q1 ++ q2)) s).
    { unfold removeJobFromQueue. rewrite Hj, Hq.
      rewrite (findIndex_middle _ q1 r q2).
      - by rewrite delete_middle.
      - intros y Hy. apply (Hother _ y Hq).
        + apply elem_of_app. by left.
        + intros ->. apply (Hdisj r Hy). by left.
      - apply bool_decide_eq_true. by rewrite Hj. }
    split_and!.
    + exact Heq.
    + intros [Hin|Hin]%elem_of_app; [|done]. apply (Hdisj r Hin). by left.
    + intros k Hk. rewrite Heq. unfold set_queues. fields.
      by apply Map_get_set_ne.
  - intros Hno. unfold removeJobFromQueue. rewrite Hj.
    destruct (Map_get (type j) (queues s)) as [q|] eqn:Hq; [|done].
    rewrite findIndex_None; [done|].
    intros y Hy. apply (Hother q y eq_refl Hy). intros ->. by apply (Hno q).
Qed.

Lemma removeJobFromQueue_removes_the_job_witness :
  let s := run (new default_config) scenario_A in
  queues (removeJobFromQueue 1%nat s) = [("email", [0%nat])].
Proof.
  intros s.
  destruct (removeJobFromQueue_removes_the_job default_config s 1%nat
    (mkJob "job_2" "email" "d2" LOW PENDING 0 3 11 11 None None)) as [H _].
  - apply reachable_eval. vm_compute. reflexivity.
  - vm_compute. reflexivity.
  - destruct (H [0%nat] []) as (-> & _); [vm_compute; reflexivity|].
    vm_compute. reflexivity.
Defined.

End QueueExtras.

(** ** Further properties of the dispatcher *)
Module NotificationExtras.
Import NotificationService NotificationFacts NotificationQueries.

(** *** The channel registry *)
Lemma Map_get_delete {V} k k' (m : list (string * V)) :
  Map_get k' (Map_delete k m) = if decide (k = k') then None else Map_get k' m.
Proof.
  unfold Map_delete. induction m as [|[k0 v0] m IH]; simpl.
  - by case_decide.
  - destruct (decide (k0 = k)) as [->|Hne].
    + rewrite filter_cons_False by (simpl; auto). rewrite IH.
      by destruct (decide (k = k')).
    + rewrite filter_cons_True by done. simpl. rewrite IH.
      destruct (decide (k0 = k')) as [->|Hne'], (decide (k = k')); congruence.
Qed.

Lemma elem_of_Map_set {V} k (v : V) m e :
  e ∈ Map_set k v m → e = (k, v) ∨ e ∈ m.
Proof.
  induction m as [|[k0 v0] m IH]; simpl.
  - intros ->%list_elem_of_singleton. by left.
  - destruct (decide (k0 = k)) as [->|Hne].
    + intros [->|He]%elem_of_cons; [by left|]. right. by right.
    + intros [->|He]%elem_of_cons; [right; by left|].
      destruct (IH He) as [->|Hin]; [by left|]. right. by right.
Qed.

Lemma Map_delete_keys {V} k (m : list (string * V)) :
  (Map_delete k m).*1 = filter (fun k' => k' ≠ k) m.*1.
Proof.
  unfold Map_delete. induction m as [|[k0 v0] m IH]; [done|].
  rewrite fmap_cons. simpl. destruct (decide (k0 = k)) as [->|Hne].
  - rewrite !filter_cons_False by (simpl; auto). done.
  - rewrite !filter_cons_True by done. rewrite fmap_cons, IH. done.
Qed.

Lemma channels_step s ev :
  channels (step s ev) =
  match ev with
  | AddChannel c => Map_set (Channel.id c) c (channels s)
  | RemoveChannel channelId => Map_delete channelId (channels s)
  | _ => channels s
  end.
Proof.
  destruct ev as [c|channelId|p now|channelId ok| |]; cbn [step]; try done.
  - unfold sendNotification, processQueue, processQueue_loop, after_drain. simpl.
    destruct (processing s); simpl; [done|].
    destruct (bool_decide _); simpl; [done|].
    by destruct (queue s ++ _) as [|[n q] rest].
  - unfold settle. by destruct (drain s).
  - unfold allSettled, processQueue_loop, after_drain.
    destruct (drain s); [|done]. by destruct (queue s) as [|[n q] rest].
Qed.

Lemma registry_ok_new url : registry_ok (new url).
Proof.
  split; rewrite channels_new.
  - destruct (truthy url); simpl.
    + apply NoDup_cons. split; [|apply NoDup_singleton].
      intros Hin%list_elem_of_singleton. discriminate Hin.
    + apply NoDup_singleton.
  - intros e. destruct (truthy url).
    + intros [->|[->|Hin]%elem_of_cons]%elem_of_cons; [done..|inversion Hin].
    + intros ->%list_elem_of_singleton. done.
Qed.

Lemma registry_ok_step s ev : registry_ok s → registry_ok (step s ev).
Proof.
  intros [Hk Hid]. split; rewrite channels_step.
  - destruct ev; try done.
    + by apply Map_set_NoDup.
    + rewrite Map_delete_keys. by apply NoDup_filter.
  - destruct ev; try done.
    + intros e [->|He]%elem_of_Map_set; [done|auto].
    + intros e [_ He]%list_elem_of_filter. auto.
Qed.

Lemma registry_ok_reachable url s : reachable url s → registry_ok s.
Proof.
  induction 1; [apply registry_ok_new|by apply registry_ok_step].
Qed.

(** *** Deliveries, the queue and the log *)
Lemma elem_of_invoked n (l : list Obs) :
  n ∈ omap invoked l ↔ ∃ p c, Invoked n p c ∈ l.
Proof.
  rewrite list_elem_of_omap. split.
  - intros ([m p c| | |] & Hin & Heq); try discriminate Heq.
    injection Heq as ->. eauto.
  - intros (p & c & Hin). by exists (Invoked n p c).
Qed.

Lemma invoked_fanout n p (rs : list (string * Channel.t)) :
  omap invoked (concat ((fun e => deliverToChannel n p e.2) <$> rs))
  = replicate (length rs) n.
Proof.
  induction rs as [|e rs IH]; [done|].
  rewrite fmap_cons. cbn [concat]. rewrite omap_app, IH.
  unfold deliverToChannel. by destruct (Channel.type e.2).
Qed.

Lemma invoked_after_drain caller (l : list Obs) :
  omap invoked (l ++ [Emitted "notification" caller; Resolved caller]) = omap invoked l.
Proof. rewrite omap_app. simpl. by rewrite app_nil_r. Qed.

Lemma StronglySorted_replicate k (n : nat) : StronglySorted le (replicate k n).
Proof.
  induction k as [|k IH]; simpl; constructor; [done|].
  apply Forall_forall. intros x [-> _]%elem_of_replicate. done.
Qed.

Lemma elem_of_remove_pending_ne (x : string * ChannelType) channelId l :
  x ∈ l → x.1 ≠ channelId → x ∈ remove_pending channelId l.
Proof.
  induction l as [|y l IH]; simpl; [done|].
  intros [->|Hin]%elem_of_cons Hne.
  - rewrite decide_False by done. by left.
  - destruct (decide (y.1 = channelId)); [done|]. right. auto.
Qed.

Lemma stamped_stamp now p : stamped (stamp now p).
Proof. split; simpl; eauto. Qed.

Lemma dispatch_ok_new url : dispatch_ok (new url).
Proof.
  assert (Hq : queue (new url) = [] ∧ log (new url) = [] ∧
               processing (new url) = false).
  { unfold new, initializeDefaultChannels. by destruct (truthy url). }
  destruct Hq as (Hq & Hl & Hp). split; rewrite ?Hq, ?Hl, ?Hp.
  - discriminate.
  - intros n p c Hin. inversion Hin.
  - intros n p Hin. inversion Hin.
  - constructor.
  - constructor.
Qed.

(** The loop of [processQueue] takes the next notification and starts its
    deliveries. *)
Lemma dispatch_ok_fanout M rest caller n p K lg :
  (∀ e, e ∈ M → Channel.id e.2 = e.1) → stamped p → (n < K)%nat →
  (∀ m p' c, Invoked m p' c ∈ lg →
     stamped p' ∧ (m < K)%nat ∧ ∃ ok, Settled m (Channel.id c) ok ∈ lg) →
  (∀ m, m ∈ omap invoked lg → (m < n)%nat) →
  (∀ n' p', (n', p') ∈ rest →
     stamped p' ∧ (n' < K)%nat ∧ Emitted "notification" n' ∈ lg ∧ Resolved n' ∈ lg ∧
     (n < n')%nat) →
  StronglySorted lt rest.*1 → StronglySorted le (omap invoked lg) →
  dispatch_ok
    (mkState M rest true K
       (Some (mkDrain caller n ((fun e => (e.1, Channel.type e.2)) <$> recipients p M)))
       (lg ++ concat ((fun e => deliverToChannel n p e.2) <$> recipients p M))).
Proof.
  intros Hid Hp HnK Hold Hlt Hrest Hsorted Hfifo. split; nfields.
  - eauto.
  - intros m p' c [Hin|Hin]%elem_of_app.
    + destruct (Hold m p' c Hin) as (? & ? & ok & Hset).
      split_and!; [done..|]. left. exists ok. apply elem_of_app. by left.
    + apply elem_of_fanout in Hin as (e & He & [Heq|[_ Heq]]); [|discriminate Heq].
      injection Heq as -> -> ->. split_and!; [done..|]. right.
      eexists. split; [reflexivity|]. split; [done|]. simpl.
      apply list_elem_of_fmap. exists e. split; [|done].
      apply elem_of_recipients in He as [_ He]. by rewrite (Hid e He).
  - intros n' p' Hin. destruct (Hrest n' p' Hin) as (? & ? & ? & ? & Hnn').
    split_and!; [done|done|apply elem_of_app; by left|apply elem_of_app; by left|].
    intros m. rewrite omap_app, invoked_fanout.
    intros [Hm|[-> _]%elem_of_replicate]%elem_of_app; [|done].
    specialize (Hlt m Hm). lia.
  - done.
  - rewrite omap_app, invoked_fanout. apply StronglySorted_app. split_and!.
    + intros x1 x2 Hx1 [-> _]%elem_of_replicate. specialize (Hlt x1 Hx1). lia.
    + done.
    + apply StronglySorted_replicate.
Qed.

Lemma dispatch_ok_step s ev :
  wf s → registry_ok s → enabled s ev → dispatch_ok s → dispatch_ok (step s ev).
Proof.
  intros Hwf [_ Hid] Hen Hok. pose proof Hok as [Hbusy Hinv Hqueue Hsorted Hfifo].
  destruct ev as [c|channelId|p now|channelId ok| |]; cbn [step enabled] in *.
  - by split.
  - by split.
  - destruct (processing s) eqn:Hp.
    + rewrite sendNotification_busy by done. split; nfields.
      * auto.
      * intros n p' c [Hin|[?|?]]%elem_of_after_drain; [|discriminate..].
        destruct (Hinv n p' c Hin) as (? & ? & Hcase).
        split_and!; [done|lia|].
        destruct Hcase as [[ok Hset]|Hpend]; [left|by right].
        exists ok. apply elem_of_app. by left.
      * intros n p' [Hin|Hin%list_elem_of_singleton]%elem_of_app.
        -- destruct (Hqueue n p' Hin) as (? & ? & ? & ? & Hm).
           rewrite invoked_after_drain.
           split_and!; [done|lia|apply elem_of_app; by left..|done].
        -- injection Hin as -> ->. rewrite invoked_after_drain.
           split_and!; [apply stamped_stamp|lia| | |].
           ++ apply elem_of_after_drain. right. by left.
           ++ apply elem_of_after_drain. right. by right.
           ++ intros m (p' & c & Hm)%elem_of_invoked.
              by destruct (Hinv m p' c Hm) as (_ & ? & _).
      * rewrite fmap_app. apply StronglySorted_app. split_and!.
        -- intros x1 x2 ([n p'] & -> & Hin)%list_elem_of_fmap ->%list_elem_of_singleton.
           by destruct (Hqueue n p' Hin) as (_ & ? & _).
        -- done.
        -- repeat constructor.
      * by rewrite invoked_after_drain.
    + assert (Hq : queue s = []) by (by apply Hwf).
      assert (Hd : drain s = None).
      { destruct (drain s) eqn:E; [|done].
        assert (processing s = true) by (apply Hwf; by rewrite E). congruence. }
      rewrite sendNotification_idle by done. cbn zeta.
      apply dispatch_ok_fanout.
      * done.
      * apply stamped_stamp.
      * lia.
      * intros m p' c Hin. destruct (Hinv m p' c Hin) as (? & ? & [Hset|Hpend]).
        -- split_and!; [done|lia|done].
        -- destruct Hpend as (d & Hd' & _). congruence.
      * intros m (p' & c & Hm)%elem_of_invoked.
        by destruct (Hinv m p' c Hm) as (_ & ? & _).
      * intros n' p' Hin. inversion Hin.
      * constructor.
      * done.
  - destruct Hen as (d & ty & Hd & Hin & _). unfold settle. rewrite Hd.
    assert (Hinv' : omap invoked (log s ++ [Settled (current d) channelId ok])
                    = omap invoked (log s)).
    { rewrite omap_app. simpl. by rewrite app_nil_r. }
    split; nfields.
    + eauto.
    + intros n p c [Hn|Hn%list_elem_of_singleton]%elem_of_app; [|discriminate Hn].
      destruct (Hinv n p c Hn) as (? & ? & Hcase). split_and!; [done..|].
      destruct Hcase as [[ok' Hset]|(d' & Hd' & Hcur & Hpend)].
      * left. exists ok'. apply elem_of_app. by left.
      * rewrite Hd in Hd'. injection Hd' as <-.
        destruct (decide (Channel.id c = channelId)) as [Heq|Hne].
        -- left. exists ok. apply elem_of_app. right.
           apply list_elem_of_singleton. by rewrite Heq, Hcur.
        -- right. eexists. split; [reflexivity|]. split; [done|]. simpl.
           by apply elem_of_remove_pending_ne.
    + intros n p Hn. rewrite Hinv'.
      destruct (Hqueue n p Hn) as (? & ? & ? & ? & ?).
      split_and!; [done|done|apply elem_of_app; by left..|done].
    + done.
    + by rewrite Hinv'.
  - destruct Hen as (d & Hd & Hpend). unfold allSettled. rewrite Hd.
    assert (Hp : processing s = true) by (apply Hwf; by rewrite Hd).
    assert (Hsettled : ∀ m p' c, Invoked m p' c ∈ log s →
              stamped p' ∧ (m < calls s)%nat ∧ ∃ ok, Settled m (Channel.id c) ok ∈ log s).
    { intros m p' c Hin. destruct (Hinv m p' c Hin) as (? & ? & [Hset|Hcase]); [done|].
      destruct Hcase as (d' & Hd' & _ & Hmem).
      rewrite Hd in Hd'. injection Hd' as <-. rewrite Hpend in Hmem. inversion Hmem. }
    destruct (queue s) as [|[n p] rest] eqn:Hq.
    + rewrite processQueue_loop_done by done. split; nfields.
      * discriminate.
      * intros m p' c [Hin|[?|?]]%elem_of_after_drain; [|discriminate..].
        destruct (Hsettled m p' c Hin) as (? & ? & ok & Hset).
        split_and!; [done..|]. left. exists ok. apply elem_of_app. by left.
      * intros n p Hin. inversion Hin.
      * constructor.
      * by rewrite invoked_after_drain.
    + rewrite (processQueue_loop_next _ n p rest) by done. cbn zeta. rewrite Hp.
      rewrite fmap_cons in Hsorted. apply StronglySorted_cons in Hsorted as [Hhead Hsorted].
      destruct (Hqueue n p) as (? & ? & _ & _ & Hm); [by left|].
      apply dispatch_ok_fanout; try done.
      intros n' p' Hin. destruct (Hqueue n' p') as (? & ? & ? & ? & _); [by right|].
      split_and!; [done..|].
      rewrite Forall_forall in Hhead. apply Hhead.
      apply list_elem_of_fmap. by exists (n', p').
  - split; nfields; try done.
    + intros n p Hin. inversion Hin.
    + constructor.
Qed.

Lemma dispatch_ok_reachable url s : reachable url s → dispatch_ok s.
Proof.
  induction 1 as [|s ev Hs IH Hen]; [apply dispatch_ok_new|].
  apply dispatch_ok_step;
    [by eapply dispatcher_wf_reachable|by eapply registry_ok_reachable|done..].
Qed.

(** Closed decidable facts are settled by evaluation. *)
Ltac by_eval := refine (bool_decide_eq_true_1 _ _); vm_compute; reflexivity.

Lemma dispatcher_reachable_eval url evs :
  bool_decide (all_enabled (new url) evs) = true → reachable url (run (new url) evs).
Proof.
  intros H. apply dispatcher_reachable_run; [constructor|].
  by apply bool_decide_eq_true in H.
Qed.

(** X13: the channel registry, on any dispatcher state.  After
    [addChannel(c)] the registry holds [c] under [c.id], whatever was
    there before, and every other id is as it was; re-adding an id keeps
    the iteration order of the registry.  After [removeChannel(id)] the
    id is gone and every other id is as it was.  Neither touches the
    queue, the flag or the delivery under way. *)
Theorem addChannel_removeChannel_lookup (s : State) :
  (∀ c, Map_get (Channel.id c) (channels (addChannel c s)) = Some c) ∧
  (∀ c k, k ≠ Channel.id c →
     Map_get k (channels (addChannel c s)) = Map_get k (channels s)) ∧
  (∀ c, is_Some (Map_get (Channel.id c) (channels s)) →
     (channels (addChannel c s)).*1 = (channels s).*1) ∧
  (∀ k, Map_get k (channels (removeChannel k s)) = None) ∧
  (∀ k k', k' ≠ k →
     Map_get k' (channels (removeChannel k s)) = Map_get k' (channels s)) ∧
  (∀ c, queue (addChannel c s) = queue s ∧ processing (addChannel c s) = processing s ∧
        drain (addChannel c s) = drain s ∧ log (addChannel c s) = log s) ∧
  (∀ k, queue (removeChannel k s) = queue s ∧
        processing (removeChannel k s) = processing s ∧
        drain (removeChannel k s) = drain s ∧ log (removeChannel k s) = log s).
Proof.
  split_and!.
  - intros c. apply Map_get_set_eq.
  - intros c k Hne. apply Map_get_set_ne. congruence.
  - intros c Hc. by apply Map_set_keys_present.
  - intros k. simpl. rewrite Map_get_delete. by rewrite decide_True.
  - intros k k' Hne. simpl. rewrite Map_get_delete. by rewrite decide_False.
  - done.
  - done.
Qed.

(** X14: the registry of a reachable dispatcher: its ids are pairwise
    distinct, every channel is stored under its own id, and the channel
    list of [getStats] lists each registered channel once, in registry
    order. *)
Theorem channels_keyed_by_id url s :
  reachable url s →
  NoDup (channels s).*1 ∧
  (∀ k c, Map_get k (channels s) = Some c ↔ (k, c) ∈ channels s) ∧
  (∀ k c, Map_get k (channels s) = Some c → Channel.id c = k) ∧
  ChannelStat.id <$> Stats.channels (getStats s) = (channels s).*1.
Proof.
  intros Hs. destruct (registry_ok_reachable url s Hs) as [Hk Hid]. split_and!.
  - done.
  - intros k c. split; [apply Map_get_Some_elem|by apply Map_get_elem].
  - intros k c Hin%Map_get_Some_elem. exact (Hid _ Hin).
  - unfold getStats. simpl. rewrite <- list_fmap_compose.
    apply Forall_fmap_ext_1, Forall_forall. intros e He. simpl. auto.
Qed.

Lemma channels_keyed_by_id_witness :
  NoDup (channels (run (new (Some "https://example.org/hook")) [AddChannel audit])).*1.
Proof.
  apply (channels_keyed_by_id (Some "https://example.org/hook")).
  apply dispatcher_reachable_eval. vm_compute. reflexivity.
Defined.

(** X15: busy and idle.  In a reachable dispatcher the [processing] flag
    is set exactly while a [processQueue] call is suspended in a delivery;
    when it is clear the queue is empty ([getStats] reports
    [queueSize = 0]) and every delivery that was started has settled. *)
Theorem idle_dispatcher_is_quiescent url s :
  reachable url s →
  (processing s = true ↔ is_Some (drain s)) ∧
  (Stats.processing (getStats s) = false →
     Stats.queueSize (getStats s) = 0%nat ∧
     ∀ n p c, Invoked n p c ∈ log s → ∃ ok, Settled n (Channel.id c) ok ∈ log s).
Proof.
  intros Hs.
  pose proof (dispatcher_wf_reachable url s Hs) as Hwf.
  destruct (dispatch_ok_reachable url s Hs) as [Hbusy Hinv _ _ _].
  split.
  - split; [exact Hbusy|apply Hwf].
  - simpl. intros Hp. split.
    + by rewrite (wf_idle s Hwf Hp).
    + intros n p c Hin. destruct (Hinv n p c Hin) as (_ & _ & [Hset|Hpend]); [done|].
      destruct Hpend as (d & Hd & _).
      assert (processing s = true) by (apply Hwf; by rewrite Hd). congruence.
Qed.

Lemma idle_dispatcher_is_quiescent_witness :
  let s := run (new None) [SendNotification request 10; Settle "websocket" true;
                            AllSettled] in
  Stats.queueSize (getStats s) = 0%nat.
Proof.
  intros s. destruct (idle_dispatcher_is_quiescent None s) as [_ H].
  - apply dispatcher_reachable_eval. vm_compute. reflexivity.
  - apply H. vm_compute. reflexivity.
Defined.

(** X16: one notification at a time.  In a reachable dispatcher every
    delivery that was started has settled or is pending in the delivery
    under way, which is that of its own notification: the deliveries of
    two different notifications are never in flight together.  Every
    payload handed to a channel carries a time stamp and a priority. *)
Theorem one_notification_in_flight url s :
  reachable url s →
  (∀ n p c, Invoked n p c ∈ log s →
     stamped p ∧
     ((∃ ok, Settled n (Channel.id c) ok ∈ log s) ∨
      (∃ d, drain s = Some d ∧ current d = n ∧
            (Channel.id c, Channel.type c) ∈ pending d))) ∧
  (∀ n p c n' p' c', Invoked n p c ∈ log s → Invoked n' p' c' ∈ log s →
     (∀ ok, Settled n (Channel.id c) ok ∉ log s) →
     (∀ ok, Settled n' (Channel.id c') ok ∉ log s) → n = n').
Proof.
  intros Hs. destruct (dispatch_ok_reachable url s Hs) as [_ Hinv _ _ _].
  split.
  - intros n p c Hin. destruct (Hinv n p c Hin) as (? & _ & ?). done.
  - intros n p c n' p' c' Hin Hin' Hns Hns'.
    destruct (Hinv n p c Hin) as (_ & _ & [[ok Hset]|(d & Hd & Hcur & _)]);
      [by destruct (Hns ok)|].
    destruct (Hinv n' p' c' Hin') as (_ & _ & [[ok Hset]|(d' & Hd' & Hcur' & _)]);
      [by destruct (Hns' ok)|].
    congruence.
Qed.

Lemma one_notification_in_flight_witness :
  ∃ d, drain webhook_pending = Some d ∧ current d = 0%nat ∧
       ("webhook", webhook) ∈ pending d.
Proof.
  destruct (one_notification_in_flight (Some "https://example.org/hook") webhook_pending)
    as [H _].
  - apply dispatcher_reachable_eval. vm_compute. reflexivity.
  - destruct (H 0%nat (stamp 10 request)
                (Channel.mk "webhook" webhook (Some "https://example.org/hook") true None))
      as (_ & [[ok Hset]|Hpend]).
    + vm_compute. do 2 right. left.
    + exfalso. vm_compute in Hset.
      repeat (apply elem_of_cons in Hset as [Hset|Hset]; [discriminate Hset|]).
      inversion Hset.
    + exact Hpend.
Defined.

(** X17: first in, first out.  In a reachable dispatcher the deliveries
    appear in the log in the order of the calls of [sendNotification]
    that sent their notifications, the queue is in the order of the
    calls, and everything in the queue was sent after everything whose
    delivery was started. *)
Theorem notifications_delivered_in_order url s :
  reachable url s →
  StronglySorted le (omap invoked (log s)) ∧
  StronglySorted lt (queue s).*1 ∧
  (∀ m n, m ∈ omap invoked (log s) → n ∈ (queue s).*1 → (m < n)%nat) ∧
  (∀ l1 l2 n p c n' p' c', log s = l1 ++ Invoked n p c :: l2 →
     Invoked n' p' c' ∈ l2 → (n ≤ n')%nat).
Proof.
  intros Hs. destruct (dispatch_ok_reachable url s Hs) as [_ _ Hqueue Hsorted Hfifo].
  split_and!; [done..| |].
  - intros m n Hm ([n0 p] & -> & Hin)%list_elem_of_fmap.
    destruct (Hqueue n0 p Hin) as (_ & _ & _ & _ & H). by apply H.
  - intros l1 l2 n p c n' p' c' Hlog Hin.
    rewrite Hlog, omap_app in Hfifo.
    apply StronglySorted_app_1_r in Hfifo. simpl in Hfifo.
    apply StronglySorted_cons in Hfifo as [Hall _].
    rewrite Forall_forall in Hall. apply Hall, elem_of_invoked. eauto.
Qed.

Lemma notifications_delivered_in_order_witness :
  let s := run webhook_pending
             [SendNotification request 11; SendNotification request 12;
              Settle "websocket" true; Settle "webhook" false; AllSettled] in
  StronglySorted lt (queue s).*1 ∧ omap invoked (log s) = [0; 0; 1; 1]%nat.
Proof.
  intros s.
  destruct (notifications_delivered_in_order (Some "https://example.org/hook") s)
    as (_ & H & _).
  - apply (dispatcher_reachable_run _ webhook_pending).
    + apply (dispatcher_reachable_eval _ [SendNotification request 10]).
      vm_compute. reflexivity.
    + by_eval.
  - split; [exact H|]. vm_compute. reflexivity.
Defined.

(** X18: a notification in the queue.  In a reachable dispatcher the
    call of [sendNotification] that queued it has returned already and
    ['notification'] was emitted for it, before any delivery was
    attempted: no delivery of it was started yet.  Its payload has its
    time stamp and its priority. *)
Theorem queued_notification_already_acknowledged url s n p :
  reachable url s → (n, p) ∈ queue s →
  Resolved n ∈ log s ∧ Emitted "notification" n ∈ log s ∧
  (∀ p' c, Invoked n p' c ∉ log s) ∧
  stamped p ∧ processing s = true.
Proof.
  intros Hs Hin.
  pose proof (dispatcher_wf_reachable url s Hs) as Hwf.
  destruct (dispatch_ok_reachable url s Hs) as [_ _ Hqueue _ _].
  destruct (Hqueue n p Hin) as (? & ? & ? & ? & Hlt).
  split_and!; [done..| |done|].
  - intros p' c Hinv. assert (n < n)%nat; [|lia].
    apply Hlt, elem_of_invoked. eauto.
  - destruct (processing s) eqn:Hp; [done|].
    rewrite (wf_idle s Hwf Hp) in Hin. inversion Hin.
Qed.

Lemma queued_notification_already_acknowledged_witness :
  Resolved 1 ∈ log (run webhook_pending [SendNotification request 11]).
Proof.
  apply (queued_notification_already_acknowledged (Some "https://example.org/hook")
           (run webhook_pending [SendNotification request 11]) 1%nat (stamp 11 request)).
  - apply (dispatcher_reachable_run _ webhook_pending).
    + apply (dispatcher_reachable_eval _ [SendNotification request 10]).
      vm_compute. reflexivity.
    + by_eval.
  - vm_compute. by left.
Defined.

(** *** What [clearQueue] drops *)
Lemma dropped_step n s ev :
  wf s → enabled s ev → dropped n s → dropped n (step s ev).
Proof.
  intros Hwf Hen (Hn & Hq & Hl).
  destruct ev as [c|channelId|p now|channelId ok| |]; cbn [step enabled] in *.
  - done.
  - done.
  - destruct (processing s) eqn:Hp.
    + rewrite sendNotification_busy by done. split_and!; nfields.
      * lia.
      * rewrite fmap_app. intros [Hin|Hin%list_elem_of_singleton]%elem_of_app;
          [done|simpl in Hin; lia].
      * by rewrite invoked_after_drain.
    + rewrite sendNotification_idle by (by try apply Hwf). split_and!; nfields.
      * lia.
      * apply not_elem_of_nil.
      * rewrite omap_app, invoked_fanout.
        intros [Hin|[Heq _]%elem_of_replicate]%elem_of_app; [done|lia].
  - destruct Hen as (d & ty & Hd & _). unfold settle. rewrite Hd.
    split_and!; nfields; [done..|].
    rewrite omap_app. simpl. by rewrite app_nil_r.
  - destruct Hen as (d & Hd & _). unfold allSettled. rewrite Hd.
    destruct (queue s) as [|[m p] rest] eqn:Hqs.
    + rewrite processQueue_loop_done by done. split_and!; nfields.
      * done.
      * apply not_elem_of_nil.
      * by rewrite invoked_after_drain.
    + rewrite (processQueue_loop_next _ m p rest) by done. split_and!; nfields.
      * done.
      * intros Hin. apply Hq. rewrite fmap_cons. by right.
      * rewrite omap_app, invoked_fanout.
        intros [Hin|[Heq _]%elem_of_replicate]%elem_of_app; [done|].
        apply Hq. rewrite fmap_cons, Heq. by left.
  - split_and!; nfields; [done| |done]. apply not_elem_of_nil.
Qed.

Lemma dropped_run n s evs :
  wf s → all_enabled s evs → dropped n s → dropped n (run s evs).
Proof.
  revert s. induction evs as [|ev evs IH]; intros s Hwf Hen Hd; [done|].
  destruct Hen as [Hev Hen]. apply IH; [by apply dispatcher_wf_step|done|].
  by apply dropped_step.
Qed.

(** X19: what [clearQueue] loses.  A notification that is in the queue of
    a reachable dispatcher when [clearQueue] is called is never delivered
    to any channel, whatever happens afterwards, although the call that
    sent it has returned normally. *)
Theorem clearQueue_drops_acknowledged_notifications url s n p evs :
  reachable url s → (n, p) ∈ queue s → all_enabled (clearQueue s) evs →
  Resolved n ∈ log s ∧
  ∀ p' c, Invoked n p' c ∉ log (run (clearQueue s) evs).
Proof.
  intros Hs Hin Hen.
  pose proof (dispatcher_wf_reachable url s Hs) as Hwf.
  destruct (dispatch_ok_reachable url s Hs) as [_ _ Hqueue _ _].
  destruct (Hqueue n p Hin) as (_ & Hn & _ & Hres & Hlt).
  split; [done|].
  assert (Hd : dropped n (clearQueue s)).
  { split_and!; nfields; [done|apply not_elem_of_nil|].
    intros Hm. specialize (Hlt n Hm). lia. }
  assert (Hwf' : wf (clearQueue s)) by (by apply (dispatcher_wf_step s ClearQueue)).
  destruct (dropped_run n _ evs Hwf' Hen Hd) as (_ & _ & Hno).
  intros p' c Hinv. apply Hno, elem_of_invoked. eauto.
Qed.

Lemma clearQueue_drops_acknowledged_notifications_witness :
  Resolved 1 ∈ log (run webhook_pending [SendNotification request 11]) ∧
  (Invoked 1 (stamp 11 request) websocket_channel ∉
     log (run (clearQueue (run webhook_pending [SendNotification request 11]))
            [Settle "websocket" true; Settle "webhook" true; AllSettled;
             SendNotification request 12])).
Proof.
  destruct (clearQueue_drops_acknowledged_notifications (Some "https://example.org/hook")
              (run webhook_pending [SendNotification request 11]) 1%nat (stamp 11 request)
              [Settle "websocket" true; Settle "webhook" true; AllSettled;
               SendNotification request 12]) as [Hres Hno].
  - apply (dispatcher_reachable_run _ webhook_pending).
    + apply (dispatcher_reachable_eval _ [SendNotification request 10]).
      vm_compute. reflexivity.
    + by_eval.
  - vm_compute. by left.
  - by_eval.
  - split; [exact Hres|apply Hno].
Defined.







Lemma addChannel_removeChannel_lookup_witness :
  Map_get "websocket" (channels (addChannel audit (new None))) = Some websocket_channel ∧
  Map_get "websocket" (channels (removeChannel "audit" (new None)))
    = Some websocket_channel.
Proof.
  destruct (addChannel_removeChannel_lookup (new None)) as (_ & Hadd & _ & _ & Hrem & _).
  split.
  - rewrite (Hadd audit "websocket"); [reflexivity|discriminate].
  - rewrite (Hrem "audit" "websocket"); [reflexivity|discriminate].
Defined.

End NotificationExtras.

(** ** Properties of the routes *)
Module RouteExtras.
Import WebhookRoute.

(** *** The webhook handler *)

(** Two different types of event. *)
Ltac clash :=
  first
    [ match goal with
      | H1 : type ?d = Some _, H2 : type ?d = Some _ |- _ =>
          rewrite H1 in H2; discriminate H2
      end
    | congruence ].

(** What [dispatch] does, by the type of the event: the calls it makes in
    order, stopping after the first one that is rejected. *)
Lemma dispatch_cases data env :
  let notify ty d := SendNotification ty (topic data) d in
  let after c rest := if rejects env c then ([c], None) else (c :: rest.1, rest.2) in
  let last c : list Call * option unit :=
    ([c], if rejects env c then None else Some tt) in
  dispatch data env =
  if decide (type data = Some "session_proposal") then
    last (notify NotificationService.session_proposal (FromParams (params data)))
  else if decide (type data = Some "session_request") then
    match params data with
    | Some p => if has_request p
                then last (notify NotificationService.session_request
                                  (FromParams (params data)))
                else ([], None)
    | None => ([], None)
    end
  else if decide (type data = Some "session_delete") then
    after (DeleteSession (topic data))
          (last (notify NotificationService.session_delete EmptyObject))
  else if decide (type data = Some "session_update") then
    after (UpdateSession (topic data) (params data))
          (last (notify NotificationService.session_update (FromParams (params data))))
  else if decide (type data = Some "session_ping") then
    last (UpdateLastActivity (topic data))
  else ([], Some tt).
Proof.
  cbn zeta. unfold dispatch.
  repeat case_decide; try reflexivity.
  - unfold handleSessionRequest, bind, await, ret, throw.
    destruct (params data) as [p|]; [|reflexivity].
    destruct (has_request p); reflexivity.
  - unfold handleSessionDelete, bind, await.
    destruct (rejects env (DeleteSession _)); reflexivity.
  - unfold handleSessionUpdate, bind, await.
    destruct (rejects env (UpdateSession _ _)); reflexivity.
Qed.

(** X21: the signature gate of [POST /].  The answer is 401 exactly when
    the signature header is missing or empty, or the validator returns
    false; the validator is not even consulted for a missing or empty
    signature.  No call into the session manager or the dispatcher is
    made unless the request passed the check, and an answer of 200
    implies that it did. *)
Theorem webhook_signature_gate req env :
  ((post req env).2 = 401 ↔
     signature req = None ∨ signature req = Some "" ∨
     ∃ sig, signature req = Some sig ∧ validateWebhook env (body req) sig = Some false) ∧
  ((signature req = None ∨ signature req = Some "") →
     ∀ v, post req (mkEnv v (rejects env)) = ([], 401)) ∧
  ((post req env).1 ≠ [] → authentic req env) ∧
  ((post req env).2 = 200 → authentic req env).
Proof.
  unfold post, authentic. split_and!.
  - destruct (signature req) as [sig|]; [|split; [intros _; by left|done]].
    destruct (decide (sig = "")) as [->|Hne];
      [split; [intros _; right; by left|done]|].
    destruct (validateWebhook env (body req) sig) as [[|]|] eqn:Hv.
    + split.
      * destruct (body req) as [data|]; cbn [snd];
          [destruct (dispatch data env).2|]; discriminate.
      * intros [?|[[= ->]|(sig' & [= <-] & Hf)]]; [discriminate|done|congruence].
    + split; [|done]. intros _. right. right. eauto.
    + split; [discriminate|].
      intros [?|[[= ->]|(sig' & [= <-] & Hf)]]; [discriminate|done|congruence].
  - intros [H|H] v; rewrite H; reflexivity.
  - destruct (signature req) as [sig|]; [|done].
    destruct (decide (sig = "")) as [->|Hne]; [done|].
    destruct (validateWebhook env (body req) sig) as [[|]|] eqn:Hv; [|done..].
    intros _. exists sig. done.
  - destruct (signature req) as [sig|]; [|discriminate].
    destruct (decide (sig = "")) as [->|Hne]; [discriminate|].
    destruct (validateWebhook env (body req) sig) as [[|]|] eqn:Hv; [|discriminate..].
    intros _. exists sig. done.
Qed.

Lemma webhook_signature_gate_witness :
  post (mkRequest (Some "") (Some (mkBody (Some "session_delete") "t" None))) all_fine
  = ([], 401).
Proof.
  destruct (webhook_signature_gate
    (mkRequest (Some "") (Some (mkBody (Some "session_delete") "t" None))) all_fine)
    as (_ & H & _).
  apply (H (or_intror eq_refl) (validateWebhook all_fine)).
Defined.

(** X22: the answer of [POST /] to a request that passed the signature
    check and has a body.  It is 200 or 500; it is 200 exactly when no
    call that was made was rejected and the event is not a
    [session_request] without [params.request]; when it is 500 after
    some call was made, the call made last is the one that was
    rejected and every call before it succeeded. *)
Theorem webhook_answer req env data :
  authentic req env → body req = Some data →
  let calls := (post req env).1 in
  let code := (post req env).2 in
  (code = 200 ∨ code = 500) ∧
  (code = 200 ↔
     Forall (fun c => rejects env c = false) calls ∧
     ¬ (type data = Some "session_request" ∧
        ∀ p, params data = Some p → has_request p = false)) ∧
  (code = 500 → calls ≠ [] →
     ∃ before c, calls = before ++ [c] ∧ rejects env c = true ∧
                 Forall (fun c' => rejects env c' = false) before).
Proof.
  intros (sig & Hsig & Hne & Hv) Hb. unfold post.
  rewrite Hsig, decide_False, Hv, Hb by done. cbn [fst snd].
  rewrite dispatch_cases. cbn zeta.
  repeat case_decide.
  - destruct (rejects env _) eqn:Hr; cbn [fst snd].
    + split_and!; [by right| |].
      * split; [discriminate|]. intros [Hall _].
        apply Forall_inv in Hall. simpl in Hall. congruence.
      * intros _ _. exists [], (SendNotification NotificationService.session_proposal
                              (topic data) (FromParams (params data))). done.
    + split_and!; [by left| |discriminate].
      split; [|done]. intros _. split; [by apply Forall_singleton|].
      intros [Hty _]. clash.
  - destruct (params data) as [p|] eqn:Hp; [destruct (has_request p) eqn:Hreq|].
    + destruct (rejects env _) eqn:Hr; cbn [fst snd].
      * split_and!; [by right| |].
        -- split; [discriminate|]. intros [Hall _].
           apply Forall_inv in Hall. simpl in Hall. congruence.
        -- intros _ _. exists [], (SendNotification NotificationService.session_request
                                (topic data) (FromParams (Some p))). done.
      * split_and!; [by left| |discriminate].
        split; [|done]. intros _. split; [by apply Forall_singleton|].
        intros [_ Hno]. specialize (Hno p eq_refl). congruence.
    + cbn [fst snd]. split_and!; [by right| |done].
      split; [discriminate|]. intros [_ Hno]. exfalso. apply Hno.
      split; [done|]. intros p' [= <-]. done.
    + cbn [fst snd]. split_and!; [by right| |done].
      split; [discriminate|]. intros [_ Hno]. exfalso. apply Hno.
      split; [done|]. intros p' Hp'. discriminate Hp'.
  - destruct (rejects env (DeleteSession _)) eqn:Hr1; cbn [fst snd].
    + split_and!; [by right| |].
      * split; [discriminate|]. intros [Hall _].
        apply Forall_inv in Hall. simpl in Hall. congruence.
      * intros _ _. exists [], (DeleteSession (topic data)). done.
    + destruct (rejects env (SendNotification _ _ _)) eqn:Hr2; cbn [fst snd].
      * split_and!; [by right| |].
        -- split; [discriminate|]. intros [Hall _].
           apply Forall_inv_tail, Forall_inv in Hall. simpl in Hall. congruence.
        -- intros _ _. exists [DeleteSession (topic data)],
             (SendNotification NotificationService.session_delete (topic data) EmptyObject).
           split_and!; [done..|]. by apply Forall_singleton.
      * split_and!; [by left| |discriminate].
        split; [|done]. intros _. split; [by repeat constructor|].
        intros [Hty _]. clash.
  - destruct (rejects env (UpdateSession _ _)) eqn:Hr1; cbn [fst snd].
    + split_and!; [by right| |].
      * split; [discriminate|]. intros [Hall _].
        apply Forall_inv in Hall. simpl in Hall. congruence.
      * intros _ _. exists [], (UpdateSession (topic data) (params data)). done.
    + destruct (rejects env (SendNotification _ _ _)) eqn:Hr2; cbn [fst snd].
      * split_and!; [by right| |].
        -- split; [discriminate|]. intros [Hall _].
           apply Forall_inv_tail, Forall_inv in Hall. simpl in Hall. congruence.
        -- intros _ _. exists [UpdateSession (topic data) (params data)],
             (SendNotification NotificationService.session_update (topic data)
                (FromParams (params data))).
           split_and!; [done..|]. by apply Forall_singleton.
      * split_and!; [by left| |discriminate].
        split; [|done]. intros _. split; [by repeat constructor|].
        intros [Hty _]. clash.
  - destruct (rejects env _) eqn:Hr; cbn [fst snd].
    + split_and!; [by right| |].
      * split; [discriminate|]. intros [Hall _].
        apply Forall_inv in Hall. simpl in Hall. congruence.
      * intros _ _. exists [], (UpdateLastActivity (topic data)). done.
    + split_and!; [by left| |discriminate].
      split; [|done]. intros _. split; [by apply Forall_singleton|].
      intros [Hty _]. clash.
  - cbn [fst snd]. split_and!; [by left| |discriminate].
    split; [|done]. intros _. split; [constructor|]. intros [Hty _]. clash.
Qed.

Lemma webhook_answer_witness :
  (post (mkRequest (Some "sig") (Some (mkBody (Some "session_request") "t" None)))
        all_fine).2 = 500.
Proof.
  destruct (webhook_answer
    (mkRequest (Some "sig") (Some (mkBody (Some "session_request") "t" None)))
    all_fine (mkBody (Some "session_request") "t" None)) as ([H|H] & Hiff & _).
  - exists "sig". split_and!; [reflexivity|discriminate|reflexivity].
  - reflexivity.
  - apply Hiff in H as [_ Hno]. exfalso. apply Hno.
    split; [reflexivity|]. intros p Hp. discriminate Hp.
  - exact H.
Defined.

(** X23: the notifications of [POST /], for any request and environment.
    At most one notification is sent, as the last call; its type is the
    type of the event and its topic the topic of the event; it is sent
    only for the four event types [session_proposal], [session_request],
    [session_delete] and [session_update] (not for [session_ping], not
    for an unknown type), only after the session-manager call before it
    succeeded, and, for a [session_request], only if [params.request] is
    there. *)
Theorem webhook_notifies_once req env :
  (length (filter (fun c => is_notification c = true) (post req env).1) ≤ 1)%nat ∧
  ∀ ty tp d, SendNotification ty tp d ∈ (post req env).1 →
    authentic req env ∧
    ∃ data before, body req = Some data ∧
      type data = Some (type_name ty) ∧ tp = topic data ∧
      ty ∈ [NotificationService.session_proposal; NotificationService.session_request;
            NotificationService.session_delete; NotificationService.session_update] ∧
      (post req env).1 = before ++ [SendNotification ty tp d] ∧
      Forall (fun c => is_notification c = false ∧ rejects env c = false) before ∧
      (ty = NotificationService.session_request →
         ∃ p, params data = Some p ∧ has_request p = true) ∧
      (d = if decide (ty = NotificationService.session_delete) then EmptyObject
           else FromParams (params data)).
Proof.
  unfold post, authentic.
  destruct (signature req) as [sig|] eqn:Hsig;
    [|split; [simpl; lia|intros ty tp d Hin; inversion Hin]].
  destruct (decide (sig = "")) as [->|Hne];
    [split; [simpl; lia|intros ty tp d Hin; inversion Hin]|].
  destruct (validateWebhook env (body req) sig) as [[|]|] eqn:Hv;
    [|split; [simpl; lia|intros ty tp d Hin; inversion Hin]..].
  destruct (body req) as [data|] eqn:Hb;
    [|split; [simpl; lia|intros ty tp d Hin; inversion Hin]].
  cbn [fst snd]. rewrite dispatch_cases. cbn zeta.
  assert (Hauth : ∃ sig0, Some sig = Some sig0 ∧ sig0 ≠ "" ∧
                    validateWebhook env (Some data) sig0 = Some true) by eauto.
  repeat case_decide.
  - cbn [fst]. split; [simpl; lia|].
    intros ty tp d [= -> -> ->]%list_elem_of_singleton. split; [done|].
    exists data, []. split_and!;
      first [done | solve [repeat constructor] | discriminate | by repeat constructor].
  - destruct (params data) as [p|] eqn:Hp; [destruct (has_request p) eqn:Hreq|].
    + cbn [fst]. split; [simpl; lia|].
      intros ty tp d [= -> -> ->]%list_elem_of_singleton. split; [done|].
      exists data, []. split_and!;
        first [done | solve [repeat constructor] | by rewrite Hp | eauto].
    + cbn [fst]. split; [simpl; lia|]. intros ty tp d Hin. inversion Hin.
    + cbn [fst]. split; [simpl; lia|]. intros ty tp d Hin. inversion Hin.
  - destruct (rejects env (DeleteSession _)) eqn:Hr1; cbn [fst].
    + split; [simpl; lia|].
      intros ty tp d Hin%list_elem_of_singleton. discriminate Hin.
    + split; [simpl; lia|].
      intros ty tp d [Hin|Hin%list_elem_of_singleton]%elem_of_cons; [discriminate Hin|].
      injection Hin as -> -> ->. split; [done|].
      exists data, [DeleteSession (topic data)]. split_and!;
        first [done | solve [repeat constructor] | discriminate | by repeat constructor].
  - destruct (rejects env (UpdateSession _ _)) eqn:Hr1; cbn [fst].
    + split; [simpl; lia|].
      intros ty tp d Hin%list_elem_of_singleton. discriminate Hin.
    + split; [simpl; lia|].
      intros ty tp d [Hin|Hin%list_elem_of_singleton]%elem_of_cons; [discriminate Hin|].
      injection Hin as -> -> ->. split; [done|].
      exists data, [UpdateSession (topic data) (params data)]. split_and!;
        first [done | solve [repeat constructor] | discriminate | by repeat constructor].
  - cbn [fst]. split; [simpl; lia|].
    intros ty tp d Hin%list_elem_of_singleton. discriminate Hin.
  - cbn [fst]. split; [simpl; lia|]. intros ty tp d Hin. inversion Hin.
Qed.

Lemma webhook_notifies_once_witness :
  (post (mkRequest (Some "sig") (Some (mkBody (Some "session_delete") "t" None)))
        all_fine).1
  = [DeleteSession "t"; SendNotification NotificationService.session_delete "t" EmptyObject].
Proof.
  destruct (webhook_notifies_once
    (mkRequest (Some "sig") (Some (mkBody (Some "session_delete") "t" None))) all_fine)
    as [_ H].
  destruct (H NotificationService.session_delete "t" EmptyObject) as [_ Hsent].
  - vm_compute. right. left.
  - reflexivity.
Defined.

(** *** The health checks *)

(** X24: the answer of [GET /detailed], for any environment.  It is 200
    or 503, and it is 503 exactly when all three checks fail or
    [gatherMetrics] throws (the second call of [getAllSessions] throws or
    returns [null]): a degraded service still answers 200.  The status is
    [healthy] exactly when the three checks pass and [unhealthy] exactly
    when the three fail.  The cache check passes exactly when [set],
    [get] and [delete] all succeed and [get] returns the value written: a
    [delete] that throws fails the check even after a correct read. *)
Theorem health_detailed_status (env : HealthRoute.Env) :
  (HealthRoute.detailed env = 200 ∨ HealthRoute.detailed env = 503) ∧
  (HealthRoute.detailed env = 503 ↔
     HealthRoute.gatherMetrics (HealthRoute.sessions2 env) = None ∨
     (HealthRoute.checkCacheHealth env = false ∧
      HealthRoute.checkSessionsHealth (HealthRoute.sessions1 env) = false ∧
      HealthRoute.memory env = false)) ∧
  (∀ st ch n, HealthRoute.performHealthChecks env = Some (st, ch, n) →
     ch = HealthRoute.mkChecks (HealthRoute.checkCacheHealth env)
            (HealthRoute.checkSessionsHealth (HealthRoute.sessions1 env))
            (HealthRoute.memory env) ∧
     (st = HealthRoute.healthy ↔
        HealthRoute.cache_ok ch = true ∧ HealthRoute.sessions_ok ch = true ∧
        HealthRoute.memory_ok ch = true) ∧
     (st = HealthRoute.unhealthy ↔
        HealthRoute.cache_ok ch = false ∧ HealthRoute.sessions_ok ch = false ∧
        HealthRoute.memory_ok ch = false)) ∧
  (HealthRoute.checkCacheHealth env = true ↔
     HealthRoute.set_throws (HealthRoute.cache env) = false ∧
     HealthRoute.get_result (HealthRoute.cache env)
       = Some (Some (HealthRoute.testValue env)) ∧
     HealthRoute.delete_throws (HealthRoute.cache env) = false).
Proof.
  split_and!.
  - unfold HealthRoute.detailed, HealthRoute.performHealthChecks.
    destruct (HealthRoute.gatherMetrics _); [|by right]. cbn.
    destruct (HealthRoute.checkCacheHealth env),
      (HealthRoute.checkSessionsHealth _), (HealthRoute.memory env); cbn; auto.
  - unfold HealthRoute.detailed, HealthRoute.performHealthChecks.
    destruct (HealthRoute.gatherMetrics _); [|split; [by left|done]]. cbn.
    destruct (HealthRoute.checkCacheHealth env),
      (HealthRoute.checkSessionsHealth _), (HealthRoute.memory env); cbn;
      split; try done; try (intros [?|(? & ? & ?)]; done); auto.
  - intros st ch n. unfold HealthRoute.performHealthChecks.
    destruct (HealthRoute.gatherMetrics _); [|done]. cbn.
    destruct (HealthRoute.checkCacheHealth env),
      (HealthRoute.checkSessionsHealth _), (HealthRoute.memory env); cbn;
      intros [= <- <- <-]; cbn; split_and!; try done;
      split; try done; intros (? & ? & ?); done.
  - unfold HealthRoute.checkCacheHealth.
    destruct (HealthRoute.set_throws _); [split; [done|intros (? & _); done]|].
    destruct (HealthRoute.get_result _) as [r|]; [|split; [done|intros (_ & ? & _); done]].
    destruct (HealthRoute.delete_throws _); [split; [done|intros (_ & _ & ?); done]|].
    rewrite bool_decide_eq_true. split; [intros ->; done|intros (_ & [= ->] & _); done].
Qed.

(** X25: readiness against health, in one environment.  [GET /ready]
    answers 200 exactly when the cache check and the session check pass;
    then [GET /detailed] answers 200 too, unless [gatherMetrics] throws.
    The converse fails: with only the memory check passing, [/detailed]
    answers 200 and [/ready] 503. *)
Theorem health_ready_implies_detailed :
  (∀ env : HealthRoute.Env,
     (HealthRoute.ready env = 200 ↔
        HealthRoute.checkCacheHealth env = true ∧
        HealthRoute.checkSessionsHealth (HealthRoute.sessions1 env) = true) ∧
     (HealthRoute.ready env = 200 →
        HealthRoute.gatherMetrics (HealthRoute.sessions2 env) ≠ None →
        HealthRoute.detailed env = 200)) ∧
  (∃ env : HealthRoute.Env,
     HealthRoute.detailed env = 200 ∧ HealthRoute.ready env = 503).
Proof.
  split.
  - intros env. unfold HealthRoute.ready, HealthRoute.detailed,
      HealthRoute.performHealthChecks.
    destruct (HealthRoute.checkCacheHealth env),
      (HealthRoute.checkSessionsHealth _); cbn.
    + split; [done|]. intros _ Hm.
      destruct (HealthRoute.gatherMetrics _); [|done].
      by destruct (HealthRoute.memory env).
    + split; [split; [done|intros [_ ?]; done]|done].
    + split; [split; [done|intros [? _]; done]|done].
    + split; [split; [done|intros [? _]; done]|done].
  - exists (HealthRoute.mkEnv (HealthRoute.mkCache true None false) "1"
              HealthRoute.SessionsThrow (HealthRoute.SessionsArray 0) true).
    split; reflexivity.
Qed.

Lemma health_detailed_status_witness :
  HealthRoute.detailed
    (HealthRoute.mkEnv (HealthRoute.mkCache false (Some (Some "17")) true) "17"
       (HealthRoute.SessionsArray 2) (HealthRoute.SessionsArray 2) true) = 200.
Proof.
  destruct (health_detailed_status
    (HealthRoute.mkEnv (HealthRoute.mkCache false (Some (Some "17")) true) "17"
       (HealthRoute.SessionsArray 2) (HealthRoute.SessionsArray 2) true))
    as ([H|H] & Hiff & _); [exact H|].
  apply Hiff in H. destruct H as [H|(_ & H & _)]; discriminate H.
Defined.

Lemma health_ready_implies_detailed_witness :
  HealthRoute.detailed
    (HealthRoute.mkEnv (HealthRoute.mkCache false (Some (Some "17")) false) "17"
       (HealthRoute.SessionsArray 2) HealthRoute.SessionsOther false) = 200.
Proof.
  apply (proj1 health_ready_implies_detailed).
  - reflexivity.
  - discriminate.
Defined.

End RouteExtras.
